(** * Hexagonal maze generator and solver: a shallow embedding

    The development follows [hexpathfinder.h] and [main.cpp]:
    - the packed per-cell byte (six wall bits, the path flag, the dead-end flag);
    - [getOppositeWall] and [getNeighbor], the hex-grid geometry;
    - the [DSU] structure with path compression;
    - [generateMaze], randomized Kruskal over the shuffled internal walls;
    - [solveMazeBFS], distance labelling from the goal and path tracing.

    Machine integers are values of [Z] with their conversions written out;
    arrays are lists read and written through checked accessors, so that an
    out-of-range access (undefined in C++) is a failure of the model. *)

From Stdlib Require Import ZArith Lia Bool.
From stdpp Require Import base tactics option list numbers relations strings.

Local Open Scope Z_scope.

Ltac Zify.zify_post_hook ::= Z.to_euclidean_division_equations.

(** ** Machine integers *)

Module Mach.

(** [static_cast<int>] of a 32-bit value: two's complement wrap-around. *)
Definition to_int (x : Z) : Z := (x + 2147483648) mod 4294967296 - 2147483648.

(** Conversion to [uint32_t]. *)
Definition to_u32 (x : Z) : Z := x mod 4294967296.

(** Conversion to [uint8_t]. *)
Definition to_u8 (x : Z) : Z := x mod 256.

End Mach.
Export Mach.

(** ** hexpathfinder.h *)

Definition MAX_ROWS : Z := 50.
Definition MAX_COLS : Z := 50.

Definition WALL_UP : Z := 1.
Definition WALL_UP_RIGHT : Z := 2.
Definition WALL_DOWN_RIGHT : Z := 4.
Definition WALL_DOWN : Z := 8.
Definition WALL_DOWN_LEFT : Z := 16.
Definition WALL_UP_LEFT : Z := 32.
Definition ALL_WALLS : Z := 63.
Definition VISITED : Z := 64.
Definition DEAD_END : Z := 128.

(** The wall bits and the dead-end bit: everything but the path flag. *)
Definition NOT_VISITED_MASK : Z := 191.

(** The [switch] of [getOppositeWall]; the [default] branch returns 0. *)
Definition getOppositeWall (wallDirection : Z) : Z :=
  if wallDirection =? WALL_UP then WALL_DOWN
  else if wallDirection =? WALL_UP_RIGHT then WALL_DOWN_LEFT
  else if wallDirection =? WALL_DOWN_RIGHT then WALL_UP_LEFT
  else if wallDirection =? WALL_DOWN then WALL_UP
  else if wallDirection =? WALL_DOWN_LEFT then WALL_UP_RIGHT
  else if wallDirection =? WALL_UP_LEFT then WALL_DOWN_RIGHT
  else 0.

(** ** main.cpp: getNeighbor *)

(** The coordinates are converted to [int], moved by the [switch] (every
    [int] operation wraps), tested against the bounds and converted back.
    [None] is the [false] result: the output references are left alone. *)
Definition getNeighbor (r c wallDirection nR nC : Z) : option (Z * Z) :=
  let nr_int := to_int r in
  let nc_int := to_int c in
  let nR_int := to_int nR in
  let nC_int := to_int nC in
  let moved : option (Z * Z) :=
    if wallDirection =? WALL_UP then
      Some (to_int (nr_int - 1), nc_int)
    else if wallDirection =? WALL_DOWN then
      Some (to_int (nr_int + 1), nc_int)
    else if wallDirection =? WALL_UP_RIGHT then
      Some (to_int (nr_int - 1 + Z.land nc_int 1), to_int (nc_int + 1))
    else if wallDirection =? WALL_DOWN_RIGHT then
      Some (to_int (nr_int + Z.land nc_int 1), to_int (nc_int + 1))
    else if wallDirection =? WALL_UP_LEFT then
      Some (to_int (nr_int - 1 + Z.land nc_int 1), to_int (nc_int - 1))
    else if wallDirection =? WALL_DOWN_LEFT then
      Some (to_int (nr_int + Z.land nc_int 1), to_int (nc_int - 1))
    else None in
  match moved with
  | Some (tempR, tempC) =>
      if (0 <=? tempR) && (tempR <? nR_int) && (0 <=? tempC) && (tempC <? nC_int)
      then Some (to_u32 tempR, to_u32 tempC)
      else None
  | None => None
  end.

(** The six directions, in the order of the [directions] arrays of
    [solveMazeBFS]. *)
Definition directions : list Z :=
  [WALL_UP; WALL_DOWN; WALL_UP_LEFT; WALL_UP_RIGHT; WALL_DOWN_LEFT; WALL_DOWN_RIGHT].

(** The three directions of the enumeration. *)
Definition forward_directions : list Z := [WALL_DOWN; WALL_UP_RIGHT; WALL_DOWN_RIGHT].

(** A cell address, and the cells of an [nR] x [nC] grid. *)
Definition cell : Type := Z * Z.

Definition in_grid (nR nC : Z) (a : cell) : Prop :=
  0 <= a.1 < nR /\ 0 <= a.2 < nC.

Definition neighbor (nR nC : Z) (a : cell) (d : Z) : option cell :=
  getNeighbor a.1 a.2 d nR nC.

(** The offsets of the six directions as a table over the column parity,
    and the resolution they give when nothing wraps. *)
Definition hex_offset (c d : Z) : option (Z * Z) :=
  if d =? WALL_UP then Some (-1, 0)
  else if d =? WALL_DOWN then Some (1, 0)
  else if d =? WALL_UP_RIGHT then Some (c mod 2 - 1, 1)
  else if d =? WALL_DOWN_RIGHT then Some (c mod 2, 1)
  else if d =? WALL_UP_LEFT then Some (c mod 2 - 1, -1)
  else if d =? WALL_DOWN_LEFT then Some (c mod 2, -1)
  else None.

Definition hex_neighbor (nR nC : Z) (a : cell) (d : Z) : option cell :=
  match hex_offset a.2 d with
  | Some (dr, dc) =>
      if (0 <=? a.1 + dr) && (a.1 + dr <? nR) && (0 <=? a.2 + dc) && (a.2 + dc <? nC)
      then Some (a.1 + dr, a.2 + dc) else None
  | None => None
  end.

(** ** Arrays *)

(** A loop body that can fail, run over a list. *)
Fixpoint foldM {A B : Type} (f : B -> A -> option B) (b : B) (l : list A) : option B :=
  match l with
  | [] => Some b
  | x :: l' => b' ← f b x; foldM f b' l'
  end.

(** [T a[][MAX_COLS]] with [MAX_ROWS] rows, stored row by row.  An index
    outside the declared bounds is undefined behaviour in the source and a
    failure here. *)
Definition arr_index (r c : Z) : nat := Z.to_nat (r * MAX_COLS + c).

Definition arr_ok (r c : Z) : bool :=
  (0 <=? r) && (r <? MAX_ROWS) && (0 <=? c) && (c <? MAX_COLS).

Definition arr_get {A : Type} (a : list A) (r c : Z) : option A :=
  if arr_ok r c then a !! arr_index r c else None.

Definition arr_set {A : Type} (a : list A) (r c : Z) (v : A) : option (list A) :=
  if arr_ok r c && (arr_index r c <? length a)%nat
  then Some (<[arr_index r c := v]> a) else None.

(** [std::vector<uint32_t>] indexed by a [uint32_t]. *)
Definition vec_get (p : list Z) (i : Z) : option Z :=
  if 0 <=? i then p !! Z.to_nat i else None.

Definition vec_set (p : list Z) (i v : Z) : option (list Z) :=
  if (0 <=? i) && (Z.to_nat i <? length p)%nat
  then Some (<[Z.to_nat i := v]> p) else None.

(** The cells visited by the nested loops
    [for r in 0..nR-1, for c in 0..nC-1], in that order. *)
Definition cells (nR nC : Z) : list cell :=
  r ← seqZ 0 nR; c ← seqZ 0 nC; [(r, c)].

(** The index of a cell in the disjoint-set structure and in the queue. *)
Definition cell_idx (nC : Z) (a : cell) : Z := a.1 * nC + a.2.

(** ** main.cpp: the disjoint-set structure *)

Module DSU.

(** The constructor: [resize(n)] then [iota]. *)
Definition init (n : Z) : list Z := seqZ 0 n.

(** [find] with path compression.  The recursion follows the parent links;
    [fuel] bounds its depth, and running out of it is a failure. *)
Fixpoint find (fuel : nat) (parent : list Z) (i : Z) : option (list Z * Z) :=
  match fuel with
  | O => None
  | S fuel' =>
      pi ← vec_get parent i;
      if pi =? i then Some (parent, i)
      else
        '(parent', root) ← find fuel' parent pi;
        parent'' ← vec_set parent' i root;
        Some (parent'', root)
  end.

Definition unite (fuel : nat) (parent : list Z) (i j : Z) : option (list Z) :=
  '(parent1, root_i) ← find fuel parent i;
  '(parent2, root_j) ← find fuel parent1 j;
  if root_i =? root_j then Some parent2
  else vec_set parent2 root_i root_j.

End DSU.

(** ** main.cpp: generateMaze *)

Record Wall : Type := mkWall { wall_r : Z; wall_c : Z; wall_direction : Z }.

#[global] Instance Wall_eq_dec : EqDecision Wall.
Proof. solve_decision. Defined.

(** Step 1: every cell of the grid gets all six walls. *)
Definition init_walls (maze : list Z) (nR nC : Z) : option (list Z) :=
  foldM (fun m a => arr_set m a.1 a.2 ALL_WALLS) maze (cells nR nC).

(** Step 3: the internal walls, three directions per cell. *)
Definition candidate (nR nC r c d : Z) : list Wall :=
  match getNeighbor r c d nR nC with
  | Some _ => [mkWall r c d]
  | None => []
  end.

Definition internalWalls (nR nC : Z) : list Wall :=
  r ← seqZ 0 nR; c ← seqZ 0 nC;
  candidate nR nC r c WALL_DOWN ++
  candidate nR nC r c WALL_UP_RIGHT ++
  candidate nR nC r c WALL_DOWN_RIGHT.

(** The state of the removal loop. *)
Record gen_state : Type := mkGen {
  gs_maze : list Z;
  gs_dsu : list Z;
  gs_removed : Z
}.

(** [maze[r][c] &= ~bit]: both operands are promoted to [int], the result is
    stored back into the byte. *)
Definition clear_bit (v bit : Z) : Z := to_u8 (Z.land v (Z.lnot bit)).

(** [maze[r][c] |= bit]. *)
Definition set_bit (v bit : Z) : Z := to_u8 (Z.lor v bit).

(** The body of the removal loop after the [break] test.  The operands of
    [!=] are evaluated left to right. *)
Definition remove_wall (fuel : nat) (nR nC : Z) (st : gen_state) (wall : Wall)
  : option gen_state :=
  let r1 := wall_r wall in
  let c1 := wall_c wall in
  let direction := wall_direction wall in
  match getNeighbor r1 c1 direction nR nC with
  | Some (r2, c2) =>
      let cell1_idx := to_u32 (r1 * nC + c1) in
      let cell2_idx := to_u32 (r2 * nC + c2) in
      '(p1, root1) ← DSU.find fuel (gs_dsu st) cell1_idx;
      '(p2, root2) ← DSU.find fuel p1 cell2_idx;
      if root1 =? root2 then Some (mkGen (gs_maze st) p2 (gs_removed st))
      else
        let oppositeWall := getOppositeWall direction in
        v1 ← arr_get (gs_maze st) r1 c1;
        m1 ← arr_set (gs_maze st) r1 c1 (clear_bit v1 direction);
        v2 ← arr_get m1 r2 c2;
        m2 ← arr_set m1 r2 c2 (clear_bit v2 oppositeWall);
        p3 ← DSU.unite fuel p2 cell1_idx cell2_idx;
        Some (mkGen m2 p3 (to_u32 (gs_removed st + 1)))
  | None => Some st
  end.

(** Step 5: the loop over the shuffled walls, with its [break]. *)
Fixpoint remove_walls (fuel : nat) (nR nC target : Z) (walls : list Wall)
    (st : gen_state) : option gen_state :=
  match walls with
  | [] => Some st
  | wall :: walls' =>
      if gs_removed st >=? target then Some st
      else st' ← remove_wall fuel nR nC st wall;
           remove_walls fuel nR nC target walls' st'
  end.

(** Steps 1, 2 and 5 on a given sequence of walls: the state in which the
    removal loop stops. *)
Definition generate_state (fuel : nat) (maze : list Z) (nR nC : Z)
    (walls : list Wall) : option gen_state :=
  maze0 ← init_walls maze nR nC;
  let totalCells := to_u32 (nR * nC) in
  let dsu := DSU.init totalCells in
  let targetWallsToRemove := to_u32 (totalCells - 1) in
  remove_walls fuel nR nC targetWallsToRemove walls (mkGen maze0 dsu 0).

(** [generateMaze].  [shuffle] stands for [std::shuffle] with the state of
    [rng] at the call; the result is the grid and whether the warning was
    printed. *)
Definition generateMaze (fuel : nat) (shuffle : list Wall -> list Wall)
    (maze : list Z) (nR nC : Z) : option (list Z * bool) :=
  let targetWallsToRemove := to_u32 (to_u32 (nR * nC) - 1) in
  st ← generate_state fuel maze nR nC (shuffle (internalWalls nR nC));
  Some (gs_maze st, gs_removed st <? targetWallsToRemove).

(** ** main.cpp: solveMazeBFS *)

(** [int count[MAX_ROWS][MAX_COLS]] is not initialised at its declaration:
    a slot is [None] until it is first written, and reading such a slot
    fails. *)
Definition count_new : list (option Z) :=
  replicate (Z.to_nat (MAX_ROWS * MAX_COLS)) None.

Definition count_get (count : list (option Z)) (r c : Z) : option Z :=
  mjoin (arr_get count r c).

Definition count_set (count : list (option Z)) (r c v : Z) : option (list (option Z)) :=
  arr_set count r c (Some v).

(** Step 1: [count] set to -1 and the path flag cleared, cell by cell. *)
Definition solve_init (maze : list Z) (nR nC : Z) : option (list (option Z) * list Z) :=
  foldM (fun '(count, m) a =>
           count' ← count_set count a.1 a.2 (-1);
           v ← arr_get m a.1 a.2;
           m' ← arr_set m a.1 a.2 (clear_bit v VISITED);
           Some (count', m'))
        (count_new, maze) (cells nR nC).

(** The state of the traversal.  [bfs_pushed] is not a program variable: it
    records the arguments of the calls of [q.push], in order. *)
Record bfs_state : Type := mkBfs {
  bfs_count : list (option Z);
  bfs_queue : list Z;
  bfs_pushed : list Z
}.

(** The body of [for (uint8_t dir : directions)] in the traversal. *)
Definition bfs_visit (maze : list Z) (nR nC r c : Z) (st : bfs_state) (dir : Z)
  : option bfs_state :=
  v ← arr_get maze r c;
  if Z.land v dir =? 0 then
    match getNeighbor r c dir nR nC with
    | Some (neighborR, neighborC) =>
        cn ← count_get (bfs_count st) neighborR neighborC;
        if cn =? -1 then
          cc ← count_get (bfs_count st) r c;
          count' ← count_set (bfs_count st) neighborR neighborC (to_int (cc + 1));
          let idx := to_u32 (neighborR * nC + neighborC) in
          Some (mkBfs count' (bfs_queue st ++ [idx]) (bfs_pushed st ++ [idx]))
        else Some st
    | None => Some st
    end
  else Some st.

(** Step 3: [while (!q.empty())]; [fuel] bounds the number of tests. *)
Fixpoint bfs_loop (fuel : nat) (maze : list Z) (nR nC : Z) (st : bfs_state)
  : option bfs_state :=
  match fuel with
  | O => None
  | S fuel' =>
      match bfs_queue st with
      | [] => Some st
      | currentIdx :: q' =>
          let r := currentIdx / nC in
          let c := currentIdx mod nC in
          st' ← foldM (bfs_visit maze nR nC r c)
                      (mkBfs (bfs_count st) q' (bfs_pushed st)) directions;
          bfs_loop fuel' maze nR nC st'
      end
  end.

(** Steps 1 to 3, the distance labelling: the grid with its path flags
    cleared, and the traversal's final state unless the end cell was found
    invalid. *)
Definition solve_label (fuel : nat) (maze : list Z) (nR nC : Z)
  : option (list Z * option bfs_state) :=
  '(count, maze1) ← solve_init maze nR nC;
  let endR := to_u32 (nR - 1) in
  let endC := to_u32 (nC - 1) in
  if (endR >=? nR) || (endC >=? nC) then Some (maze1, None)
  else
    let endCellIdx := to_u32 (endR * nC + endC) in
    count1 ← count_set count endR endC 0;
    st ← bfs_loop fuel maze1 nR nC (mkBfs count1 [endCellIdx] [endCellIdx]);
    Some (maze1, Some st).

(** The scan of the six directions in the trace: the first open direction
    whose neighbour is one step closer, if any. *)
Fixpoint find_next (maze : list Z) (count : list (option Z)) (nR nC r c : Z)
    (dirs : list Z) : option (option cell) :=
  match dirs with
  | [] => Some None
  | dir :: dirs' =>
      v ← arr_get maze r c;
      if Z.land v dir =? 0 then
        match getNeighbor r c dir nR nC with
        | Some (neighborR, neighborC) =>
            cn ← count_get count neighborR neighborC;
            cc ← count_get count r c;
            if cn =? to_int (cc - 1) then Some (Some (neighborR, neighborC))
            else find_next maze count nR nC r c dirs'
        | None => find_next maze count nR nC r c dirs'
        end
      else find_next maze count nR nC r c dirs'
  end.

(** How [solveMazeBFS] returned. *)
Inductive solve_result : Type :=
  | Solved        (* fell out of the trace loop *)
  | NoSolution    (* "No solution path found from start to end." *)
  | TraceError    (* "Error: Could not trace path back ..." *)
  | InvalidEnd.   (* "Error: End cell coordinates are invalid." *)

(** Step 4: [while (count[currentR][currentC] != 0)]. *)
Fixpoint trace_loop (fuel : nat) (count : list (option Z)) (nR nC : Z)
    (maze : list Z) (currentR currentC : Z) : option (list Z * solve_result) :=
  match fuel with
  | O => None
  | S fuel' =>
      cc ← count_get count currentR currentC;
      if cc =? 0 then Some (maze, Solved)
      else
        next ← find_next maze count nR nC currentR currentC directions;
        match next with
        | None => Some (maze, TraceError)
        | Some (neighborR, neighborC) =>
            v ← arr_get maze neighborR neighborC;
            maze' ← arr_set maze neighborR neighborC (set_bit v VISITED);
            trace_loop fuel' count nR nC maze' neighborR neighborC
        end
  end.

Definition solveMazeBFS (fuel : nat) (maze : list Z) (nR nC : Z)
  : option (list Z * solve_result) :=
  '(maze1, lab) ← solve_label fuel maze nR nC;
  match lab with
  | None => Some (maze1, InvalidEnd)
  | Some st =>
      let startR := 0 in
      let startC := 0 in
      cs ← count_get (bfs_count st) startR startC;
      if cs =? -1 then Some (maze1, NoSolution)
      else
        v ← arr_get maze1 startR startC;
        maze2 ← arr_set maze1 startR startC (set_bit v VISITED);
        trace_loop fuel (bfs_count st) nR nC maze2 startR startC
  end.

(** ** Reading a finished grid *)

(** [(maze[r][c] & bit) == 0] and its negation, for a cell of the array. *)
Definition bit_clear (maze : list Z) (a : cell) (bit : Z) : bool :=
  match arr_get maze a.1 a.2 with
  | Some v => Z.land v bit =? 0
  | None => false
  end.

Definition bit_set (maze : list Z) (a : cell) (bit : Z) : bool :=
  match arr_get maze a.1 a.2 with
  | Some v => negb (Z.land v bit =? 0)
  | None => false
  end.

(** The array has its declared size. *)
Definition arr_wf {A : Type} (a : list A) : Prop :=
  length a = Z.to_nat (MAX_ROWS * MAX_COLS).

(** One move of the solver: from a cell of the grid, through a direction
    whose wall bit is clear in that cell, to the neighbour there. *)
Definition open_step (maze : list Z) (nR nC : Z) : relation cell :=
  fun a b => in_grid nR nC a /\
    exists d, d ∈ directions /\ neighbor nR nC a d = Some b /\ bit_clear maze a d = true.

(** A wall between two adjacent cells is recorded on both sides. *)
Definition wall_symmetric (maze : list Z) (nR nC : Z) : Prop :=
  forall a d b, in_grid nR nC a -> d ∈ directions -> neighbor nR nC a d = Some b ->
    (bit_set maze a d = true <-> bit_set maze b (getOppositeWall d) = true).

(** The walls on the rim of the grid are present. *)
Definition boundary_closed (maze : list Z) (nR nC : Z) : Prop :=
  forall a d, in_grid nR nC a -> d ∈ directions -> neighbor nR nC a d = None ->
    bit_set maze a d = true.

(** The open passages, each counted once through the enumeration of the
    internal walls. *)
Definition passage_open (maze : list Z) (w : Wall) : Prop :=
  bit_clear maze (wall_r w, wall_c w) (wall_direction w) = true.

#[global] Instance passage_open_dec maze w : Decision (passage_open maze w).
Proof. unfold passage_open. apply _. Defined.

Definition open_passages (maze : list Z) (nR nC : Z) : list Wall :=
  filter (passage_open maze) (internalWalls nR nC).

(** The two cells a wall candidate lies between, and the candidates that
    denote the undirected edge between [a] and [b]. *)
Definition wall_cells (nR nC : Z) (w : Wall) : option (cell * cell) :=
  b ← neighbor nR nC (wall_r w, wall_c w) (wall_direction w);
  Some ((wall_r w, wall_c w), b).

Definition denotes (nR nC : Z) (a b : cell) (w : Wall) : Prop :=
  wall_cells nR nC w = Some (a, b) \/ wall_cells nR nC w = Some (b, a).

#[global] Instance denotes_dec nR nC a b w : Decision (denotes nR nC a b w).
Proof. unfold denotes. apply _. Defined.

(** ** Graphs on cells *)

Section graphs.
Context (R : relation cell).

(** Consecutive cells of the list are related. *)
Fixpoint is_walk (p : list cell) : Prop :=
  match p with
  | a :: (b :: _) as p' => R a b /\ is_walk p'
  | _ => True
  end.

(** A walk from [a] to [b] that visits no cell twice. *)
Definition simple_path (a b : cell) (p : list cell) : Prop :=
  head p = Some a /\ last p = Some b /\ is_walk p /\ NoDup p.

(** At least three distinct cells in a ring. *)
Definition simple_cycle (p : list cell) : Prop :=
  NoDup p /\ (3 <= length p)%nat /\ is_walk p /\
  exists a b, head p = Some a /\ last p = Some b /\ R b a.

Definition acyclic : Prop := forall p, ~ simple_cycle p.

(** [R] without the edge between [a] and [b]. *)
Definition without_edge (a b : cell) : relation cell :=
  fun x y => R x y /\ ~ (x = a /\ y = b) /\ ~ (x = b /\ y = a).

(** Every edge is a bridge. *)
Definition all_bridges : Prop :=
  forall a b, R a b -> ~ rtc (without_edge a b) a b.
End graphs.

Definition connected (R : relation cell) (nR nC : Z) : Prop :=
  forall a b, in_grid nR nC a -> in_grid nR nC b -> rtc R a b.

(** The open passages form a spanning tree of the grid: recorded on both
    sides, connected, without a cycle, one fewer than the cells. *)
Record spanning_tree (maze : list Z) (nR nC : Z) : Prop := mkSpanning {
  st_symmetric : wall_symmetric maze nR nC;
  st_connected : connected (open_step maze nR nC) nR nC;
  st_acyclic : acyclic (open_step maze nR nC);
  st_passages : Z.of_nat (length (open_passages maze nR nC)) = nR * nC - 1
}.

(** ** The partition held by the disjoint-set structure *)

(** The chain of parent links from [i]: the nodes passed, up to the
    representative [r], which is its own parent. *)
Inductive chain (parent : list Z) : Z -> list Z -> Z -> Prop :=
  | chain_root i :
      vec_get parent i = Some i -> chain parent i [i] i
  | chain_link i j l r :
      vec_get parent i = Some j -> j <> i -> chain parent j l r ->
      chain parent i (i :: l) r.

Definition root_of (parent : list Z) (i r : Z) : Prop :=
  exists l, chain parent i l r.

Definition same_set (parent : list Z) (i j : Z) : Prop :=
  exists r, root_of parent i r /\ root_of parent j r.

(** [n] elements, each with a representative. *)
Definition dsu_wf (n : Z) (parent : list Z) : Prop :=
  Z.of_nat (length parent) = n /\ forall i, 0 <= i < n -> exists r, root_of parent i r.

Definition is_root (parent : list Z) (i : Z) : Prop := vec_get parent i = Some i.

#[global] Instance is_root_dec parent i : Decision (is_root parent i).
Proof. unfold is_root. apply _. Defined.

Definition roots (parent : list Z) : list Z :=
  filter (is_root parent) (seqZ 0 (Z.of_nat (length parent))).

(** Two parent vectors that hold the same partition with the same
    representatives. *)
Definition dsu_same (p p' : list Z) : Prop :=
  length p' = length p /\
  (forall j r, root_of p j r -> root_of p' j r) /\
  (forall j, is_root p' j <-> is_root p j).

(** The invariant of the removal loop. *)
Record gen_inv (nR nC : Z) (st : gen_state) : Prop := mkGenInv {
  gi_maze : arr_wf (gs_maze st);
  gi_dsu : dsu_wf (nR * nC) (gs_dsu st);
  gi_sym : wall_symmetric (gs_maze st) nR nC;
  gi_rim : boundary_closed (gs_maze st) nR nC;
  gi_link : forall a b, in_grid nR nC a -> in_grid nR nC b ->
      (same_set (gs_dsu st) (cell_idx nC a) (cell_idx nC b) <->
       rtc (open_step (gs_maze st) nR nC) a b);
  gi_bridges : all_bridges (open_step (gs_maze st) nR nC);
  gi_passages : Z.of_nat (length (open_passages (gs_maze st) nR nC)) = gs_removed st;
  gi_roots : Z.of_nat (length (roots (gs_dsu st))) + gs_removed st = nR * nC
}.

(** ** The solver's tables *)

Definition start_cell : cell := (0, 0).
Definition goal_cell (nR nC : Z) : cell := (nR - 1, nC - 1).

(** The entry of the distance table for a cell. *)
Definition dist (count : list (option Z)) (a : cell) : option Z :=
  count_get count a.1 a.2.

(** Later tables keep the distances already assigned. *)
Definition count_ext (count count' : list (option Z)) : Prop :=
  forall a x, dist count a = Some x -> x <> -1 -> dist count' a = Some x.

(** The direction [e] out of [v] has been looked at: if it is open, the
    cell behind it has a distance, at most one more than that of [v]. *)
Definition dir_closed (maze : list Z) (nR nC : Z) (count : list (option Z))
    (v : cell) (e : Z) : Prop :=
  forall b, hex_neighbor nR nC v e = Some b -> bit_clear maze v e = true ->
    exists vb dv, dist count b = Some vb /\ dist count v = Some dv /\
      0 <= dv /\ 0 <= vb <= dv + 1.

(** The invariant of the traversal.  [qg] is the queue as cells, with the
    cell being expanded still at its front; [lc] is the list of the cells
    pushed so far. *)
Record bfs_inv (maze : list Z) (nR nC : Z) (qg lc : list cell)
    (count : list (option Z)) : Prop := mkBfsInv {
  bi_wf : arr_wf count;
  bi_vals : forall a, in_grid nR nC a ->
      exists v, dist count a = Some v /\ -1 <= v < Z.of_nat (length lc);
  bi_goal : dist count (goal_cell nR nC) = Some 0;
  bi_reach : forall a v, in_grid nR nC a -> dist count a = Some v -> 0 <= v ->
      nsteps (open_step maze nR nC) (Z.to_nat v) (goal_cell nR nC) a;
  bi_log_grid : forall a, a ∈ lc -> in_grid nR nC a;
  bi_log_nodup : NoDup lc;
  bi_log : forall a, in_grid nR nC a -> (a ∈ lc <-> dist count a <> Some (-1));
  bi_queue : forall a, a ∈ qg -> a ∈ lc;
  bi_window : forall v rest dv, qg = v :: rest -> dist count v = Some dv ->
      exists l1 l2, rest = l1 ++ l2 /\
        (forall x, x ∈ l1 -> dist count x = Some dv) /\
        (forall x, x ∈ l2 -> dist count x = Some (dv + 1));
  bi_closed : forall a b va, a ∈ lc -> a ∉ qg -> open_step maze nR nC a b ->
      dist count a = Some va ->
      exists vb, dist count b = Some vb /\ 0 <= vb <= va + 1;
  bi_done : forall a v rest va dv, a ∈ lc -> a ∉ qg -> qg = v :: rest ->
      dist count a = Some va -> dist count v = Some dv -> va <= dv
}.

(** Two grids with the same wall and dead-end bits in every cell. *)
Definition same_walls (maze maze' : list Z) : Prop :=
  length maze' = length maze /\
  forall r c v, arr_get maze r c = Some v ->
    exists v', arr_get maze' r c = Some v' /\
      Z.land v' NOT_VISITED_MASK = Z.land v NOT_VISITED_MASK.

(** The state the labelling phase ends in, and the label it gives a cell. *)
Definition label_state (fuel : nat) (maze : list Z) (nR nC : Z) : option bfs_state :=
  '(_, lab) ← solve_label fuel maze nR nC; lab.

Definition labelled_distance (fuel : nat) (maze : list Z) (nR nC : Z) (a : cell)
  : option Z :=
  st ← label_state fuel maze nR nC; dist (bfs_count st) a.

(** Wall symmetry, checked cell by cell. *)
Definition wall_symmetricb (maze : list Z) (nR nC : Z) : bool :=
  forallb (fun a =>
    forallb (fun d =>
      match neighbor nR nC a d with
      | Some b => Bool.eqb (bit_set maze a d) (bit_set maze b (getOppositeWall d))
      | None => true
      end) directions) (cells nR nC).

(** ** Two concrete grids *)

(** The 3 x 3 maze generated from the candidates in reverse order. *)
Definition example_maze : list Z :=
  Eval vm_compute in
    match generateMaze 9 reverse (replicate 2500 0) 3 3 with
    | Some (grid, _) => grid
    | None => []
    end.

(** A grid in which no wall has been removed. *)
Definition walled_grid : list Z := replicate 2500 ALL_WALLS.

(** A 1 x 2 grid whose walls are not symmetric: cell (0,1) has lost its
    up-left wall, cell (0,0) behind it has kept all of its walls. *)
Definition one_way_grid : list Z :=
  <[arr_index 0 1 := ALL_WALLS - WALL_UP_LEFT]> walled_grid.

(** ** hexpathfinder.h: the drawing constants and macros *)

Definition DRAW_E : Z := 6.
Definition DRAW_V : Z := 5.
Definition DRAW_X_LEFT : Z := 54.
Definition DRAW_Y_TOP : Z := 708.

(** [computeX(c)] and [computeY(r, c)].  The constants are [uint32_t], so
    every operand is converted to it and every operation wraps. *)
Definition computeX (c : Z) : Z :=
  to_u32 (to_u32 (DRAW_X_LEFT + DRAW_E) + to_u32 (to_u32 (3 * DRAW_E) * c) / 2).

Definition computeY (r c : Z) : Z :=
  to_u32 (to_u32 (to_u32 (DRAW_Y_TOP - DRAW_V) - to_u32 (to_u32 (2 * DRAW_V) * r))
          - to_u32 (Z.land c 1 * DRAW_V)).

(** ** hexpathfinder_draw.cpp *)

(** What is written to the file, insertion by insertion: a string, an
    unsigned number in decimal, or the text of one call of [drawLine],
    [newpath x1 y1 moveto x2 y2 lineto stroke]. *)
Inductive ps_item : Type :=
  | ps_text (s : string)
  | ps_num (n : Z)
  | ps_line (x1 y1 x2 y2 : Z).

(** The line feed. *)
Definition nl : string :=
  String (Ascii.Ascii false true false true false false false false) "".

Definition drawLine (x1 y1 x2 y2 : Z) : ps_item := ps_line x1 y1 x2 y2.

(** A loop body with output that can fail, run over a list. *)
Fixpoint collect {A B : Type} (f : A -> option (list B)) (l : list A) : option (list B) :=
  match l with
  | [] => Some []
  | x :: l' => out ← f x; rest ← collect f l'; Some (out ++ rest)
  end.

(** [for (c = c0; c < nC; c += 2)] with [c] a [uint32_t]: the values at
    which the body runs.  [fuel] bounds the number of tests. *)
Fixpoint every_other (fuel : nat) (c nC : Z) : option (list Z) :=
  match fuel with
  | O => None
  | S fuel' =>
      if c <? nC then cs ← every_other fuel' (to_u32 (c + 2)) nC; Some (c :: cs)
      else Some []
  end.

(** The first loop of [drawMaze]: the walls up-right, down-right and down of
    a cell, where their bits are set. *)
Definition draw_cell_walls (maze : list Z) (r c : Z) : option (list ps_item) :=
  let x := computeX c in
  let y := computeY r c in
  v ← arr_get maze r c;
  Some ((if Z.land v WALL_UP_RIGHT =? 0 then []
         else [drawLine (to_u32 (x + DRAW_E / 2)) (to_u32 (y + DRAW_V))
                        (to_u32 (x + DRAW_E)) y]) ++
        (if Z.land v WALL_DOWN_RIGHT =? 0 then []
         else [drawLine (to_u32 (x + DRAW_E)) y
                        (to_u32 (x + DRAW_E / 2)) (to_u32 (y - DRAW_V))]) ++
        (if Z.land v WALL_DOWN =? 0 then []
         else [drawLine (to_u32 (x + DRAW_E / 2)) (to_u32 (y - DRAW_V))
                        (to_u32 (x - DRAW_E / 2)) (to_u32 (y - DRAW_V))])).

(** The exterior walls: left of column 0, above row 0, up-left of the even
    columns of row 0, down-left of the odd columns of the last row. *)
Definition draw_left (nR : Z) : list ps_item :=
  r ← seqZ 0 nR;
  let x := computeX 0 in
  let y := computeY r 0 in
  [drawLine (to_u32 (x - DRAW_E / 2)) (to_u32 (y + DRAW_V)) (to_u32 (x - DRAW_E)) y;
   drawLine (to_u32 (x - DRAW_E)) y (to_u32 (x - DRAW_E / 2)) (to_u32 (y - DRAW_V))].

Definition draw_top (nC : Z) : list ps_item :=
  c ← seqZ 0 nC;
  let x := computeX c in
  let y := computeY 0 c in
  [drawLine (to_u32 (x - DRAW_E / 2)) (to_u32 (y + DRAW_V))
            (to_u32 (x + DRAW_E / 2)) (to_u32 (y + DRAW_V))].

Definition draw_top_left (cs : list Z) : list ps_item :=
  c ← cs;
  let x := computeX c in
  let y := computeY 0 c in
  [drawLine (to_u32 (x - DRAW_E / 2)) (to_u32 (y + DRAW_V)) (to_u32 (x - DRAW_E)) y].

Definition draw_bottom_left (nR : Z) (cs : list Z) : list ps_item :=
  c ← cs;
  let x := computeX c in
  let y := computeY (to_u32 (nR - 1)) c in
  [drawLine (to_u32 (x - DRAW_E / 2)) (to_u32 (y - DRAW_V)) (to_u32 (x - DRAW_E)) y].

(** The solution layer: from a flagged cell, a line to each flagged
    neighbour behind an open wall, drawn from the cell of smaller index. *)
Definition draw_solution_dir (maze : list Z) (nR nC r c dir : Z) : option (list ps_item) :=
  let x := computeX c in
  let y := computeY r c in
  v ← arr_get maze r c;
  if Z.land v dir =? 0 then
    match getNeighbor r c dir nR nC with
    | Some (neighborR, neighborC) =>
        vn ← arr_get maze neighborR neighborC;
        if negb (Z.land vn VISITED =? 0) then
          let x2 := computeX neighborC in
          let y2 := computeY neighborR neighborC in
          if to_u32 (neighborR * nC + neighborC) >? to_u32 (r * nC + c)
          then Some [drawLine x y x2 y2] else Some []
        else Some []
    | None => Some []
    end
  else Some [].

Definition draw_solution_cell (maze : list Z) (nR nC r c : Z) : option (list ps_item) :=
  v ← arr_get maze r c;
  if negb (Z.land v VISITED =? 0)
  then collect (draw_solution_dir maze nR nC r c) directions
  else Some [].

Definition drawMaze (fuel : nat) (maze : list Z) (nR nC : Z)
    (drawSolution drawDeadEnds : bool) : option (list ps_item) :=
  walls ← collect (fun a => draw_cell_walls maze a.1 a.2) (cells nR nC);
  evens ← every_other fuel 2 nC;
  odds ← every_other fuel 1 nC;
  solution ←
    (if drawSolution then
       lines ← collect (fun a => draw_solution_cell maze nR nC a.1 a.2) (cells nR nC);
       Some ([ps_text ("0 0 1 setrgbcolor gsave currentlinewidth 5 mul setlinewidth "
                       +:+ " 1 setlinecap" +:+ nl)]
             ++ lines ++ [ps_text ("grestore" +:+ nl)])
     else Some []);
  Some ([ps_text ("0.25 setlinewidth" +:+ nl)] ++ walls ++
        draw_left nR ++ draw_top nC ++ draw_top_left evens ++
        draw_bottom_left nR odds ++ solution).

(** [printMaze].  [can_open] tells whether [maze.ps] could be opened; the
    result is what the file holds, or nothing when it could not. *)
Definition printMaze (fuel : nat) (can_open : bool) (maze : list Z) (nR nC : Z)
  : option (option (list ps_item)) :=
  if can_open then
    page1 ← drawMaze fuel maze nR nC false false;
    page2 ← drawMaze fuel maze nR nC true false;
    Some (Some (
      [ps_text ("%!PS-Adobe-2.0" +:+ nl +:+ nl +:+ "%%Pages: 2" +:+ nl +:+
                "%%Page: 1 1" +:+ nl);
       ps_text ("/Arial findfont 20 scalefont setfont" +:+ nl);
       ps_text "54 730 moveto (Random Maze - "; ps_num nR; ps_text "x"; ps_num nC;
       ps_text (") show" +:+ nl)] ++
      page1 ++
      [ps_text ("showpage" +:+ nl);
       ps_text ("%%Page: 2 2" +:+ nl);
       ps_text ("/Arial findfont 20 scalefont setfont" +:+ nl);
       ps_text "54 730 moveto (Random Maze With Solution - "; ps_num nR; ps_text "x";
       ps_num nC; ps_text (") show" +:+ nl)] ++
      page2 ++
      [ps_text ("showpage" +:+ nl)]))
  else Some None.

(** ** main.cpp: main *)

(** The test on the dimensions.  [rows] and [cols] are the [int]s that
    [stoi] returned; in [rows > MAX_ROWS] the [int] is converted to
    [uint32_t], the type of the constant.  Accepted dimensions are converted
    by [static_cast<uint32_t>]. *)
Definition main_dimensions (rows cols : Z) : option (Z * Z) :=
  if (rows <=? 0) || (to_u32 rows >? MAX_ROWS) || (cols <=? 0) || (to_u32 cols >? MAX_COLS)
  then None
  else Some (to_u32 rows, to_u32 cols).

(** How [main] ends once [stoi] has returned [rows] and [cols]: with exit
    code 1 for rejected dimensions, and otherwise with exit code 0 after
    generating into the zero-initialised static array, solving and
    printing. *)
Inductive main_outcome : Type :=
  | main_rejected
  | main_done (grid : list Z) (warned : bool) (result : solve_result)
              (file : option (list ps_item)).

Definition main_exit_code (o : main_outcome) : Z :=
  match o with
  | main_rejected => 1
  | main_done _ _ _ _ => 0
  end.

Definition main_run (fuel : nat) (shuffle : list Wall -> list Wall) (can_open : bool)
    (rows cols : Z) : option main_outcome :=
  match main_dimensions rows cols with
  | None => Some main_rejected
  | Some (nR, nC) =>
      let maze := replicate (Z.to_nat (MAX_ROWS * MAX_COLS)) 0 in
      '(generated, warned) ← generateMaze fuel shuffle maze nR nC;
      '(solved, result) ← solveMazeBFS fuel generated nR nC;
      file ← printMaze fuel can_open solved nR nC;
      Some (main_done solved warned result file)
  end.

(** ** Reading a drawing *)

(** The line segments of an output, in the order they are drawn. *)
Definition segment : Type := (Z * Z) * (Z * Z).

Definition lines (out : list ps_item) : list segment :=
  omap (fun i => match i with
                 | ps_line x1 y1 x2 y2 => Some ((x1, y1), (x2, y2))
                 | _ => None
                 end) out.

(** The same segment, drawn in either sense. *)
Definition same_segment (s t : segment) : Prop :=
  s = t \/ s = (t.2, t.1).

(** The centre of a cell on the page. *)
Definition centre (a : cell) : Z * Z := (computeX a.2, computeY a.1 a.2).

(** The side of the hexagon centred at [(x, y)] that carries the wall in
    direction [d], with the end points [drawMaze] gives it. *)
Definition wall_side (p : Z * Z) (d : Z) : option segment :=
  let x := p.1 in
  let y := p.2 in
  if d =? WALL_UP then
    Some ((x - DRAW_E / 2, y + DRAW_V), (x + DRAW_E / 2, y + DRAW_V))
  else if d =? WALL_UP_RIGHT then
    Some ((x + DRAW_E / 2, y + DRAW_V), (x + DRAW_E, y))
  else if d =? WALL_DOWN_RIGHT then
    Some ((x + DRAW_E, y), (x + DRAW_E / 2, y - DRAW_V))
  else if d =? WALL_DOWN then
    Some ((x + DRAW_E / 2, y - DRAW_V), (x - DRAW_E / 2, y - DRAW_V))
  else if d =? WALL_DOWN_LEFT then
    Some ((x - DRAW_E, y), (x - DRAW_E / 2, y - DRAW_V))
  else if d =? WALL_UP_LEFT then
    Some ((x - DRAW_E / 2, y + DRAW_V), (x - DRAW_E, y))
  else None.

(** The closed rim, checked cell by cell. *)
Definition boundary_closedb (maze : list Z) (nR nC : Z) : bool :=
  forallb (fun a =>
    forallb (fun d =>
      match neighbor nR nC a d with
      | Some _ => true
      | None => bit_set maze a d
      end) directions) (cells nR nC).

(** ** The model on small inputs *)

(** An even column steps up to the right into the row above, an odd column
    stays in its row. *)
Example getNeighbor_even_column : getNeighbor 1 0 WALL_UP_RIGHT 3 3 = Some (0, 1).
Proof. reflexivity. Qed.

Example getNeighbor_odd_column : getNeighbor 1 1 WALL_UP_RIGHT 3 3 = Some (1, 2).
Proof. reflexivity. Qed.

Example getNeighbor_top_row : getNeighbor 0 0 WALL_UP 3 3 = None.
Proof. reflexivity. Qed.

Example getNeighbor_no_direction : getNeighbor 1 1 3 3 3 = None.
Proof. reflexivity. Qed.

(** A row of [2^32 - 1] is -1 as an [int]: outside the grid, with a
    neighbour inside. *)
Example getNeighbor_row_wraps : getNeighbor 4294967295 0 WALL_DOWN 3 3 = Some (0, 0).
Proof. reflexivity. Qed.

Example internalWalls_2_2 :
  internalWalls 2 2 =
  [mkWall 0 0 WALL_DOWN; mkWall 0 0 WALL_DOWN_RIGHT; mkWall 0 1 WALL_DOWN;
   mkWall 1 0 WALL_UP_RIGHT; mkWall 1 0 WALL_DOWN_RIGHT].
Proof. reflexivity. Qed.

(** [find] returns the representative and points the nodes it passed at it. *)
Example find_compresses : DSU.find 3 [1; 2; 2] 0 = Some ([2; 2; 2], 2).
Proof. reflexivity. Qed.

(** On a cycle of parent links the source recurses for ever; the model runs
    out of fuel. *)
Example find_on_a_cycle : DSU.find 100 [1; 0] 0 = None.
Proof. reflexivity. Qed.

Example unite_links_the_roots : DSU.unite 3 [0; 0; 2] 1 2 = Some [2; 0; 2].
Proof. reflexivity. Qed.

(** The 2 x 2 maze from the candidates in the order of their enumeration:
    the walls (0,0)-(1,0), (0,0)-(0,1) and (0,1)-(1,1) are removed. *)
Example generateMaze_2_2 :
  (fun g : list Z * bool => ((fun a => arr_get g.1 a.1 a.2) <$> cells 2 2, g.2))
    <$> generateMaze 4 id (replicate 2500 0) 2 2
  = Some ([Some 51; Some 23; Some 62; Some 62], false).
Proof. vm_compute. reflexivity. Qed.

(** With too few candidates the warning is printed. *)
Example generateMaze_truncated :
  snd <$> generateMaze 4 (take 2) (replicate 2500 0) 2 2 = Some true.
Proof. vm_compute. reflexivity. Qed.

(** The labels of the 3 x 3 example, row by row, and the indices pushed. *)
Example label_example_maze :
  (fun st => ((fun a => dist (bfs_count st) a) <$> cells 3 3, bfs_pushed st))
    <$> label_state 10 example_maze 3 3
  = Some ([Some 6; Some 5; Some 2; Some 4; Some 3; Some 1; Some 2; Some 1; Some 0],
          [8; 5; 7; 2; 6; 4; 3; 1; 0]).
Proof. vm_compute. reflexivity. Qed.

(** The cells of the 3 x 3 example that carry the path flag afterwards. *)
Example solve_example_maze :
  (fun g : list Z * solve_result =>
     (filter (fun a => bit_set g.1 a VISITED = true) (cells 3 3), g.2))
    <$> solveMazeBFS 10 example_maze 3 3
  = Some ([(0, 0); (0, 1); (1, 0); (1, 1); (2, 0); (2, 1); (2, 2)], Solved).
Proof. vm_compute. reflexivity. Qed.

(** With all walls standing the start is not reached. *)
Example solve_walled_grid : solveMazeBFS 3 walled_grid 1 2 = Some (walled_grid, NoSolution).
Proof. vm_compute. reflexivity. Qed.

(** No cells: the end cell is found invalid. *)
Example solve_no_rows : solveMazeBFS 1 walled_grid 0 2 = Some (walled_grid, InvalidEnd).
Proof. vm_compute. reflexivity. Qed.

(** ** Geometry of [getNeighbor] *)

Lemma land_1_mod x : Z.land x 1 = x mod 2.
Proof. change 1 with (Z.ones 1). rewrite Z.land_ones by lia. reflexivity. Qed.

Lemma to_int_small x : -2147483648 <= x < 2147483648 -> to_int x = x.
Proof. intros H. unfold to_int. rewrite Z.mod_small; lia. Qed.

Lemma to_int_big x : 2147483648 <= x < 4294967296 -> to_int x = x - 4294967296.
Proof.
  intros H. unfold to_int.
  replace (x + 2147483648) with (x - 2147483648 + 1 * 4294967296) by lia.
  rewrite Z.mod_add by lia. rewrite Z.mod_small; lia.
Qed.

Lemma to_int_range x : -2147483648 <= to_int x < 2147483648.
Proof. unfold to_int. pose proof (Z.mod_pos_bound (x + 2147483648) 4294967296). lia. Qed.

Lemma to_u32_small x : 0 <= x < 4294967296 -> to_u32 x = x.
Proof. intros H. unfold to_u32. rewrite Z.mod_small; lia. Qed.

Lemma elem_of_directions d :
  d ∈ directions <->
  d = WALL_UP \/ d = WALL_DOWN \/ d = WALL_UP_LEFT \/ d = WALL_UP_RIGHT \/
  d = WALL_DOWN_LEFT \/ d = WALL_DOWN_RIGHT.
Proof.
  unfold directions. rewrite !elem_of_cons, elem_of_nil. tauto.
Qed.

Ltac dir_cases H :=
  apply elem_of_directions in H;
  destruct H as [-> | [-> | [-> | [-> | [-> | ->]]]]].

Ltac dir_in := apply elem_of_directions; cbv; auto 10.

(** With dimensions that fit in [int], [getNeighbor] is the table look-up
    followed by the bounds test. *)
Lemma getNeighbor_small r c d nR nC :
  0 <= r < nR -> 0 <= c < nC -> nR < 2147483648 -> nC < 2147483648 ->
  getNeighbor r c d nR nC = hex_neighbor nR nC (r, c) d.
Proof.
  intros Hr Hc HnR HnC.
  assert (Hm : 0 <= c mod 2 < 2) by (apply Z.mod_pos_bound; lia).
  unfold getNeighbor, hex_neighbor, hex_offset; cbn [fst snd].
  rewrite (to_int_small r), (to_int_small c), (to_int_small nR), (to_int_small nC) by lia.
  rewrite land_1_mod.
  repeat match goal with
  | |- context [if ?d =? ?w then _ else _] => destruct (d =? w)
  end; try reflexivity;
  rewrite ?to_int_small by lia;
  match goal with
  | |- context [(0 <=? ?x) && (?x <? nR) && (0 <=? ?y) && (?y <? nC)] =>
      first [ replace (r + -1) with x by lia | replace (r + 1) with x by lia
            | replace (r + (c mod 2 - 1)) with x by lia | replace (r + c mod 2) with x by lia ];
      first [ replace (c + 0) with y by lia | replace (c + 1) with y by lia
            | replace (c + -1) with y by lia ];
      destruct ((0 <=? x) && (x <? nR) && (0 <=? y) && (y <? nC)) eqn:E; [|reflexivity];
      rewrite !andb_true_iff in E; destruct E as [[[E1 E2] E3] E4];
      apply Z.leb_le in E1, E3; apply Z.ltb_lt in E2, E4;
      rewrite !to_u32_small by lia; reflexivity
  end.
Qed.

(** With a dimension that does not fit in [int], the bounds test can never
    succeed. *)
Lemma getNeighbor_big r c d nR nC :
  0 <= nR < 4294967296 -> 0 <= nC < 4294967296 ->
  2147483648 <= nR \/ 2147483648 <= nC ->
  getNeighbor r c d nR nC = None.
Proof.
  intros HnR HnC Hbig. unfold getNeighbor.
  match goal with |- match ?m with _ => _ end = _ => destruct m as [[tR tC]|] end;
    [|reflexivity].
  destruct (_ && _) eqn:E; [|reflexivity].
  rewrite !andb_true_iff in E; destruct E as [[[E1 E2] E3] E4];
  apply Z.leb_le in E1, E3; apply Z.ltb_lt in E2, E4.
  destruct Hbig as [H|H].
  - rewrite (to_int_big nR) in E2 by lia. lia.
  - rewrite (to_int_big nC) in E4 by lia. lia.
Qed.

Lemma neighbor_small nR nC a d :
  in_grid nR nC a -> nR < 2147483648 -> nC < 2147483648 ->
  neighbor nR nC a d = hex_neighbor nR nC a d.
Proof.
  destruct a as [r c]. intros [Hr Hc] HnR HnC. cbn in Hr, Hc.
  unfold neighbor. cbn [fst snd]. apply getNeighbor_small; assumption.
Qed.

(** *** The opposite direction *)

Lemma getOppositeWall_directions d : d ∈ directions -> getOppositeWall d ∈ directions.
Proof. intros H. dir_cases H; dir_in. Qed.

Lemma getOppositeWall_involutive d :
  d ∈ directions -> getOppositeWall (getOppositeWall d) = d.
Proof. intros H. dir_cases H; reflexivity. Qed.

Lemma getOppositeWall_neq d : d ∈ directions -> getOppositeWall d <> d.
Proof. intros H. dir_cases H; vm_compute; discriminate. Qed.

(** *** The table *)

Lemma parity_succ c : (c + 1) mod 2 = 1 - c mod 2.
Proof. lia. Qed.

Lemma parity_pred c : (c - 1) mod 2 = 1 - c mod 2.
Proof. lia. Qed.

Lemma hex_neighbor_Some nR nC a d b :
  hex_neighbor nR nC a d = Some b <->
  exists dr dc, hex_offset a.2 d = Some (dr, dc) /\
    b = (a.1 + dr, a.2 + dc) /\ in_grid nR nC b.
Proof.
  unfold hex_neighbor, in_grid. split.
  - destruct (hex_offset a.2 d) as [[dr dc]|]; [|discriminate].
    destruct (_ && _) eqn:E; [|discriminate].
    rewrite !andb_true_iff in E; destruct E as [[[E1 E2] E3] E4];
    apply Z.leb_le in E1, E3; apply Z.ltb_lt in E2, E4.
    intros [= <-]. exists dr, dc. cbn. auto with lia.
  - intros (dr & dc & -> & -> & [H1 H2]). cbn in H1, H2.
    replace ((0 <=? a.1 + dr) && (a.1 + dr <? nR) && (0 <=? a.2 + dc) && (a.2 + dc <? nC))
      with true; [reflexivity|].
    symmetry. rewrite !andb_true_iff, !Z.leb_le, !Z.ltb_lt. lia.
Qed.

Lemma hex_offset_Some c d dr dc :
  hex_offset c d = Some (dr, dc) ->
  d ∈ directions /\ (dc = 0 \/ dc = 1 \/ dc = -1) /\ -1 <= dr <= 1.
Proof.
  assert (Hm : 0 <= c mod 2 < 2) by (apply Z.mod_pos_bound; lia).
  unfold hex_offset.
  repeat match goal with
  | |- context [if ?d =? ?w then _ else _] =>
      destruct (Z.eqb_spec d w) as [->|?]
  end; intros E; [injection E as <- <-; (split; [dir_in | lia]) .. | discriminate E].
Qed.

Lemma hex_offset_directions c d : d ∈ directions -> is_Some (hex_offset c d).
Proof. intros H. dir_cases H; cbn; eauto. Qed.

(** The offset of the opposite direction, taken at the neighbour's column,
    undoes the offset. *)
Lemma hex_offset_opposite c d dr dc :
  hex_offset c d = Some (dr, dc) ->
  hex_offset (c + dc) (getOppositeWall d) = Some (- dr, - dc).
Proof.
  intros H. destruct (hex_offset_Some _ _ _ _ H) as (Hd & _ & _).
  assert (Hm : c mod 2 = 0 \/ c mod 2 = 1) by lia.
  dir_cases Hd; cbn in H; injection H as <- <-; cbn;
    rewrite ?Z.add_0_r, ?parity_succ;
    try change (c + -1) with (c - 1); rewrite ?parity_pred;
    f_equal; f_equal; lia.
Qed.

Lemma hex_neighbor_opposite nR nC a d b :
  in_grid nR nC a -> hex_neighbor nR nC a d = Some b ->
  hex_neighbor nR nC b (getOppositeWall d) = Some a.
Proof.
  intros Ha H. apply hex_neighbor_Some in H as (dr & dc & Ho & -> & Hb).
  apply hex_neighbor_Some. exists (- dr), (- dc). cbn [fst snd].
  split; [by apply hex_offset_opposite|].
  split; [destruct a; cbn; f_equal; lia | assumption].
Qed.

Lemma hex_neighbor_in_grid nR nC a d b :
  hex_neighbor nR nC a d = Some b -> in_grid nR nC b.
Proof. intros H. apply hex_neighbor_Some in H as (dr & dc & Ho & -> & Hb). done. Qed.

Lemma hex_neighbor_directions nR nC a d b :
  hex_neighbor nR nC a d = Some b -> d ∈ directions.
Proof.
  intros H. apply hex_neighbor_Some in H as (dr & dc & Ho & -> & Hb).
  by apply hex_offset_Some in Ho as (? & _).
Qed.

(** Distinct directions lead to distinct cells, and never back to the cell
    itself. *)
Lemma hex_offset_inj c d1 d2 o :
  hex_offset c d1 = Some o -> hex_offset c d2 = Some o -> d1 = d2.
Proof.
  destruct o as [dr dc]. intros H1 H2.
  destruct (hex_offset_Some _ _ _ _ H1) as (Hd1 & _ & _).
  destruct (hex_offset_Some _ _ _ _ H2) as (Hd2 & _ & _).
  assert (Hm : c mod 2 = 0 \/ c mod 2 = 1) by lia.
  dir_cases Hd1; dir_cases Hd2; try reflexivity;
    cbn in H1, H2; injection H1 as <- <-; injection H2; intros; lia.
Qed.

Lemma hex_neighbor_inj nR nC a d1 d2 b :
  hex_neighbor nR nC a d1 = Some b -> hex_neighbor nR nC a d2 = Some b -> d1 = d2.
Proof.
  intros H1 H2.
  apply hex_neighbor_Some in H1 as (dr1 & dc1 & Ho1 & -> & _).
  apply hex_neighbor_Some in H2 as (dr2 & dc2 & Ho2 & [= E1 E2] & _).
  apply (hex_offset_inj a.2 d1 d2 (dr1, dc1)); [assumption|].
  rewrite Ho2. f_equal. f_equal; lia.
Qed.

Lemma hex_neighbor_irrefl nR nC a d : hex_neighbor nR nC a d <> Some a.
Proof.
  intros H. apply hex_neighbor_Some in H as (dr & dc & Ho & E & _).
  destruct a as [r c]. cbn in *. injection E as E1 E2.
  assert (Hm : c mod 2 = 0 \/ c mod 2 = 1) by lia.
  destruct (hex_offset_Some _ _ _ _ Ho) as (Hd & _ & _).
  dir_cases Hd; cbn in Ho; injection Ho as <- <-; lia.
Qed.

(** *** Resolution and its inverse, for every 32-bit dimension *)

Lemma getNeighbor_undo r c d nR nC r2 c2 :
  0 <= nR < 4294967296 -> 0 <= nC < 4294967296 ->
  0 <= r < nR -> 0 <= c < nC ->
  getNeighbor r c d nR nC = Some (r2, c2) ->
  getNeighbor r2 c2 (getOppositeWall d) nR nC = Some (r, c).
Proof.
  intros HnR HnC Hr Hc H.
  destruct (decide (2147483648 <= nR \/ 2147483648 <= nC)) as [Hbig|Hsmall].
  - rewrite getNeighbor_big in H by assumption. discriminate.
  - rewrite getNeighbor_small in H by lia.
    pose proof (hex_neighbor_in_grid _ _ _ _ _ H) as [Hr2 Hc2]. cbn in Hr2, Hc2.
    rewrite getNeighbor_small by lia.
    apply (hex_neighbor_opposite nR nC (r, c)); [split; assumption | assumption].
Qed.

(** *** The full grid is connected *)

Ltac hex_step :=
  split; [reflexivity | split; [f_equal; lia | split; cbn; lia]].

(** Every cell is linked to the corner (0,0): up along its column, then
    left along row 0, where an odd column steps up-left and an even column
    steps down-left. *)
Lemma hex_towards_origin nR nC a :
  in_grid nR nC a -> a <> (0, 0) ->
  exists d b, hex_neighbor nR nC a d = Some b /\ in_grid nR nC b /\
    (Z.to_nat (b.1 + b.2) < Z.to_nat (a.1 + a.2))%nat.
Proof.
  destruct a as [r c]. intros [Hr Hc] Hne. cbn in Hr, Hc.
  assert (Hm : c mod 2 = 0 \/ c mod 2 = 1) by lia.
  assert (Hcase : 0 < r \/ (r = 0 /\ 0 < c)).
  { destruct (decide (r = 0)) as [->|]; [|lia].
    destruct (decide (c = 0)) as [->|]; [congruence | lia]. }
  destruct Hcase as [Hpos | [-> Hpos]].
  - exists WALL_UP, (r - 1, c).
    split; [apply hex_neighbor_Some; exists (-1), 0; cbn; hex_step|].
    split; [split; cbn; lia | cbn; lia].
  - destruct Hm as [Hm|Hm].
    + exists WALL_DOWN_LEFT, (0, c - 1).
      split; [apply hex_neighbor_Some; exists (c mod 2), (-1); cbn; hex_step|].
      split; [split; cbn; lia | cbn; lia].
    + exists WALL_UP_LEFT, (0, c - 1).
      split; [apply hex_neighbor_Some; exists (c mod 2 - 1), (-1); cbn; hex_step|].
      split; [split; cbn; lia | cbn; lia].
Qed.

Lemma hex_grid_connected_ind nR nC (P : cell -> Prop) :
  P (0, 0) ->
  (forall a d b, in_grid nR nC a -> in_grid nR nC b ->
     hex_neighbor nR nC a d = Some b -> P b -> P a) ->
  forall a, in_grid nR nC a -> P a.
Proof.
  intros H0 Hstep a.
  remember (Z.to_nat (a.1 + a.2)) as n eqn:Hn.
  revert a Hn. induction (lt_wf n) as [n _ IH]. intros a -> Ha.
  destruct (decide (a = (0, 0))) as [->|Hne]; [assumption|].
  destruct (hex_towards_origin nR nC a Ha Hne) as (d & b & Hnb & Hb & Hlt).
  apply (Hstep a d b Ha Hb Hnb). by apply (IH _ Hlt b).
Qed.

(** ** Arrays *)

Lemma arr_ok_iff r c : arr_ok r c = true <-> 0 <= r < MAX_ROWS /\ 0 <= c < MAX_COLS.
Proof. unfold arr_ok. rewrite !andb_true_iff, !Z.leb_le, !Z.ltb_lt. tauto. Qed.

Lemma arr_index_inj r c r' c' :
  arr_ok r c = true -> arr_ok r' c' = true ->
  arr_index r c = arr_index r' c' -> r = r' /\ c = c'.
Proof.
  rewrite !arr_ok_iff. unfold arr_index, MAX_ROWS, MAX_COLS. lia.
Qed.

Lemma arr_index_lt r c :
  arr_ok r c = true -> (arr_index r c < Z.to_nat (MAX_ROWS * MAX_COLS))%nat.
Proof. rewrite arr_ok_iff. unfold arr_index, MAX_ROWS, MAX_COLS. lia. Qed.

Section arr.
Context {A : Type}.
Implicit Types a : list A.

Lemma arr_get_is_Some a r c :
  arr_wf a -> arr_ok r c = true -> is_Some (arr_get a r c).
Proof.
  intros Hwf Hok. unfold arr_get. rewrite Hok.
  apply lookup_lt_is_Some. rewrite Hwf. by apply arr_index_lt.
Qed.

Lemma arr_get_ok a r c v : arr_get a r c = Some v -> arr_ok r c = true.
Proof. unfold arr_get. by destruct (arr_ok r c). Qed.

Lemma arr_set_is_Some a r c v :
  arr_wf a -> arr_ok r c = true -> arr_set a r c v = Some (<[arr_index r c := v]> a).
Proof.
  intros Hwf Hok. unfold arr_set.
  pose proof (arr_index_lt r c Hok) as Hlt. rewrite <- Hwf in Hlt.
  apply Nat.ltb_lt in Hlt. by rewrite Hok, Hlt.
Qed.

Lemma arr_set_Some a r c v a' :
  arr_set a r c v = Some a' ->
  arr_ok r c = true /\ (arr_index r c < length a)%nat /\ a' = <[arr_index r c := v]> a.
Proof.
  unfold arr_set. destruct (arr_ok r c); [|discriminate].
  destruct (Nat.ltb_spec (arr_index r c) (length a)); [|discriminate]. cbn.
  intros [= <-]. auto.
Qed.

Lemma arr_set_wf a r c v a' : arr_set a r c v = Some a' -> arr_wf a -> arr_wf a'.
Proof.
  intros (_ & _ & ->)%arr_set_Some. unfold arr_wf. by rewrite length_insert.
Qed.

Lemma arr_set_length a r c v a' : arr_set a r c v = Some a' -> length a' = length a.
Proof. intros (_ & _ & ->)%arr_set_Some. by rewrite length_insert. Qed.

Lemma arr_get_set_eq a r c v a' :
  arr_set a r c v = Some a' -> arr_get a' r c = Some v.
Proof.
  intros (Hok & Hlt & ->)%arr_set_Some. unfold arr_get. rewrite Hok.
  by apply list_lookup_insert_eq.
Qed.

Lemma arr_get_set_ne a r c v a' r' c' :
  arr_set a r c v = Some a' -> (r, c) <> (r', c') ->
  arr_get a' r' c' = arr_get a r' c'.
Proof.
  intros (Hok & Hlt & ->)%arr_set_Some Hne. unfold arr_get.
  destruct (arr_ok r' c') eqn:Hok'; [|reflexivity].
  apply list_lookup_insert_ne. intros E.
  apply arr_index_inj in E as [-> ->]; [congruence | assumption..].
Qed.

Lemma arr_get_set a r c v a' r' c' :
  arr_set a r c v = Some a' ->
  arr_get a' r' c' = if decide ((r, c) = (r', c')) then Some v else arr_get a r' c'.
Proof.
  intros H. case_decide as E.
  - injection E as <- <-. by eapply arr_get_set_eq.
  - by eapply arr_get_set_ne.
Qed.
End arr.

Lemma in_grid_arr_ok nR nC a :
  nR <= MAX_ROWS -> nC <= MAX_COLS -> in_grid nR nC a -> arr_ok a.1 a.2 = true.
Proof. intros HnR HnC [Hr Hc]. apply arr_ok_iff. lia. Qed.

(** ** foldM *)

Lemma foldM_app {A B} (f : B -> A -> option B) b l1 l2 :
  foldM f b (l1 ++ l2) = foldM f b l1 ≫= fun b' => foldM f b' l2.
Proof.
  revert b. induction l1 as [|x l1 IH]; intros b; cbn; [reflexivity|].
  destruct (f b x) as [b'|]; cbn; [apply IH | reflexivity].
Qed.

(** An invariant kept by every step is kept by the loop, which then does
    not fail. *)
Lemma foldM_invariant {A B} (I : B -> Prop) (f : B -> A -> option B) l b :
  I b ->
  (forall b x, x ∈ l -> I b -> exists b', f b x = Some b' /\ I b') ->
  exists b', foldM f b l = Some b' /\ I b'.
Proof.
  revert b. induction l as [|x l IH]; intros b Hb Hstep; cbn.
  - eauto.
  - destruct (Hstep b x) as (b1 & -> & Hb1); [left | assumption |]. cbn.
    apply IH; [assumption|]. intros b2 y Hy. apply Hstep. by right.
Qed.

(** ** The cells of the grid *)

Lemma elem_of_cells nR nC a : a ∈ cells nR nC <-> in_grid nR nC a.
Proof.
  unfold cells, in_grid. rewrite list_elem_of_bind. split.
  - intros (r & (c & ->%list_elem_of_singleton & Hc%elem_of_seqZ)%list_elem_of_bind
              & Hr%elem_of_seqZ). cbn. lia.
  - intros [Hr Hc]. exists a.1. split; [|apply elem_of_seqZ; lia].
    apply list_elem_of_bind. exists a.2. split; [|apply elem_of_seqZ; lia].
    destruct a. cbn. by apply list_elem_of_singleton.
Qed.

Lemma NoDup_cells nR nC : NoDup (cells nR nC).
Proof.
  unfold cells. apply NoDup_bind; [| |apply NoDup_seqZ].
  - intros r1 r2 a _ _
      (c1 & ->%list_elem_of_singleton & _)%list_elem_of_bind
      (c2 & [= -> _]%list_elem_of_singleton & _)%list_elem_of_bind. reflexivity.
  - intros r _. apply NoDup_bind; [| |apply NoDup_seqZ].
    + intros c1 c2 a _ _ ->%list_elem_of_singleton [= ->]%list_elem_of_singleton.
      reflexivity.
    + intros c _. apply NoDup_singleton.
Qed.

(** ** Bits of a cell byte *)

Lemma land_pow2_testbit v k :
  0 <= k -> Z.land v (2 ^ k) = 0 <-> Z.testbit v k = false.
Proof.
  intros Hk. split.
  - intros H. apply (f_equal (fun x => Z.testbit x k)) in H.
    rewrite Z.land_spec, Z.pow2_bits_true, Z.bits_0, andb_true_r in H by lia. exact H.
  - intros H. apply Z.bits_inj'. intros j Hj.
    rewrite Z.land_spec, Z.bits_0, Z.pow2_bits_eqb by lia.
    destruct (Z.eqb_spec k j) as [->|]; [by rewrite H | apply andb_false_r].
Qed.

Lemma testbit_to_u8 v j :
  0 <= j -> Z.testbit (to_u8 v) j = (j <? 8) && Z.testbit v j.
Proof.
  intros Hj. unfold to_u8. change 256 with (2 ^ 8).
  destruct (Z.ltb_spec j 8).
  - by rewrite Z.mod_pow2_bits_low by lia.
  - by rewrite Z.mod_pow2_bits_high by lia.
Qed.

Lemma testbit_clear_bit v k j :
  0 <= k -> 0 <= j ->
  Z.testbit (clear_bit v (2 ^ k)) j = (j <? 8) && Z.testbit v j && negb (j =? k).
Proof.
  intros Hk Hj. unfold clear_bit.
  rewrite testbit_to_u8, Z.land_spec, Z.lnot_spec, Z.pow2_bits_eqb by lia.
  rewrite (Z.eqb_sym k j). by rewrite andb_assoc.
Qed.

Lemma testbit_set_bit v k j :
  0 <= k -> 0 <= j ->
  Z.testbit (set_bit v (2 ^ k)) j = (j <? 8) && (Z.testbit v j || (j =? k)).
Proof.
  intros Hk Hj. unfold set_bit.
  rewrite testbit_to_u8, Z.lor_spec, Z.pow2_bits_eqb by lia.
  by rewrite (Z.eqb_sym k j).
Qed.

(** The bit position of a direction. *)
Lemma directions_pow2 d : d ∈ directions -> exists k, 0 <= k < 6 /\ d = 2 ^ k.
Proof.
  intros H. dir_cases H;
    [exists 0 | exists 3 | exists 5 | exists 1 | exists 4 | exists 2]; by split.
Qed.

Lemma VISITED_pow2 : VISITED = 2 ^ 6.
Proof. reflexivity. Qed.

(** Clearing a bit clears it and leaves the tests of the other bits alone. *)
Lemma land_clear_bit_same v k : 0 <= k < 8 -> Z.land (clear_bit v (2 ^ k)) (2 ^ k) = 0.
Proof.
  intros Hk. apply land_pow2_testbit; [lia|].
  rewrite testbit_clear_bit by lia. rewrite Z.eqb_refl. apply andb_false_r.
Qed.

Lemma land_clear_bit_other v k j :
  0 <= k -> 0 <= j < 8 -> j <> k ->
  Z.land (clear_bit v (2 ^ k)) (2 ^ j) = 0 <-> Z.land v (2 ^ j) = 0.
Proof.
  intros Hk Hj Hne. rewrite !land_pow2_testbit by lia.
  rewrite testbit_clear_bit by lia.
  destruct (Z.ltb_spec j 8); [|lia]. destruct (Z.eqb_spec j k); [lia|].
  cbn. by rewrite andb_true_r.
Qed.

Lemma land_set_bit_same v k : 0 <= k < 8 -> Z.land (set_bit v (2 ^ k)) (2 ^ k) <> 0.
Proof.
  intros Hk. rewrite land_pow2_testbit by lia.
  rewrite testbit_set_bit by lia. rewrite Z.eqb_refl, orb_true_r.
  destruct (Z.ltb_spec k 8); [cbn; congruence | lia].
Qed.

Lemma land_set_bit_other v k j :
  0 <= k -> 0 <= j < 8 -> j <> k ->
  Z.land (set_bit v (2 ^ k)) (2 ^ j) = 0 <-> Z.land v (2 ^ j) = 0.
Proof.
  intros Hk Hj Hne. rewrite !land_pow2_testbit by lia.
  rewrite testbit_set_bit by lia.
  destruct (Z.ltb_spec j 8); [|lia]. destruct (Z.eqb_spec j k); [lia|].
  cbn. by rewrite orb_false_r.
Qed.

Lemma testbit_mask j : 0 <= j -> Z.testbit NOT_VISITED_MASK j = (j <? 8) && negb (j =? 6).
Proof.
  intros Hj. destruct (Z.ltb_spec j 8).
  - assert (j = 0 \/ j = 1 \/ j = 2 \/ j = 3 \/ j = 4 \/ j = 5 \/ j = 6 \/ j = 7)
      as [->|[->|[->|[->|[->|[->|[->| ->]]]]]]] by lia; reflexivity.
  - apply Z.bits_above_log2; [done|]. change (Z.log2 NOT_VISITED_MASK) with 7. lia.
Qed.

Lemma land_mask_clear_VISITED v :
  Z.land (clear_bit v VISITED) NOT_VISITED_MASK = Z.land v NOT_VISITED_MASK.
Proof.
  apply Z.bits_inj'. intros j Hj. rewrite !Z.land_spec, VISITED_pow2.
  rewrite testbit_clear_bit, testbit_mask by lia.
  destruct (j <? 8), (j =? 6), (Z.testbit v j); reflexivity.
Qed.

Lemma land_mask_set_VISITED v :
  Z.land (set_bit v VISITED) NOT_VISITED_MASK = Z.land v NOT_VISITED_MASK.
Proof.
  apply Z.bits_inj'. intros j Hj. rewrite !Z.land_spec, VISITED_pow2.
  rewrite testbit_set_bit, testbit_mask by lia.
  destruct (j <? 8), (j =? 6), (Z.testbit v j); reflexivity.
Qed.

Lemma land_mask_direction v v' d :
  d ∈ directions ->
  Z.land v NOT_VISITED_MASK = Z.land v' NOT_VISITED_MASK ->
  Z.land v d = Z.land v' d.
Proof.
  intros (k & Hk & ->)%directions_pow2 H.
  apply Z.bits_inj'. intros j Hj. rewrite !Z.land_spec, Z.pow2_bits_eqb by lia.
  destruct (Z.eqb_spec k j) as [->|]; [|by rewrite !andb_false_r].
  rewrite !andb_true_r.
  apply (f_equal (fun x => Z.testbit x j)) in H.
  rewrite !Z.land_spec, testbit_mask in H by lia.
  destruct (Z.ltb_spec j 8); [|lia]. destruct (Z.eqb_spec j 6); [lia|].
  by rewrite !andb_true_r in H.
Qed.

(** ** The enumeration of the internal walls *)

Lemma elem_of_candidate nR nC r c d w :
  w ∈ candidate nR nC r c d <->
  w = mkWall r c d /\ is_Some (getNeighbor r c d nR nC).
Proof.
  unfold candidate. destruct (getNeighbor r c d nR nC) as [b|].
  - rewrite list_elem_of_singleton. split; [eauto | tauto].
  - rewrite elem_of_nil. split; [tauto | intros [_ []]; discriminate].
Qed.

Lemma NoDup_candidate nR nC r c d : NoDup (candidate nR nC r c d).
Proof.
  unfold candidate. destruct (getNeighbor _ _ _ _ _);
    [apply NoDup_singleton | apply NoDup_nil_2].
Qed.

Lemma elem_of_forward d :
  d ∈ forward_directions <-> d = WALL_DOWN \/ d = WALL_UP_RIGHT \/ d = WALL_DOWN_RIGHT.
Proof. unfold forward_directions. rewrite !elem_of_cons, elem_of_nil. tauto. Qed.

Lemma forward_directions_sub d : d ∈ forward_directions -> d ∈ directions.
Proof. rewrite elem_of_forward. intros [->|[->| ->]]; dir_in. Qed.

(** Of a direction and its opposite, exactly one is enumerated. *)
Lemma forward_or_opposite d :
  d ∈ directions ->
  (d ∈ forward_directions /\ ~ getOppositeWall d ∈ forward_directions) \/
  (~ d ∈ forward_directions /\ getOppositeWall d ∈ forward_directions).
Proof.
  intros H. rewrite !elem_of_forward.
  dir_cases H; cbv; [right|left|right|left|right|left];
    (split; [|]; try (intros [|[|]]; discriminate); auto).
Qed.

Lemma elem_of_cell_walls nR nC r c w :
  w ∈ candidate nR nC r c WALL_DOWN ++ candidate nR nC r c WALL_UP_RIGHT ++
      candidate nR nC r c WALL_DOWN_RIGHT <->
  wall_r w = r /\ wall_c w = c /\ wall_direction w ∈ forward_directions /\
  is_Some (getNeighbor r c (wall_direction w) nR nC).
Proof.
  rewrite !elem_of_app, !elem_of_candidate, elem_of_forward. split.
  - intros [[-> H]|[[-> H]|[-> H]]]; cbn; auto 10.
  - destruct w as [r' c' d]. cbn. intros (-> & -> & [->|[->| ->]] & H); auto.
Qed.

Lemma elem_of_internalWalls nR nC w :
  w ∈ internalWalls nR nC <->
  in_grid nR nC (wall_r w, wall_c w) /\ wall_direction w ∈ forward_directions /\
  is_Some (getNeighbor (wall_r w) (wall_c w) (wall_direction w) nR nC).
Proof.
  unfold internalWalls, in_grid. cbn [fst snd]. rewrite list_elem_of_bind. split.
  - intros (r & (c & Hw%elem_of_cell_walls & Hc%elem_of_seqZ)%list_elem_of_bind
              & Hr%elem_of_seqZ).
    destruct Hw as (-> & -> & Hd & Hn). repeat split; try lia; assumption.
  - intros ([Hr Hc] & Hd & Hn). exists (wall_r w).
    split; [|apply elem_of_seqZ; lia].
    apply list_elem_of_bind. exists (wall_c w). split; [|apply elem_of_seqZ; lia].
    apply elem_of_cell_walls. auto.
Qed.

Lemma NoDup_cell_walls nR nC r c :
  NoDup (candidate nR nC r c WALL_DOWN ++ candidate nR nC r c WALL_UP_RIGHT ++
         candidate nR nC r c WALL_DOWN_RIGHT).
Proof.
  apply NoDup_app. split; [apply NoDup_candidate|]. split.
  - intros w [-> _]%elem_of_candidate
      [[[=] _]%elem_of_candidate | [[=] _]%elem_of_candidate]%elem_of_app.
  - apply NoDup_app. split; [apply NoDup_candidate|].
    split; [|apply NoDup_candidate].
    intros w [-> _]%elem_of_candidate [[=] _]%elem_of_candidate.
Qed.

Lemma NoDup_internalWalls nR nC : NoDup (internalWalls nR nC).
Proof.
  unfold internalWalls. apply NoDup_bind; [| |apply NoDup_seqZ].
  - intros r1 r2 w _ _
      (c1 & (<- & _)%elem_of_cell_walls & _)%list_elem_of_bind
      (c2 & (<- & _)%elem_of_cell_walls & _)%list_elem_of_bind. reflexivity.
  - intros r _. apply NoDup_bind; [| |apply NoDup_seqZ].
    + intros c1 c2 w _ _ (_ & <- & _)%elem_of_cell_walls (_ & <- & _)%elem_of_cell_walls.
      reflexivity.
    + intros c _. apply NoDup_cell_walls.
Qed.

(** A duplicate-free list in which exactly one element satisfies [P]. *)
Lemma filter_unique {A} (P : A -> Prop) `{!forall x, Decision (P x)} (l : list A) x0 :
  NoDup l -> x0 ∈ l -> P x0 -> (forall x, x ∈ l -> P x -> x = x0) ->
  filter P l = [x0].
Proof.
  intros Hnd Hin HP Huniq.
  assert (Hnd' : NoDup (filter P l)) by by apply NoDup_filter.
  assert (Hin' : x0 ∈ filter P l) by by apply list_elem_of_filter.
  assert (Hall : forall x, x ∈ filter P l -> x = x0).
  { intros x [? ?]%list_elem_of_filter. by apply Huniq. }
  destruct (filter P l) as [|x [|y t]].
  - by apply elem_of_nil in Hin'.
  - f_equal. apply Hall. left.
  - exfalso. apply NoDup_cons in Hnd' as [Hx _]. apply Hx.
    rewrite (Hall x) by left. rewrite (Hall y) by (right; left). left.
Qed.

(** The candidate that denotes a given edge. *)
Lemma denotes_unique nR nC a d b :
  nR < 2147483648 -> nC < 2147483648 ->
  in_grid nR nC a -> d ∈ directions -> hex_neighbor nR nC a d = Some b ->
  exists w0, w0 ∈ internalWalls nR nC /\ denotes nR nC a b w0 /\
    (w0 = mkWall a.1 a.2 d \/ w0 = mkWall b.1 b.2 (getOppositeWall d)) /\
    forall w, w ∈ internalWalls nR nC -> denotes nR nC a b w -> w = w0.
Proof.
  intros HnR HnC Ha Hd Hn.
  pose proof (hex_neighbor_in_grid _ _ _ _ _ Hn) as Hb.
  pose proof (hex_neighbor_opposite _ _ _ _ _ Ha Hn) as Hn'.
  assert (Hwa : wall_cells nR nC (mkWall a.1 a.2 d) = Some (a, b)).
  { unfold wall_cells. cbn [wall_r wall_c wall_direction].
    rewrite <- surjective_pairing, neighbor_small, Hn by assumption. reflexivity. }
  assert (Hwb : wall_cells nR nC (mkWall b.1 b.2 (getOppositeWall d)) = Some (b, a)).
  { unfold wall_cells. cbn [wall_r wall_c wall_direction].
    rewrite <- surjective_pairing, neighbor_small, Hn' by assumption. reflexivity. }
  assert (Huniq : forall w, w ∈ internalWalls nR nC -> denotes nR nC a b w ->
            (w = mkWall a.1 a.2 d /\ d ∈ forward_directions) \/
            (w = mkWall b.1 b.2 (getOppositeWall d) /\
             getOppositeWall d ∈ forward_directions)).
  { intros [r c dw] (Hg & Hdw & _)%elem_of_internalWalls Hden.
    cbn [wall_r wall_c wall_direction] in *.
    unfold denotes, wall_cells in Hden. cbn [wall_r wall_c wall_direction] in Hden.
    rewrite neighbor_small in Hden by assumption.
    destruct (hex_neighbor nR nC (r, c) dw) as [x|] eqn:Hx;
      cbn in Hden; [|destruct Hden; discriminate].
    destruct Hden as [[= <- ->]|[= <- ->]].
    - left. cbn. pose proof (hex_neighbor_inj _ _ _ _ _ _ Hx Hn) as ->. auto.
    - right. cbn. pose proof (hex_neighbor_inj _ _ _ _ _ _ Hx Hn') as ->. auto. }
  destruct (forward_or_opposite d Hd) as [[Hf Hnf]|[Hnf Hf]].
  - exists (mkWall a.1 a.2 d). split; [|split; [by left|split; [by left|]]].
    + apply elem_of_internalWalls. cbn [wall_r wall_c wall_direction].
      rewrite <- surjective_pairing. split; [assumption|split; [assumption|]].
      rewrite (getNeighbor_small a.1 a.2), <- surjective_pairing, Hn
        by (destruct Ha; assumption). eauto.
    + intros w Hw Hden. destruct (Huniq w Hw Hden) as [[-> _]|[_ ?]]; [reflexivity|tauto].
  - exists (mkWall b.1 b.2 (getOppositeWall d)).
    split; [|split; [by right|split; [by right|]]].
    + apply elem_of_internalWalls. cbn [wall_r wall_c wall_direction].
      rewrite <- surjective_pairing. split; [assumption|split; [assumption|]].
      rewrite (getNeighbor_small b.1 b.2), <- surjective_pairing, Hn'
        by (destruct Hb; assumption). eauto.
    + intros w Hw Hden. destruct (Huniq w Hw Hden) as [[_ ?]|[-> _]]; [tauto|reflexivity].
Qed.

(** ** Vectors *)

Lemma vec_get_Some p i v : vec_get p i = Some v -> 0 <= i < Z.of_nat (length p).
Proof.
  unfold vec_get. destruct (Z.leb_spec 0 i); [|discriminate].
  intros Hl%lookup_lt_Some. lia.
Qed.

Lemma vec_get_is_Some p i : 0 <= i < Z.of_nat (length p) -> is_Some (vec_get p i).
Proof.
  intros Hi. unfold vec_get. destruct (Z.leb_spec 0 i); [|lia].
  apply lookup_lt_is_Some. lia.
Qed.

Lemma vec_set_is_Some p i v :
  0 <= i < Z.of_nat (length p) -> vec_set p i v = Some (<[Z.to_nat i := v]> p).
Proof.
  intros Hi. unfold vec_set.
  destruct (Z.leb_spec 0 i); [|lia].
  destruct (Nat.ltb_spec (Z.to_nat i) (length p)); [reflexivity|lia].
Qed.

Lemma vec_set_Some p i v p' :
  vec_set p i v = Some p' ->
  0 <= i < Z.of_nat (length p) /\ p' = <[Z.to_nat i := v]> p.
Proof.
  unfold vec_set. destruct (Z.leb_spec 0 i); [|discriminate].
  destruct (Nat.ltb_spec (Z.to_nat i) (length p)); [|discriminate].
  intros [= <-]. split; [lia | reflexivity].
Qed.

Lemma vec_set_length p i v p' : vec_set p i v = Some p' -> length p' = length p.
Proof. intros [_ ->]%vec_set_Some. apply length_insert. Qed.

Lemma vec_get_set_eq p i v p' : vec_set p i v = Some p' -> vec_get p' i = Some v.
Proof.
  intros [Hi ->]%vec_set_Some. unfold vec_get.
  destruct (Z.leb_spec 0 i); [|lia]. apply list_lookup_insert_eq. lia.
Qed.

Lemma vec_get_set_ne p i v p' j :
  vec_set p i v = Some p' -> i <> j -> vec_get p' j = vec_get p j.
Proof.
  intros [Hi ->]%vec_set_Some Hne. unfold vec_get.
  destruct (Z.leb_spec 0 j); [|reflexivity]. apply list_lookup_insert_ne. lia.
Qed.

Lemma vec_get_seqZ n i : 0 <= i < n -> vec_get (seqZ 0 n) i = Some i.
Proof.
  intros Hi. unfold vec_get. destruct (Z.leb_spec 0 i); [|lia].
  rewrite lookup_seqZ. split; lia.
Qed.

(** ** Chains of parent links *)

Section chains.
Context (p : list Z).

Lemma chain_det i l r l' r' : chain p i l r -> chain p i l' r' -> l = l' /\ r = r'.
Proof.
  intros H. revert l' r'.
  induction H as [i Hi | i j l r Hi Hne _ IH]; intros l' r' H';
    inversion H' as [i' Hi' | i' j' l'' r'' Hi' Hne' Hc']; subst.
  - auto.
  - congruence.
  - congruence.
  - assert (j' = j) as -> by congruence.
    destruct (IH _ _ Hc') as [-> ->]. auto.
Qed.

Lemma chain_head i l r : chain p i l r -> exists l', l = i :: l'.
Proof. destruct 1; eauto. Qed.

Lemma chain_range i l r x : chain p i l r -> x ∈ l -> 0 <= x < Z.of_nat (length p).
Proof.
  induction 1 as [i Hi | i j l r Hi Hne _ IH].
  - intros ->%list_elem_of_singleton. by eapply vec_get_Some.
  - intros [->|Hx]%elem_of_cons; [by eapply vec_get_Some | auto].
Qed.

Lemma chain_root_end i l r : chain p i l r -> vec_get p r = Some r.
Proof. induction 1; assumption. Qed.

(** From any node of the chain, the rest of the chain. *)
Lemma chain_suffix i l r x :
  chain p i l r -> x ∈ l ->
  exists l', chain p x l' r /\ (length l' <= length l)%nat.
Proof.
  induction 1 as [i Hi | i j l r Hi Hne Hc IH].
  - intros ->%list_elem_of_singleton. exists [i]. split; [by constructor | done].
  - intros [->|Hx]%elem_of_cons.
    + exists (i :: l). split; [by econstructor | done].
    + destruct (IH Hx) as (l' & Hl' & Hlen). exists l'. split; [done | cbn; lia].
Qed.

Lemma chain_NoDup i l r : chain p i l r -> NoDup l.
Proof.
  induction 1 as [i Hi | i j l r Hi Hne Hc IH].
  - apply NoDup_singleton.
  - apply NoDup_cons. split; [|assumption]. intros Hin.
    destruct (chain_suffix _ _ _ _ Hc Hin) as (l' & Hl' & Hlen).
    assert (Hc' : chain p i (i :: l) r) by by econstructor.
    destruct (chain_det _ _ _ _ _ Hl' Hc') as [-> _]. cbn in Hlen. lia.
Qed.

(** A chain passes each node once, so it is no longer than the vector. *)
Lemma chain_length i l r : chain p i l r -> (length l <= length p)%nat.
Proof.
  intros Hc.
  assert (Hnd : NoDup (Z.to_nat <$> l)).
  { apply NoDup_fmap_2_strong; [|by eapply chain_NoDup].
    intros x y Hx Hy E.
    pose proof (chain_range _ _ _ _ Hc Hx). pose proof (chain_range _ _ _ _ Hc Hy). lia. }
  assert (Hsub : Z.to_nat <$> l ⊆ seq 0 (length p)).
  { intros n (x & -> & Hx)%list_elem_of_fmap. apply elem_of_seq.
    pose proof (chain_range _ _ _ _ Hc Hx). lia. }
  pose proof (submseteq_length _ _ (NoDup_submseteq _ _ Hnd Hsub)) as Hlen.
  by rewrite length_fmap, length_seq in Hlen.
Qed.

Lemma root_of_det i r r' : root_of p i r -> root_of p i r' -> r = r'.
Proof. intros [l H] [l' H']. by destruct (chain_det _ _ _ _ _ H H'). Qed.

Lemma root_of_self i : is_root p i -> root_of p i i.
Proof. intros H. exists [i]. by constructor. Qed.

Lemma root_of_link i j r :
  vec_get p i = Some j -> j <> i -> root_of p j r -> root_of p i r.
Proof. intros Hi Hne [l H]. exists (i :: l). by econstructor. Qed.

Lemma root_of_is_root i r : root_of p i r -> is_root p r.
Proof. intros [l H]. by eapply chain_root_end. Qed.

Lemma root_of_root i r : root_of p i r -> root_of p r r.
Proof. intros H. by apply root_of_self, (root_of_is_root i). Qed.

Lemma root_of_range i r : root_of p i r -> 0 <= i < Z.of_nat (length p).
Proof.
  intros [l H]. destruct (chain_head _ _ _ H) as [l' ->].
  eapply chain_range; [exact H | left].
Qed.

Lemma root_of_ind' (P : Z -> Z -> Prop) :
  (forall i, is_root p i -> P i i) ->
  (forall i j r, vec_get p i = Some j -> j <> i -> root_of p j r -> P j r -> P i r) ->
  forall i r, root_of p i r -> P i r.
Proof.
  intros Hself Hlink i r [l H].
  induction H as [i Hi | i j l r Hi Hne Hc IH]; [by apply Hself|].
  apply (Hlink i j r); [assumption..| by exists l | assumption].
Qed.

Lemma is_root_root_of i r : is_root p i -> root_of p i r -> r = i.
Proof. intros Hi Hr. symmetry. by apply (root_of_det i); [apply root_of_self|]. Qed.

Lemma same_set_refl n i : dsu_wf n p -> 0 <= i < n -> same_set p i i.
Proof. intros [_ Hwf] Hi. destruct (Hwf i Hi) as [r Hr]. by exists r. Qed.

Lemma same_set_sym i j : same_set p i j -> same_set p j i.
Proof. intros (r & ? & ?). by exists r. Qed.

Lemma same_set_trans i j k : same_set p i j -> same_set p j k -> same_set p i k.
Proof.
  intros (r & Hi & Hj) (r' & Hj' & Hk).
  rewrite <- (root_of_det _ _ _ Hj Hj') in Hk. by exists r.
Qed.
End chains.

(** ** Path compression *)

Lemma is_root_compress p i r p' j :
  root_of p i r -> vec_set p i r = Some p' -> is_root p' j <-> is_root p j.
Proof.
  intros Hi Hset. unfold is_root. destruct (decide (i = j)) as [<-|Hne].
  - rewrite (vec_get_set_eq _ _ _ _ Hset). split.
    + intros [= ->]. by apply (root_of_is_root p i).
    + intros Hr. f_equal. by apply (is_root_root_of p).
  - by rewrite (vec_get_set_ne _ _ _ _ _ Hset Hne).
Qed.

(** Pointing [i] at its representative keeps every representative. *)
Lemma root_of_compress p i r p' :
  root_of p i r -> vec_set p i r = Some p' ->
  forall j r', root_of p j r' -> root_of p' j r'.
Proof.
  intros Hi Hset. apply root_of_ind'.
  - intros j Hj. apply root_of_self. by apply (is_root_compress p i r).
  - intros j k r' Hjk Hne Hk IH. destruct (decide (i = j)) as [<-|Hij].
    + assert (r' = r) as ->.
      { apply (root_of_det p i); [by eapply root_of_link | assumption]. }
      assert (Hr : is_root p r) by by apply (root_of_is_root p i).
      assert (r <> i) by (intros ->; unfold is_root in Hr; congruence).
      apply (root_of_link p' i r); [by eapply vec_get_set_eq | assumption |].
      apply root_of_self. by apply (is_root_compress p i r).
    + apply (root_of_link p' j k); [|assumption..].
      by rewrite (vec_get_set_ne _ _ _ _ _ Hset Hij).
Qed.

Lemma dsu_same_refl p : dsu_same p p.
Proof. by repeat split. Qed.

Lemma dsu_same_trans p1 p2 p3 : dsu_same p1 p2 -> dsu_same p2 p3 -> dsu_same p1 p3.
Proof.
  intros (Hl & Hr & Hi) (Hl' & Hr' & Hi'). split; [congruence|]. split.
  - intros j r H. by apply Hr', Hr.
  - intros j. by rewrite Hi', Hi.
Qed.

Lemma dsu_same_wf n p p' : dsu_same p p' -> dsu_wf n p -> dsu_wf n p'.
Proof.
  intros (Hl & Hr & _) [Hn Hwf]. split; [by rewrite Hl|].
  intros i Hi. destruct (Hwf i Hi) as [r H]. exists r. by apply Hr.
Qed.

Lemma dsu_same_root_of n p p' j r :
  dsu_same p p' -> dsu_wf n p -> root_of p' j r <-> root_of p j r.
Proof.
  intros (Hl & Hr & _) [Hn Hwf]. split; [|apply Hr].
  intros H. pose proof (root_of_range _ _ _ H) as Hj. rewrite Hl, Hn in Hj.
  destruct (Hwf j Hj) as [r0 H0].
  by rewrite (root_of_det _ _ _ _ H (Hr _ _ H0)).
Qed.

Lemma dsu_same_same_set n p p' i j :
  dsu_same p p' -> dsu_wf n p -> same_set p' i j <-> same_set p i j.
Proof.
  intros Hs Hwf. unfold same_set.
  by setoid_rewrite (dsu_same_root_of n p p' _ _ Hs Hwf).
Qed.

Lemma dsu_same_roots p p' : dsu_same p p' -> roots p' = roots p.
Proof.
  intros (Hl & _ & Hi). unfold roots. rewrite Hl. by apply list_filter_iff.
Qed.

(** [find] follows the chain, so a fuel of the chain's length is enough; it
    returns the representative and keeps the partition. *)
Lemma find_chain p i l r fuel :
  chain p i l r -> (length l <= fuel)%nat ->
  exists p', DSU.find fuel p i = Some (p', r) /\ dsu_same p p'.
Proof.
  intros Hc. revert fuel.
  induction Hc as [i Hi | i j l r Hi Hne Hc IH]; intros [|fuel] Hfuel;
    cbn in Hfuel; try lia; cbn [DSU.find].
  - rewrite Hi. cbn. rewrite Z.eqb_refl. exists p. split; [done | apply dsu_same_refl].
  - rewrite Hi. cbn. destruct (Z.eqb_spec j i); [done|].
    destruct (IH fuel) as (p' & -> & Hs); [lia|]. cbn.
    assert (Hir : root_of p' i r).
    { apply Hs. apply (root_of_link p i j); [assumption..|by exists l]. }
    pose proof (root_of_range _ _ _ Hir) as Hrange.
    rewrite (vec_set_is_Some _ _ _ Hrange). cbn. eexists. split; [reflexivity|].
    apply (dsu_same_trans _ _ _ Hs).
    pose proof (vec_set_is_Some p' i r Hrange) as Hset.
    split; [by apply length_insert|]. split.
    + by apply (root_of_compress p' i r).
    + intros k. by apply (is_root_compress p' i r).
Qed.

Lemma find_ok n p i fuel :
  dsu_wf n p -> 0 <= i < n -> (Z.to_nat n <= fuel)%nat ->
  exists p' r, DSU.find fuel p i = Some (p', r) /\ root_of p i r /\ dsu_same p p'.
Proof.
  intros [Hn Hwf] Hi Hfuel. destruct (Hwf i Hi) as (r & l & Hc).
  destruct (find_chain p i l r fuel Hc) as (p' & Hf & Hs).
  { pose proof (chain_length _ _ _ _ Hc). lia. }
  exists p', r. split; [assumption|]. split; [by exists l | assumption].
Qed.

(** ** Linking two representatives *)

Lemma is_root_link p ri rj p' j :
  ri <> rj -> vec_set p ri rj = Some p' ->
  is_root p' j <-> is_root p j /\ j <> ri.
Proof.
  intros Hne Hset. unfold is_root. destruct (decide (ri = j)) as [<-|Hj].
  - rewrite (vec_get_set_eq _ _ _ _ Hset). split; [intros [= ->]; done | tauto].
  - rewrite (vec_get_set_ne _ _ _ _ _ Hset Hj). split; [auto | tauto].
Qed.

Lemma root_of_link_roots p ri rj p' :
  is_root p ri -> is_root p rj -> ri <> rj -> vec_set p ri rj = Some p' ->
  forall x r, root_of p x r -> root_of p' x (if decide (r = ri) then rj else r).
Proof.
  intros Hri Hrj Hne Hset.
  assert (Hrj' : root_of p' rj rj).
  { apply root_of_self, (is_root_link p ri rj p'); auto. }
  apply root_of_ind'.
  - intros x Hx. case_decide as E.
    + subst x. apply (root_of_link p' ri rj); [by eapply vec_get_set_eq|auto|done].
    + apply root_of_self, (is_root_link p ri rj p'); auto.
  - intros x y r Hxy Hyx Hy IH.
    assert (ri <> x) by (intros <-; unfold is_root in Hri; congruence).
    apply (root_of_link p' x y); [|assumption..].
    by rewrite (vec_get_set_ne _ _ _ _ _ Hset).
Qed.

Lemma filter_iff_in {A} (P Q : A -> Prop)
    `{!forall x, Decision (P x)} `{!forall x, Decision (Q x)} (l : list A) :
  (forall x, x ∈ l -> P x <-> Q x) -> filter P l = filter Q l.
Proof.
  induction l as [|x l IH]; intros Hext; [reflexivity|].
  rewrite !filter_cons. rewrite IH by (intros y Hy; apply Hext; by right).
  pose proof (Hext x ltac:(left)) as Hx.
  destruct (decide (P x)) as [HP|HP], (decide (Q x)) as [HQ|HQ];
    try reflexivity; tauto.
Qed.

Lemma filter_all {A} (P : A -> Prop) `{!forall x, Decision (P x)} (l : list A) :
  (forall x, x ∈ l -> P x) -> filter P l = l.
Proof.
  induction l as [|x l IH]; intros Hall; [reflexivity|].
  rewrite filter_cons_True by (apply Hall; left).
  f_equal. apply IH. intros y Hy. apply Hall. by right.
Qed.

(** Removing one element that satisfies the predicate from the filter. *)
Lemma filter_length_remove {A} (P Q : A -> Prop)
    `{!forall x, Decision (P x)} `{!forall x, Decision (Q x)} (l : list A) x0 :
  NoDup l -> x0 ∈ l -> P x0 -> (forall x, x ∈ l -> Q x <-> P x /\ x <> x0) ->
  length (filter P l) = S (length (filter Q l)).
Proof.
  intros Hnd Hin HP HQ. induction Hnd as [|x l Hx Hnd IH].
  - by apply elem_of_nil in Hin.
  - apply elem_of_cons in Hin as [<-|Hin].
    + rewrite filter_cons_True by assumption.
      rewrite filter_cons_False by (rewrite HQ by left; tauto).
      cbn. f_equal. f_equal. apply filter_iff_in.
      intros y Hy. rewrite HQ by by right.
      assert (y <> x0) by congruence. tauto.
    + assert (x <> x0) by congruence.
      assert (IH' : length (filter P l) = S (length (filter Q l))).
      { apply IH; [assumption|]. intros y Hy. apply HQ. by right. }
      destruct (decide (P x)) as [HPx|HPx].
      * rewrite !filter_cons_True by (try rewrite HQ by left; auto). cbn. by rewrite IH'.
      * rewrite !filter_cons_False by (try rewrite HQ by left; tauto). exact IH'.
Qed.

Lemma roots_link p ri rj p' :
  is_root p ri -> ri <> rj -> vec_set p ri rj = Some p' ->
  length (roots p) = S (length (roots p')).
Proof.
  intros Hri Hne Hset. unfold roots. rewrite (vec_set_length _ _ _ _ Hset).
  apply (filter_length_remove _ _ _ ri); [apply NoDup_seqZ| |assumption|].
  - apply elem_of_seqZ. pose proof (vec_get_Some _ _ _ Hri). lia.
  - intros x _. by apply (is_root_link p ri rj).
Qed.

(** [unite] on two elements of different sets merges the two sets, and
    nothing else; one representative disappears. *)
Lemma unite_ok n p i j fuel :
  dsu_wf n p -> 0 <= i < n -> 0 <= j < n -> (Z.to_nat n <= fuel)%nat ->
  ~ same_set p i j ->
  exists p', DSU.unite fuel p i j = Some p' /\ dsu_wf n p' /\
    length (roots p) = S (length (roots p')) /\
    forall x y, same_set p' x y <->
      same_set p x y \/ (same_set p x i /\ same_set p y j) \/
      (same_set p x j /\ same_set p y i).
Proof.
  intros Hwf Hi Hj Hfuel Hdiff. unfold DSU.unite.
  destruct (find_ok n p i fuel Hwf Hi Hfuel) as (p1 & ri & -> & Hri & Hs1). cbn.
  pose proof (dsu_same_wf _ _ _ Hs1 Hwf) as Hwf1.
  destruct (find_ok n p1 j fuel Hwf1 Hj Hfuel) as (p2 & rj & -> & Hrj & Hs2). cbn.
  pose proof (dsu_same_wf _ _ _ Hs2 Hwf1) as Hwf2.
  pose proof (dsu_same_trans _ _ _ Hs1 Hs2) as Hs.
  apply (dsu_same_root_of n p p1 _ _ Hs1 Hwf) in Hrj.
  assert (Hne : ri <> rj) by (intros ->; apply Hdiff; by exists rj).
  destruct (Z.eqb_spec ri rj); [done|].
  assert (Hri2 : is_root p2 ri) by (apply Hs; by apply (root_of_is_root p i)).
  assert (Hrj2 : is_root p2 rj) by (apply Hs; by apply (root_of_is_root p j)).
  pose proof (vec_get_Some _ _ _ Hri2) as Hrange.
  pose proof (vec_set_is_Some p2 ri rj Hrange) as Hset. rewrite Hset.
  eexists. split; [reflexivity|].
  pose proof (root_of_link_roots p2 ri rj _ Hri2 Hrj2 Hne Hset) as Hlink.
  assert (Hroot : forall x r, root_of p x r ->
            root_of (<[Z.to_nat ri := rj]> p2) x (if decide (r = ri) then rj else r)).
  { intros x r Hx. apply Hlink. by apply Hs. }
  destruct Hwf as [Hn Hall]. split; [|split].
  - split; [rewrite length_insert; destruct Hwf2; lia|].
    intros x Hx. destruct (Hall x Hx) as [r Hr]. eauto.
  - rewrite <- (dsu_same_roots _ _ Hs). by apply (roots_link p2 ri rj).
  - intros x y. split.
    + intros (r & Hx & Hy).
      pose proof (root_of_range _ _ _ Hx) as Hxr.
      pose proof (root_of_range _ _ _ Hy) as Hyr.
      rewrite length_insert in Hxr, Hyr. destruct Hs as (Hl & _ & _). rewrite Hl, Hn in Hxr, Hyr.
      destruct (Hall x Hxr) as [rx Hrx]. destruct (Hall y Hyr) as [ry Hry].
      pose proof (root_of_det _ _ _ _ Hx (Hroot _ _ Hrx)) as Ex.
      pose proof (root_of_det _ _ _ _ Hy (Hroot _ _ Hry)) as Ey.
      destruct (decide (rx = ri)) as [->|Hx1], (decide (ry = ri)) as [->|Hy1].
      * left. by exists ri.
      * right. left. split; [by exists ri|]. exists rj. split; [congruence|done].
      * right. right. split; [|by exists ri]. exists rj. split; [congruence|done].
      * left. exists rx. split; [done|congruence].
    + intros [(r & Hx & Hy)|[[(r & Hx & Hi') (r' & Hy & Hj')]|[(r & Hx & Hj') (r' & Hy & Hi')]]].
      * eexists. split; by apply Hroot.
      * pose proof (root_of_det _ _ _ _ Hi' Hri) as ->.
        pose proof (root_of_det _ _ _ _ Hj' Hrj) as ->.
        exists rj. split.
        -- pose proof (Hroot _ _ Hx) as H'. by rewrite decide_True in H' by done.
        -- pose proof (Hroot _ _ Hy) as H'. by rewrite decide_False in H' by done.
      * pose proof (root_of_det _ _ _ _ Hi' Hri) as ->.
        pose proof (root_of_det _ _ _ _ Hj' Hrj) as ->.
        exists rj. split.
        -- pose proof (Hroot _ _ Hx) as H'. by rewrite decide_False in H' by done.
        -- pose proof (Hroot _ _ Hy) as H'. by rewrite decide_True in H' by done.
Qed.

(** ** The initial structure and the number of representatives *)

Lemma init_is_root n i : 0 <= i < n -> is_root (DSU.init n) i.
Proof. apply vec_get_seqZ. Qed.

Lemma init_wf n : 0 <= n -> dsu_wf n (DSU.init n).
Proof.
  intros Hn. split; [unfold DSU.init; rewrite length_seqZ; lia|].
  intros i Hi. exists i. by apply root_of_self, init_is_root.
Qed.

Lemma init_same_set n i j : same_set (DSU.init n) i j -> i = j.
Proof.
  intros (r & Hi & Hj).
  pose proof (root_of_range _ _ _ Hi) as Hir. pose proof (root_of_range _ _ _ Hj) as Hjr.
  unfold DSU.init in Hir, Hjr. rewrite length_seqZ in Hir, Hjr.
  pose proof (is_root_root_of _ _ _ (init_is_root n i ltac:(lia)) Hi).
  pose proof (is_root_root_of _ _ _ (init_is_root n j ltac:(lia)) Hj). congruence.
Qed.

Lemma init_roots n : 0 <= n -> length (roots (DSU.init n)) = Z.to_nat n.
Proof.
  intros Hn. unfold roots, DSU.init. rewrite length_seqZ, Z2Nat.id by lia.
  rewrite filter_all, length_seqZ; [reflexivity|].
  intros i Hi%elem_of_seqZ. apply init_is_root. lia.
Qed.

(** With a single representative left, all elements are in one set. *)
Lemma one_root_same_set n p i j :
  dsu_wf n p -> length (roots p) = 1%nat -> 0 <= i < n -> 0 <= j < n ->
  same_set p i j.
Proof.
  intros [Hn Hwf] Hone Hi Hj.
  destruct (Hwf i Hi) as [ri Hri]. destruct (Hwf j Hj) as [rj Hrj].
  assert (Hin : forall x r, root_of p x r -> r ∈ roots p).
  { intros x r Hr. apply list_elem_of_filter. split; [by eapply root_of_is_root|].
    apply elem_of_seqZ. pose proof (root_of_range _ _ _ (root_of_root _ _ _ Hr)). lia. }
  pose proof (Hin _ _ Hri) as Hi'. pose proof (Hin _ _ Hrj) as Hj'.
  destruct (roots p) as [|x [|y t]]; try discriminate.
  apply list_elem_of_singleton in Hi', Hj'. subst. by exists x.
Qed.

Lemma same_set_one_root n p :
  dsu_wf n p -> 0 < n -> (forall i, 0 <= i < n -> same_set p i 0) ->
  length (roots p) = 1%nat.
Proof.
  intros [Hn Hwf] Hpos Hall.
  destruct (Hwf 0 ltac:(lia)) as [r0 Hr0].
  pose proof (root_of_is_root _ _ _ Hr0) as Hroot.
  unfold roots. rewrite (filter_unique _ _ r0); [reflexivity|apply NoDup_seqZ| |assumption|].
  - apply elem_of_seqZ. pose proof (vec_get_Some _ _ _ Hroot). lia.
  - intros x Hx%elem_of_seqZ Hxr. destruct (Hall x ltac:(lia)) as (r & H1 & H2).
    rewrite (root_of_det _ _ _ _ Hr0 H2).
    symmetry. by apply (is_root_root_of p).
Qed.

(** ** Graphs on cells: bridges, cycles and simple paths *)

Lemma rtc_symmetric (R : relation cell) :
  (forall x y, R x y -> R y x) -> forall x y, rtc R x y -> rtc R y x.
Proof.
  intros R_sym x y. induction 1 as [|x y z Hxy _ IH]; [apply rtc_refl|].
  eapply rtc_r; [exact IH | by apply R_sym].
Qed.

Section graph_lemmas.
Context (R : relation cell).
Hypothesis R_sym : forall x y, R x y -> R y x.

Lemma without_edge_sub a b x y : without_edge R a b x y -> R x y.
Proof. by intros [? _]. Qed.

Lemma without_edge_sym a b x y : without_edge R a b x y -> without_edge R a b y x.
Proof. intros (H & H1 & H2). split; [by apply R_sym | tauto]. Qed.

Lemma without_edge_flip a b x y : without_edge R a b x y -> without_edge R b a x y.
Proof. intros (H & H1 & H2). split; [assumption | tauto]. Qed.

(** A walk that keeps away from [a] uses no edge at [a]. *)
Lemma walk_avoids a c p x b :
  is_walk R p -> a ∉ p -> head p = Some x -> last p = Some b ->
  rtc (without_edge R a c) x b.
Proof.
  revert x. induction p as [|y p IH]; intros x Hw Ha Hh Hl; [discriminate|].
  injection Hh as ->. destruct p as [|z p].
  - injection Hl as ->. apply rtc_refl.
  - destruct Hw as [Hxz Hw]. rewrite last_cons_cons in Hl.
    apply not_elem_of_cons in Ha as [Hax Ha].
    pose proof Ha as [Haz _]%not_elem_of_cons.
    apply (rtc_l _ x z); [|by apply IH].
    split; [assumption|]. split; intros [? ?]; congruence.
Qed.

Lemma walk_rtc p x b :
  is_walk R p -> head p = Some x -> last p = Some b -> rtc R x b.
Proof.
  revert x. induction p as [|y p IH]; intros x Hw Hh Hl; [discriminate|].
  injection Hh as ->. destruct p as [|z p].
  - injection Hl as ->. apply rtc_refl.
  - destruct Hw as [Hxz Hw]. rewrite last_cons_cons in Hl.
    apply (rtc_l _ x z); [assumption | by apply IH].
Qed.

Lemma last_elem_of (p : list cell) b : last p = Some b -> b ∈ p.
Proof. intros (l & ->)%last_Some. apply elem_of_app. right. left. Qed.

(** Every edge a bridge: no simple cycle. *)
Lemma all_bridges_acyclic : all_bridges R -> acyclic R.
Proof.
  intros Hb p (Hnd & Hlen & Hw & a & b & Hh & Hl & Hba).
  destruct p as [|a' [|x [|y p]]]; cbn in Hlen; try lia.
  injection Hh as ->. destruct Hw as [Hax Hw].
  rewrite last_cons_cons in Hl.
  apply NoDup_cons in Hnd as [Ha Hnd].
  pose proof Hnd as [Hx _]%NoDup_cons.
  assert (Hbx : b <> x).
  { intros ->. apply Hx. rewrite last_cons_cons in Hl. by apply last_elem_of. }
  assert (Hba' : b <> a).
  { intros ->. apply Ha. by apply last_elem_of. }
  apply (Hb a b); [by apply R_sym|].
  apply (rtc_l _ a x).
  - split; [assumption|]. split; intros [? ?]; congruence.
  - by apply (walk_avoids a b (x :: y :: p)).
Qed.

(** Every edge a bridge: at most one simple path between two cells. *)
Lemma all_bridges_unique_path :
  all_bridges R ->
  forall p q a b, simple_path R a b p -> simple_path R a b q -> p = q.
Proof.
  intros Hb p. induction p as [|a' p IH]; intros q a b (Hh & Hl & Hw & Hnd);
    [discriminate|]. injection Hh as ->.
  intros (Hh' & Hl' & Hw' & Hnd').
  destruct q as [|a' q]; [discriminate|]. injection Hh' as ->.
  apply NoDup_cons in Hnd as [Ha Hnd]. apply NoDup_cons in Hnd' as [Ha' Hnd'].
  destruct p as [|x p], q as [|y q].
  - reflexivity.
  - injection Hl as <-. rewrite last_cons_cons in Hl'.
    exfalso. apply Ha'. by apply last_elem_of.
  - injection Hl' as <-. rewrite last_cons_cons in Hl.
    exfalso. apply Ha. by apply last_elem_of.
  - rewrite last_cons_cons in Hl, Hl'.
    destruct Hw as [Hax Hw]. destruct Hw' as [Hay Hw'].
    destruct (decide (x = y)) as [<-|Hxy].
    + f_equal. apply (IH (x :: q) x b); repeat split; assumption.
    + exfalso. apply (Hb a x Hax).
      pose proof Ha as [Hax' _]%not_elem_of_cons.
      pose proof Ha' as [Hay' _]%not_elem_of_cons.
      apply (rtc_l _ a y).
      { split; [assumption|]. split; intros [? ?]; congruence. }
      apply (rtc_trans _ b _).
      * by apply (walk_avoids a x (y :: q)).
      * apply rtc_symmetric; [apply without_edge_sym|].
        by apply (walk_avoids a x (x :: p)).
Qed.
End graph_lemmas.

(** Connectivity after one more undirected edge. *)
Lemma rtc_add_edge (R R' : relation cell) u v :
  (forall x y, R' x y -> R x y \/ (x = u /\ y = v) \/ (x = v /\ y = u)) ->
  forall a b, rtc R' a b ->
    rtc R a b \/ (rtc R a u /\ rtc R v b) \/ (rtc R a v /\ rtc R u b).
Proof.
  intros Hsub a b H. induction H as [a|a x b Hax _ IH].
  - left. apply rtc_refl.
  - destruct (Hsub _ _ Hax) as [HR|[[-> ->]|[-> ->]]].
    + destruct IH as [IH|[[IH1 IH2]|[IH1 IH2]]].
      * left. by eapply rtc_l.
      * right. left. split; [by eapply rtc_l | assumption].
      * right. right. split; [by eapply rtc_l | assumption].
    + destruct IH as [IH|[[IH1 IH2]|[IH1 IH2]]].
      * right. left. split; [apply rtc_refl | assumption].
      * right. left. split; [apply rtc_refl | assumption].
      * by left.
    + destruct IH as [IH|[[IH1 IH2]|[IH1 IH2]]].
      * right. right. split; [apply rtc_refl | assumption].
      * by left.
      * right. right. split; [apply rtc_refl | assumption].
Qed.

(** Joining two components by one edge keeps every edge a bridge. *)
Lemma all_bridges_add_edge (R R' : relation cell) u v :
  (forall x y, R x y -> R y x) ->
  (forall x y, R' x y <-> R x y \/ (x = u /\ y = v) \/ (x = v /\ y = u)) ->
  all_bridges R -> ~ rtc R u v -> all_bridges R'.
Proof.
  intros Hsym HR' Hb Hdis a b Hab Hpath.
  assert (Hdis' : ~ rtc R v u) by (intros H; by apply Hdis, rtc_symmetric).
  apply HR' in Hab as [Hab|[[-> ->]|[-> ->]]].
  - assert (Hne1 : ~ (a = u /\ b = v)) by (intros [-> ->]; by apply Hdis, rtc_once).
    assert (Hne2 : ~ (a = v /\ b = u)) by (intros [-> ->]; by apply Hdis', rtc_once).
    destruct (rtc_add_edge (without_edge R a b) (without_edge R' a b) u v) with a b
      as [H|[[H1 H2]|[H1 H2]]]; [|assumption|..].
    + intros x y (Hxy & Hn1 & Hn2).
      apply HR' in Hxy as [Hxy|[E|E]]; [left; by split|tauto..].
    + by apply (Hb a b).
    + apply Hdis. apply (rtc_trans _ a _); [apply rtc_symmetric; [exact Hsym|]|].
      * eapply rtc_subrel; [|exact H1]. apply without_edge_sub.
      * apply (rtc_l _ _ b); [assumption|]. apply rtc_symmetric; [exact Hsym|].
        eapply rtc_subrel; [|exact H2]. apply without_edge_sub.
    + apply Hdis'. apply (rtc_trans _ a _); [apply rtc_symmetric; [exact Hsym|]|].
      * eapply rtc_subrel; [|exact H1]. apply without_edge_sub.
      * apply (rtc_l _ _ b); [assumption|]. apply rtc_symmetric; [exact Hsym|].
        eapply rtc_subrel; [|exact H2]. apply without_edge_sub.
  - apply Hdis. eapply rtc_subrel; [|exact Hpath].
    intros x y (Hxy & Hn1 & Hn2). apply HR' in Hxy. tauto.
  - apply Hdis'. eapply rtc_subrel; [|exact Hpath].
    intros x y (Hxy & Hn1 & Hn2). apply HR' in Hxy. tauto.
Qed.

(** ** From walks to simple paths *)

Lemma is_walk_mono (R R' : relation cell) p :
  (forall x y, R x y -> R' x y) -> is_walk R p -> is_walk R' p.
Proof.
  intros Hsub. induction p as [|a [|b p] IH]; [done..|].
  intros [Hab Hw]. split; [by apply Hsub | by apply IH].
Qed.

Lemma is_walk_app_r (R : relation cell) p1 p2 : is_walk R (p1 ++ p2) -> is_walk R p2.
Proof.
  induction p1 as [|a [|b p1] IH]; [done| |].
  - destruct p2; [done|]. by intros [_ ?].
  - intros [_ Hw]. by apply IH.
Qed.

Lemma rtc_simple_path (R : relation cell) a b :
  rtc R a b -> exists p, simple_path R a b p.
Proof.
  induction 1 as [a|a x b Hax _ (p & Hh & Hl & Hw & Hnd)].
  - exists [a]. split; [done|]. split; [done|]. split; [done | apply NoDup_singleton].
  - destruct (decide (a ∈ p)) as [Hin|Hout].
    + apply list_elem_of_split in Hin as (l1 & l2 & ->).
      exists (a :: l2). split; [done|]. split; [by rewrite last_app_cons in Hl|].
      split; [by apply is_walk_app_r in Hw|].
      by apply NoDup_app in Hnd as (_ & _ & ?).
    + destruct p as [|x' p]; [done|]. injection Hh as ->.
      exists (a :: x :: p). split; [done|]. split; [by rewrite last_cons_cons|].
      split; [by split|]. by apply NoDup_cons.
Qed.

(** Without simple cycles every edge is a bridge. *)
Lemma acyclic_all_bridges (R : relation cell) :
  (forall x y, R x y -> R y x) -> (forall x, ~ R x x) -> acyclic R -> all_bridges R.
Proof.
  intros Hsym Hirr Hacyc a b Hab Hpath.
  assert (Hne : a <> b) by (intros ->; by apply (Hirr b)).
  destruct (rtc_simple_path _ _ _ Hpath) as (p & Hh & Hl & Hw & Hnd).
  destruct p as [|a' [|x [|y p]]]; [done|..]; injection Hh as ->.
  - injection Hl as ->. done.
  - rewrite last_cons_cons in Hl. injection Hl as ->.
    destruct Hw as [(_ & H1 & _) _]. by apply H1.
  - apply (Hacyc (a :: x :: y :: p)). split; [done|]. split; [cbn; lia|].
    split; [eapply is_walk_mono; [|exact Hw]; by intros ? ? [? _]|].
    exists a, b. split; [done|]. split; [done|]. by apply Hsym.
Qed.

(** ** Bits of the grid *)

Lemma bit_set_negb m a bit :
  is_Some (arr_get m a.1 a.2) -> bit_set m a bit = negb (bit_clear m a bit).
Proof. intros [v Hv]. unfold bit_set, bit_clear. by rewrite Hv. Qed.

Lemma bit_clear_Some m a bit :
  bit_clear m a bit = true <-> exists v, arr_get m a.1 a.2 = Some v /\ Z.land v bit = 0.
Proof.
  unfold bit_clear. destruct (arr_get m a.1 a.2) as [v|].
  - rewrite Z.eqb_eq. split; [eauto | by intros (? & [= <-] & ?)].
  - split; [discriminate | by intros (? & [=] & _)].
Qed.

Lemma bit_set_Some m a bit :
  bit_set m a bit = true <-> exists v, arr_get m a.1 a.2 = Some v /\ Z.land v bit <> 0.
Proof.
  unfold bit_set. destruct (arr_get m a.1 a.2) as [v|].
  - rewrite negb_true_iff, Z.eqb_neq. split; [eauto | by intros (? & [= <-] & ?)].
  - split; [discriminate | by intros (? & [=] & _)].
Qed.

Lemma land_clear_bit_dir v d e :
  d ∈ directions -> e ∈ directions ->
  Z.land (clear_bit v d) e = 0 <-> e = d \/ Z.land v e = 0.
Proof.
  intros (k & Hk & ->)%directions_pow2 (j & Hj & ->)%directions_pow2.
  destruct (decide (j = k)) as [->|Hne].
  - split; [auto|]. intros _. apply land_clear_bit_same. lia.
  - rewrite land_clear_bit_other by lia. split; [auto|].
    intros [E|?]; [|done]. apply Z.pow_inj_r in E; lia.
Qed.

Lemma land_ALL_WALLS d : d ∈ directions -> Z.land ALL_WALLS d <> 0.
Proof. intros H. dir_cases H; discriminate. Qed.

(** ** The two stores of a wall removal *)

Lemma remove_bits m a b d v1 m1 v2 m2 :
  arr_get m a.1 a.2 = Some v1 ->
  arr_set m a.1 a.2 (clear_bit v1 d) = Some m1 ->
  arr_get m1 b.1 b.2 = Some v2 ->
  arr_set m1 b.1 b.2 (clear_bit v2 (getOppositeWall d)) = Some m2 ->
  a <> b -> d ∈ directions ->
  forall x e, e ∈ directions ->
    bit_clear m2 x e = true <->
    bit_clear m x e = true \/ (x = a /\ e = d) \/ (x = b /\ e = getOppositeWall d).
Proof.
  intros Hv1 Hm1 Hv2 Hm2 Hab Hd x e He.
  pose proof (getOppositeWall_directions d Hd) as Hd'.
  assert (Hv2' : arr_get m b.1 b.2 = Some v2).
  { rewrite <- Hv2. symmetry. eapply arr_get_set_ne; [exact Hm1|].
    destruct a, b; cbn; congruence. }
  rewrite !bit_clear_Some.
  rewrite (arr_get_set _ _ _ _ _ x.1 x.2 Hm2). case_decide as Eb.
  - assert (x = b) as -> by (destruct x, b; cbn in *; congruence).
    split.
    + intros (v & [= <-] & Hv). apply land_clear_bit_dir in Hv as [->|Hv]; eauto 6.
    + intros H. eexists. split; [reflexivity|]. apply land_clear_bit_dir; [done..|].
      destruct H as [(v & Hv & Hz)|[[E _]|[_ ->]]]; [right; congruence|congruence|by left].
  - assert (Hxb : x <> b) by (intros ->; apply Eb; by destruct b).
    rewrite (arr_get_set _ _ _ _ _ x.1 x.2 Hm1). case_decide as Ea.
    + assert (x = a) as -> by (destruct x, a; cbn in *; congruence).
      split.
      * intros (v & [= <-] & Hv). apply land_clear_bit_dir in Hv as [->|Hv]; eauto 6.
      * intros H. eexists. split; [reflexivity|]. apply land_clear_bit_dir; [done..|].
        destruct H as [(v & Hv & Hz)|[[_ ->]|[E _]]]; [right; congruence|by left|congruence].
    + assert (Hxa : x <> a) by (intros ->; apply Ea; by destruct a).
      split; [auto|]. intros [H|[[E _]|[E _]]]; [done|congruence..].
Qed.

(** ** Filling a set of cells with one value *)

Lemma foldM_arr_set {A} (v : A) (l : list cell) (m : list A) :
  arr_wf m -> (forall a, a ∈ l -> arr_ok a.1 a.2 = true) ->
  exists m', foldM (fun m a => arr_set m a.1 a.2 v) m l = Some m' /\ arr_wf m' /\
    forall a, arr_get m' a.1 a.2 = if decide (a ∈ l) then Some v else arr_get m a.1 a.2.
Proof.
  revert m. induction l as [|x l IH]; intros m Hwf Hok.
  - exists m. split; [done|]. split; [done|]. intros a.
    rewrite decide_False; [done | apply not_elem_of_nil].
  - cbn [foldM]. rewrite arr_set_is_Some by (try apply Hok; try left; done). cbn.
    pose proof (arr_set_is_Some m x.1 x.2 v Hwf (Hok x ltac:(left))) as Hset.
    destruct (IH (<[arr_index x.1 x.2 := v]> m)) as (m' & -> & Hwf' & Hget).
    { by eapply arr_set_wf. }
    { intros a Ha. apply Hok. by right. }
    exists m'. split; [done|]. split; [done|]. intros a. rewrite Hget.
    destruct (decide (a ∈ l)) as [Hal|Hal].
    + rewrite decide_True; [done | by right].
    + rewrite (arr_get_set _ _ _ _ _ a.1 a.2 Hset).
      destruct (decide (a = x)) as [->|Hne].
      * rewrite decide_True by done. rewrite decide_True; [done | left].
      * rewrite decide_False by (destruct a, x; cbn; congruence).
        rewrite decide_False; [done|]. by intros [?|?]%elem_of_cons.
Qed.

(** ** A grid of supported dimensions *)

Section grid.
Context (nR nC : Z).
Hypothesis HnR : 1 <= nR <= MAX_ROWS.
Hypothesis HnC : 1 <= nC <= MAX_COLS.

Lemma nb a d : in_grid nR nC a -> neighbor nR nC a d = hex_neighbor nR nC a d.
Proof. intros Ha. apply neighbor_small; [done|unfold MAX_ROWS, MAX_COLS in *; lia..]. Qed.

Lemma grid_ok a : in_grid nR nC a -> arr_ok a.1 a.2 = true.
Proof. apply in_grid_arr_ok; lia. Qed.

Lemma grid_get {A} (m : list A) a :
  arr_wf m -> in_grid nR nC a -> is_Some (arr_get m a.1 a.2).
Proof. intros Hwf Ha. apply arr_get_is_Some; [done | by apply grid_ok]. Qed.

Lemma cell_idx_range a : in_grid nR nC a -> 0 <= cell_idx nC a < nR * nC.
Proof. intros [Hr Hc]. unfold cell_idx. nia. Qed.

Lemma cell_idx_inj a b :
  in_grid nR nC a -> in_grid nR nC b -> cell_idx nC a = cell_idx nC b -> a = b.
Proof.
  destruct a as [r c], b as [r' c']. intros [Hr Hc] [Hr' Hc']. unfold cell_idx.
  cbn in *. intros E. assert (r = r') by nia. subst. f_equal. lia.
Qed.

Lemma cell_idx_surj i :
  0 <= i < nR * nC -> in_grid nR nC (i / nC, i mod nC) /\
                      cell_idx nC (i / nC, i mod nC) = i.
Proof.
  intros Hi. unfold in_grid, cell_idx. cbn.
  pose proof (Z.mod_pos_bound i nC ltac:(lia)).
  pose proof (Z.div_mod i nC ltac:(lia)).
  assert (0 <= i / nC) by (apply Z.div_pos; lia).
  assert (i / nC < nR) by (apply Z.div_lt_upper_bound; lia).
  lia.
Qed.

Lemma grid_size : 1 <= nR * nC <= 2500.
Proof. unfold MAX_ROWS, MAX_COLS in *. nia. Qed.

(** *** Open steps *)

Lemma open_step_hex m a b :
  open_step m nR nC a b <->
  in_grid nR nC a /\ exists d, hex_neighbor nR nC a d = Some b /\ bit_clear m a d = true.
Proof.
  unfold open_step. split.
  - intros (Ha & d & Hd & Hn & Hc). rewrite nb in Hn by done. eauto.
  - intros (Ha & d & Hn & Hc). split; [done|]. exists d.
    rewrite nb by done. eauto using hex_neighbor_directions.
Qed.

Lemma open_step_in_grid m a b : open_step m nR nC a b -> in_grid nR nC b.
Proof. intros (_ & d & Hn & _)%open_step_hex. by eapply hex_neighbor_in_grid. Qed.

Lemma wall_symmetric_clear m :
  arr_wf m ->
  wall_symmetric m nR nC <->
  forall a d b, in_grid nR nC a -> hex_neighbor nR nC a d = Some b ->
    (bit_clear m a d = true <-> bit_clear m b (getOppositeWall d) = true).
Proof.
  intros Hwf. unfold wall_symmetric. split.
  - intros H a d b Ha Hn.
    pose proof (hex_neighbor_in_grid _ _ _ _ _ Hn) as Hb.
    specialize (H a d b Ha (hex_neighbor_directions _ _ _ _ _ Hn)).
    rewrite nb in H by done. specialize (H Hn).
    rewrite !bit_set_negb, !negb_true_iff in H by by apply grid_get.
    destruct (bit_clear m a d), (bit_clear m b _); intuition congruence.
  - intros H a d b Ha Hd Hn. rewrite nb in Hn by done.
    pose proof (hex_neighbor_in_grid _ _ _ _ _ Hn) as Hb.
    specialize (H a d b Ha Hn).
    rewrite !bit_set_negb, !negb_true_iff by by apply grid_get.
    destruct (bit_clear m a d), (bit_clear m b _); intuition congruence.
Qed.

Lemma open_step_sym m :
  arr_wf m -> wall_symmetric m nR nC ->
  forall a b, open_step m nR nC a b -> open_step m nR nC b a.
Proof.
  intros Hwf Hsym a b (Ha & d & Hn & Hc)%open_step_hex.
  apply open_step_hex. split; [by eapply hex_neighbor_in_grid|].
  exists (getOppositeWall d). split; [by apply hex_neighbor_opposite|].
  by apply (proj1 (wall_symmetric_clear m Hwf) Hsym a d b).
Qed.

(** *** The effect of one removal on the grid *)

Section removal.
Context (m m2 : list Z) (a b : cell) (d : Z).
Hypothesis Hwf : arr_wf m.
Hypothesis Ha : in_grid nR nC a.
Hypothesis Hn : hex_neighbor nR nC a d = Some b.
Hypothesis Hbits : forall x e, e ∈ directions ->
  bit_clear m2 x e = true <->
  bit_clear m x e = true \/ (x = a /\ e = d) \/ (x = b /\ e = getOppositeWall d).

Lemma removal_open_step x y :
  open_step m2 nR nC x y <->
  open_step m nR nC x y \/ (x = a /\ y = b) \/ (x = b /\ y = a).
Proof.
  pose proof (hex_neighbor_in_grid _ _ _ _ _ Hn) as Hb.
  pose proof (hex_neighbor_opposite _ _ _ _ _ Ha Hn) as Hn'.
  rewrite !open_step_hex. split.
  - intros (Hx & e & Hxe & Hc).
    pose proof (hex_neighbor_directions _ _ _ _ _ Hxe) as He.
    apply (Hbits _ _ He) in Hc as [Hc|[[-> ->]|[-> ->]]].
    + left. eauto.
    + right. left. split; congruence.
    + right. right. split; congruence.
  - intros [(Hx & e & Hxe & Hc)|[[-> ->]|[-> ->]]].
    + split; [done|]. exists e. split; [done|]. apply Hbits; [|by left].
      by eapply hex_neighbor_directions.
    + split; [done|]. exists d. split; [done|]. apply Hbits; [|by right; left].
      by eapply hex_neighbor_directions.
    + split; [done|]. exists (getOppositeWall d). split; [done|].
      apply Hbits; [|by right; right]. by eapply hex_neighbor_directions.
Qed.

Lemma removal_symmetric :
  arr_wf m2 -> wall_symmetric m nR nC -> wall_symmetric m2 nR nC.
Proof.
  intros Hwf2 Hsym. apply wall_symmetric_clear; [done|].
  intros x e y Hx Hxe.
  pose proof (hex_neighbor_in_grid _ _ _ _ _ Hn) as Hb.
  pose proof (hex_neighbor_opposite _ _ _ _ _ Ha Hn) as Hn'.
  pose proof (hex_neighbor_directions _ _ _ _ _ Hn) as Hd.
  pose proof (hex_neighbor_directions _ _ _ _ _ Hxe) as He.
  pose proof (hex_neighbor_opposite _ _ _ _ _ Hx Hxe) as Hxe'.
  pose proof (proj1 (wall_symmetric_clear m Hwf) Hsym x e y Hx Hxe) as Hold.
  rewrite !Hbits by auto using getOppositeWall_directions. split.
  - intros [H|[[-> ->]|[-> ->]]].
    + left. by apply Hold.
    + right. right. split; congruence.
    + right. left. rewrite getOppositeWall_involutive by done. split; congruence.
  - intros [H|[[-> E]|[-> E]]].
    + left. by apply Hold.
    + right. right. rewrite <- E, getOppositeWall_involutive in * by done.
      split; congruence.
    + right. left.
      assert (e = d) as ->.
      { rewrite <- (getOppositeWall_involutive e), E by done.
        by apply getOppositeWall_involutive. }
      split; congruence.
Qed.

Lemma removal_boundary :
  arr_wf m2 -> boundary_closed m nR nC -> boundary_closed m2 nR nC.
Proof.
  intros Hwf2 Hrim x e Hx He Hnone. rewrite nb in Hnone by done.
  pose proof (hex_neighbor_in_grid _ _ _ _ _ Hn) as Hb.
  pose proof (hex_neighbor_opposite _ _ _ _ _ Ha Hn) as Hn'.
  specialize (Hrim x e Hx He). rewrite nb in Hrim by done. specialize (Hrim Hnone).
  rewrite bit_set_negb, negb_true_iff in * by by apply grid_get.
  destruct (bit_clear m2 x e) eqn:E; [|done].
  apply (Hbits _ _ He) in E as [E|[[-> ->]|[-> ->]]]; congruence.
Qed.

(** Exactly one enumerated wall becomes an open passage. *)
Lemma removal_passages :
  bit_clear m a d = false -> bit_clear m b (getOppositeWall d) = false ->
  length (open_passages m2 nR nC) = S (length (open_passages m nR nC)).
Proof.
  intros Hca Hcb.
  pose proof (hex_neighbor_directions _ _ _ _ _ Hn) as Hd.
  destruct (denotes_unique nR nC a d b) as (w0 & Hin & _ & Hw0 & _);
    [unfold MAX_ROWS, MAX_COLS in *; lia..|done|done|done|].
  assert (Hopen : forall w, w ∈ internalWalls nR nC ->
            passage_open m w <-> passage_open m2 w /\ w <> w0).
  { intros [r c e] (_ & Hf & _)%elem_of_internalWalls. unfold passage_open.
    cbn [wall_r wall_c wall_direction] in *.
    rewrite Hbits by by apply forward_directions_sub. split.
    - intros H. split; [by left|]. intros <-.
      destruct Hw0 as [E|E]; injection E as -> -> ->;
        rewrite <- surjective_pairing in H; congruence.
    - assert (Hexcl : ~ (d ∈ forward_directions /\
                         getOppositeWall d ∈ forward_directions))
        by (destruct (forward_or_opposite d Hd) as [[_ ?]|[? _]]; tauto).
      assert (Hw0f : wall_direction w0 ∈ forward_directions)
        by (apply elem_of_internalWalls in Hin; tauto).
      intros [[H|[[E ->]|[E ->]]] Hne]; [done|exfalso..].
      + destruct Hw0 as [-> | ->]; cbn in Hw0f; [|tauto].
        apply Hne. by rewrite <- E.
      + destruct Hw0 as [-> | ->]; cbn in Hw0f; [tauto|].
        apply Hne. by rewrite <- E. }
  unfold open_passages.
  apply (filter_length_remove _ _ _ w0); [apply NoDup_internalWalls|done| |done].
  unfold passage_open. apply Hbits.
  - destruct Hw0 as [-> | ->]; cbn; auto using getOppositeWall_directions.
  - destruct Hw0 as [-> | ->]; cbn; rewrite <- surjective_pairing; auto.
Qed.
End removal.

(** *** One iteration of the removal loop *)

Lemma roots_nonempty p : dsu_wf (nR * nC) p -> (1 <= length (roots p))%nat.
Proof.
  intros [Hn Hwf]. pose proof grid_size as Hsz.
  destruct (Hwf 0 ltac:(lia)) as [r Hr].
  assert (Hin : r ∈ roots p).
  { apply list_elem_of_filter. split; [by eapply root_of_is_root|].
    apply elem_of_seqZ. pose proof (root_of_range _ _ _ (root_of_root _ _ _ Hr)). lia. }
  destruct (roots p); [by apply elem_of_nil in Hin | cbn; lia].
Qed.

Lemma remove_wall_ok fuel st w :
  (Z.to_nat (nR * nC) <= fuel)%nat -> gen_inv nR nC st ->
  in_grid nR nC (wall_r w, wall_c w) ->
  exists st', remove_wall fuel nR nC st w = Some st' /\ gen_inv nR nC st' /\
    (forall i j, same_set (gs_dsu st) i j -> same_set (gs_dsu st') i j) /\
    (forall b, hex_neighbor nR nC (wall_r w, wall_c w) (wall_direction w) = Some b ->
       same_set (gs_dsu st') (cell_idx nC (wall_r w, wall_c w)) (cell_idx nC b)).
Proof.
  intros Hfuel Hinv Ha. destruct w as [r1 c1 d]. destruct st as [m p k].
  cbn [wall_r wall_c wall_direction] in *.
  pose proof grid_size as Hsz.
  destruct Hinv as [Hwf Hdsu Hsym Hrim Hlink Hbr Hpass Hroots]; cbn in *.
  unfold remove_wall. cbn [wall_r wall_c wall_direction gs_maze gs_dsu gs_removed].
  set (a := (r1, c1)) in *.
  change (getNeighbor r1 c1 d nR nC) with (neighbor nR nC a d). rewrite nb by done.
  destruct (hex_neighbor nR nC a d) as [[r2 c2]|] eqn:Hn.
  2:{ exists (mkGen m p k). split; [done|]. split; [by constructor|]. split; [auto|].
      discriminate. }
  set (b := (r2, c2)) in *.
  pose proof (hex_neighbor_in_grid _ _ _ _ _ Hn) as Hb.
  pose proof (hex_neighbor_directions _ _ _ _ _ Hn) as Hd.
  pose proof (hex_neighbor_opposite _ _ _ _ _ Ha Hn) as Hn'.
  assert (Hab : a <> b) by (intros E; rewrite <- E in Hn; by apply hex_neighbor_irrefl in Hn).
  pose proof (cell_idx_range a Ha) as Hia. pose proof (cell_idx_range b Hb) as Hib.
  change (r1 * nC + c1) with (cell_idx nC a). change (r2 * nC + c2) with (cell_idx nC b).
  rewrite !to_u32_small by lia.
  destruct (find_ok _ p (cell_idx nC a) fuel Hdsu Hia Hfuel) as (p1 & ra & -> & Hra & Hs1).
  cbn.
  pose proof (dsu_same_wf _ _ _ Hs1 Hdsu) as Hdsu1.
  destruct (find_ok _ p1 (cell_idx nC b) fuel Hdsu1 Hib Hfuel) as (p2 & rb & -> & Hrb & Hs2).
  cbn.
  pose proof (dsu_same_wf _ _ _ Hs2 Hdsu1) as Hdsu2.
  pose proof (dsu_same_trans _ _ _ Hs1 Hs2) as Hs.
  apply (dsu_same_root_of _ p p1 _ _ Hs1 Hdsu) in Hrb.
  assert (Hsame2 : forall i j, same_set p2 i j <-> same_set p i j)
    by (intros i j; by apply (dsu_same_same_set (nR * nC))).
  destruct (Z.eqb_spec ra rb) as [->|Hne].
  - exists (mkGen m p2 k). split; [done|]. split; [|split].
    + constructor; cbn; try done.
      * intros x y Hx Hy. rewrite Hsame2. by apply Hlink.
      * by rewrite (dsu_same_roots _ _ Hs).
    + intros i j. cbn. by rewrite Hsame2.
    + intros b' [= <-]. cbn. apply Hsame2. by exists rb.
  - assert (Hdiff : ~ same_set p (cell_idx nC a) (cell_idx nC b)).
    { intros (r & H1 & H2). apply Hne.
      by rewrite (root_of_det _ _ _ _ Hra H1), (root_of_det _ _ _ _ Hrb H2). }
    assert (Hdis : ~ rtc (open_step m nR nC) a b) by by rewrite <- Hlink.
    assert (Hca : bit_clear m a d = false).
    { destruct (bit_clear m a d) eqn:E; [|done]. exfalso. apply Hdis, rtc_once.
      apply open_step_hex. eauto. }
    assert (Hcb : bit_clear m b (getOppositeWall d) = false).
    { destruct (bit_clear m b _) eqn:E; [|done]. exfalso. apply Hdis, rtc_once.
      apply open_step_sym; [done..|]. apply open_step_hex. eauto. }
    destruct (grid_get m a Hwf Ha) as [v1 Hv1]. change (arr_get m r1 c1) with (arr_get m a.1 a.2).
    rewrite Hv1. cbn [mbind option_bind].
    pose proof (arr_set_is_Some m a.1 a.2 (clear_bit v1 d) Hwf (grid_ok a Ha)) as Hm1.
    change (arr_set m r1 c1) with (arr_set m a.1 a.2). rewrite Hm1. cbn [mbind option_bind].
    set (m1 := <[arr_index a.1 a.2 := clear_bit v1 d]> m) in *.
    assert (Hwf1 : arr_wf m1) by by eapply arr_set_wf.
    destruct (grid_get m1 b Hwf1 Hb) as [v2 Hv2].
    change (arr_get m1 r2 c2) with (arr_get m1 b.1 b.2). rewrite Hv2. cbn [mbind option_bind].
    pose proof (arr_set_is_Some m1 b.1 b.2 (clear_bit v2 (getOppositeWall d)) Hwf1
                  (grid_ok b Hb)) as Hm2.
    change (arr_set m1 r2 c2) with (arr_set m1 b.1 b.2). rewrite Hm2. cbn [mbind option_bind].
    set (m2 := <[arr_index b.1 b.2 := _]> m1) in *.
    assert (Hwf2 : arr_wf m2) by by eapply arr_set_wf.
    pose proof (remove_bits m a b d v1 m1 v2 m2 Hv1 Hm1 Hv2 Hm2 Hab Hd) as Hbits.
    assert (Hdiff2 : ~ same_set p2 (cell_idx nC a) (cell_idx nC b)) by by rewrite Hsame2.
    destruct (unite_ok _ p2 _ _ fuel Hdsu2 Hia Hib Hfuel Hdiff2)
      as (p3 & -> & Hdsu3 & Hroots3 & Hsame3).
    cbn [mbind option_bind]. rewrite (dsu_same_roots _ _ Hs) in Hroots3.
    pose proof (roots_nonempty p Hdsu) as Hr1.
    pose proof (removal_open_step m m2 a b d Ha Hn Hbits) as Hstep.
    pose proof (open_step_sym m Hwf Hsym) as Hosym.
    exists (mkGen m2 p3 (k + 1)). split; [done|]. split; [|split].
    + constructor; cbn.
      * done.
      * done.
      * by apply (removal_symmetric m m2 a b d).
      * by apply (removal_boundary m m2 a b d).
      * intros x y Hx Hy. rewrite Hsame3, !Hsame2, !Hlink by done. split.
        -- intros [H|[[H1 H2]|[H1 H2]]].
           ++ eapply rtc_subrel; [|exact H]. intros ? ? ?. apply Hstep. by left.
           ++ apply (rtc_trans _ a _).
              { eapply rtc_subrel; [|exact H1]. intros ? ? ?. apply Hstep. by left. }
              apply (rtc_l _ _ b); [apply Hstep; by right; left|].
              eapply rtc_subrel; [|apply (rtc_symmetric _ Hosym); exact H2].
              intros ? ? ?. apply Hstep. by left.
           ++ apply (rtc_trans _ b _).
              { eapply rtc_subrel; [|exact H1]. intros ? ? ?. apply Hstep. by left. }
              apply (rtc_l _ _ a); [apply Hstep; by right; right|].
              eapply rtc_subrel; [|apply (rtc_symmetric _ Hosym); exact H2].
              intros ? ? ?. apply Hstep. by left.
        -- intros H.
           destruct (rtc_add_edge (open_step m nR nC) (open_step m2 nR nC) a b) with x y
             as [H0|[[H1 H2]|[H1 H2]]]; [by intros ? ? ?%Hstep|done|..].
           ++ by left.
           ++ right. left. split; [done|]. by apply (rtc_symmetric _ Hosym).
           ++ right. right. split; [done|]. by apply (rtc_symmetric _ Hosym).
      * by apply (all_bridges_add_edge (open_step m nR nC) _ a b).
      * rewrite (removal_passages m m2 a b d) by done. lia.
      * lia.
    + intros i j Hij. cbn. apply Hsame3. left. by apply Hsame2.
    + intros b' [= <-]. cbn. apply Hsame3. right. left.
      split; apply Hsame2; by eapply same_set_refl.
Qed.

(** *** The removal loop *)

Lemma remove_walls_ok fuel walls st :
  (Z.to_nat (nR * nC) <= fuel)%nat -> gen_inv nR nC st ->
  (forall w, w ∈ walls -> in_grid nR nC (wall_r w, wall_c w)) ->
  exists st', remove_walls fuel nR nC (nR * nC - 1) walls st = Some st' /\
    gen_inv nR nC st' /\
    (forall i j, same_set (gs_dsu st) i j -> same_set (gs_dsu st') i j) /\
    (gs_removed st' = nR * nC - 1 \/
     forall w b, w ∈ walls ->
       hex_neighbor nR nC (wall_r w, wall_c w) (wall_direction w) = Some b ->
       same_set (gs_dsu st') (cell_idx nC (wall_r w, wall_c w)) (cell_idx nC b)).
Proof.
  intros Hfuel. revert st. induction walls as [|w walls IH]; intros st Hinv Hin.
  - exists st. split; [done|]. split; [done|]. split; [auto|]. right.
    intros w b Hw. by apply elem_of_nil in Hw.
  - cbn [remove_walls]. rewrite Z.geb_leb.
    destruct (Z.leb_spec (nR * nC - 1) (gs_removed st)) as [Hge|Hlt].
    + exists st. split; [done|]. split; [done|]. split; [auto|]. left.
      pose proof (roots_nonempty _ (gi_dsu _ _ _ Hinv)). pose proof (gi_roots _ _ _ Hinv). lia.
    + destruct (remove_wall_ok fuel st w Hfuel Hinv) as (st1 & -> & Hinv1 & Hmono1 & Hw);
        [apply Hin; left|]. cbn [mbind option_bind].
      destruct (IH st1 Hinv1) as (st' & -> & Hinv' & Hmono & Hfin);
        [intros w' Hw'; apply Hin; by right|].
      exists st'. split; [done|]. split; [done|]. split; [auto|].
      destruct Hfin as [Hfin|Hfin]; [by left|right].
      intros w' b [->|Hw']%elem_of_cons Hb; [|by apply Hfin]. by apply Hmono, Hw.
Qed.

(** *** The state before the loop *)

Lemma filter_none {A} (P : A -> Prop) `{!forall x, Decision (P x)} (l : list A) :
  (forall x, x ∈ l -> ~ P x) -> filter P l = [].
Proof.
  induction l as [|x l IH]; intros Hall; [done|].
  rewrite filter_cons_False by (apply Hall; left).
  apply IH. intros y Hy. apply Hall. by right.
Qed.

Lemma init_walls_ok m :
  arr_wf m ->
  exists m0, init_walls m nR nC = Some m0 /\ arr_wf m0 /\
    (forall a, in_grid nR nC a -> arr_get m0 a.1 a.2 = Some ALL_WALLS) /\
    (forall a, ~ in_grid nR nC a -> arr_get m0 a.1 a.2 = arr_get m a.1 a.2).
Proof.
  intros Hwf. unfold init_walls.
  destruct (foldM_arr_set ALL_WALLS (cells nR nC) m Hwf) as (m0 & -> & Hwf0 & Hget).
  { intros a Ha%elem_of_cells. by apply grid_ok. }
  exists m0. split; [done|]. split; [done|]. split.
  - intros a Ha. rewrite Hget, decide_True; [done | by apply elem_of_cells].
  - intros a Ha. rewrite Hget, decide_False; [done | by rewrite elem_of_cells].
Qed.

Lemma all_walls_inv m0 :
  arr_wf m0 -> (forall a, in_grid nR nC a -> arr_get m0 a.1 a.2 = Some ALL_WALLS) ->
  gen_inv nR nC (mkGen m0 (DSU.init (nR * nC)) 0).
Proof.
  intros Hwf Hall. pose proof grid_size as Hsz.
  assert (Hset : forall a d, in_grid nR nC a -> d ∈ directions -> bit_set m0 a d = true).
  { intros a d Ha Hd. apply bit_set_Some. exists ALL_WALLS.
    split; [by apply Hall | by apply land_ALL_WALLS]. }
  assert (Hclear : forall a d, in_grid nR nC a -> d ∈ directions -> bit_clear m0 a d = false).
  { intros a d Ha Hd. specialize (Hset a d Ha Hd).
    rewrite bit_set_negb in Hset by by apply grid_get.
    by destruct (bit_clear m0 a d). }
  assert (Hno : forall a b, ~ open_step m0 nR nC a b).
  { intros a b (Ha & d & Hn & Hc)%open_step_hex.
    rewrite Hclear in Hc; [done..|]. by eapply hex_neighbor_directions. }
  constructor; cbn.
  - done.
  - apply init_wf. lia.
  - intros a d b Ha Hd Hn. rewrite nb in Hn by done.
    pose proof (hex_neighbor_in_grid _ _ _ _ _ Hn) as Hb.
    by rewrite (Hset a d Ha Hd), (Hset b _ Hb (getOppositeWall_directions d Hd)).
  - intros a d Ha Hd _. by apply Hset.
  - intros a b Ha Hb. split.
    + intros ->%init_same_set%cell_idx_inj; [apply rtc_refl|done..].
    + intros H. destruct H as [x|x y z Hxy _]; [|by apply Hno in Hxy].
      apply (same_set_refl _ (nR * nC)); [apply init_wf; lia | by apply cell_idx_range].
  - intros a b Hab. by apply Hno in Hab.
  - unfold open_passages. rewrite filter_none; [done|].
    intros w (Hw & Hf & _)%elem_of_internalWalls. unfold passage_open.
    rewrite Hclear; [done..|]. by apply forward_directions_sub.
  - rewrite init_roots by lia. lia.
Qed.

(** *** The state after the loop *)

(** The loop writes inside the grid only. *)
Lemma remove_walls_outside fuel target walls st0 st1 a :
  remove_walls fuel nR nC target walls st0 = Some st1 ->
  (forall w, w ∈ walls -> in_grid nR nC (wall_r w, wall_c w)) ->
  ~ in_grid nR nC a ->
  arr_get (gs_maze st1) a.1 a.2 = arr_get (gs_maze st0) a.1 a.2.
Proof.
  intros Hrun Hws Ha. revert st0 st1 Hrun Hws.
  induction walls as [|w ws IH]; intros st0 st1; cbn [remove_walls].
  - by intros [= ->].
  - destruct (_ >=? _); [by intros [= ->]|].
    destruct (remove_wall fuel nR nC st0 w) as [st2|] eqn:E; [|done].
    cbn [mbind option_bind]. intros Hrun Hws.
    rewrite (IH _ _ Hrun) by (intros; apply Hws; by right).
    specialize (Hws w ltac:(left)).
    unfold remove_wall in E.
    change (getNeighbor (wall_r w) (wall_c w) (wall_direction w) nR nC)
      with (neighbor nR nC (wall_r w, wall_c w) (wall_direction w)) in E.
    rewrite nb in E by done.
    destruct (hex_neighbor nR nC _ _) as [[r2 c2]|] eqn:Hn; [|by injection E as <-].
    pose proof (hex_neighbor_in_grid _ _ _ _ _ Hn) as Hb.
    destruct (DSU.find _ _ _) as [[p1 r1]|]; [|done]. cbn [mbind option_bind] in E.
    destruct (DSU.find _ _ _) as [[p2 r2']|]; [|done]. cbn [mbind option_bind] in E.
    destruct (_ =? _); [by injection E as <-|].
    destruct (arr_get _ _ _) as [v1|]; [|done]. cbn [mbind option_bind] in E.
    destruct (arr_set _ _ _ _) as [m1|] eqn:Hm1; [|done]. cbn [mbind option_bind] in E.
    destruct (arr_get _ _ _) as [v2|]; [|done]. cbn [mbind option_bind] in E.
    destruct (arr_set m1 _ _ _) as [m2|] eqn:Hm2; [|done]. cbn [mbind option_bind] in E.
    destruct (DSU.unite _ _ _ _) as [p3|]; [|done]. injection E as <-. cbn.
    rewrite (arr_get_set_ne _ _ _ _ _ _ _ Hm2), (arr_get_set_ne _ _ _ _ _ _ _ Hm1);
      [done|intros E; apply Ha; by rewrite (surjective_pairing a), <- E..].
Qed.

Lemma generate_state_ok fuel maze walls :
  (Z.to_nat (nR * nC) <= fuel)%nat -> arr_wf maze ->
  (forall w, w ∈ walls -> in_grid nR nC (wall_r w, wall_c w)) ->
  exists st, generate_state fuel maze nR nC walls = Some st /\ gen_inv nR nC st /\
    (forall a, ~ in_grid nR nC a -> arr_get (gs_maze st) a.1 a.2 = arr_get maze a.1 a.2) /\
    (gs_removed st = nR * nC - 1 \/
     forall w b, w ∈ walls ->
       hex_neighbor nR nC (wall_r w, wall_c w) (wall_direction w) = Some b ->
       same_set (gs_dsu st) (cell_idx nC (wall_r w, wall_c w)) (cell_idx nC b)).
Proof.
  intros Hfuel Hwf Hin. pose proof grid_size as Hsz. unfold generate_state.
  destruct (init_walls_ok maze Hwf) as (m0 & -> & Hwf0 & Hall & Hout).
  cbn [mbind option_bind]. rewrite !to_u32_small by (rewrite ?to_u32_small; lia).
  destruct (remove_walls_ok fuel walls (mkGen m0 (DSU.init (nR * nC)) 0) Hfuel)
    as (st & Hrun & Hinv & _ & Hfin); [by apply all_walls_inv|done|].
  rewrite Hrun. exists st. split; [done|]. split; [done|]. split; [|done].
  intros a Ha. rewrite <- Hout by done.
  by apply (remove_walls_outside _ _ _ _ _ a Hrun).
Qed.

(** With every internal wall among the candidates, the loop ends with a
    spanning tree. *)
Lemma generate_state_full fuel maze walls :
  (Z.to_nat (nR * nC) <= fuel)%nat -> arr_wf maze ->
  (forall w, w ∈ walls <-> w ∈ internalWalls nR nC) ->
  exists st, generate_state fuel maze nR nC walls = Some st /\ gen_inv nR nC st /\
    gs_removed st = nR * nC - 1 /\ spanning_tree (gs_maze st) nR nC.
Proof.
  intros Hfuel Hwf Hall. pose proof grid_size as Hsz.
  destruct (generate_state_ok fuel maze walls Hfuel Hwf) as (st & Hrun & Hinv & _ & Hfin).
  { intros w Hw%Hall%elem_of_internalWalls. tauto. }
  exists st. split; [done|]. split; [done|].
  destruct Hinv as [Hmwf Hdsu Hsym Hrim Hlink Hbr Hpass Hroots].
  pose proof (open_step_sym _ Hmwf Hsym) as Hosym.
  assert (Horigin : in_grid nR nC (0, 0)) by (split; cbn; lia).
  assert (Hone : length (roots (gs_dsu st)) = 1%nat).
  { destruct Hfin as [Hk|Hedges]; [lia|].
    apply (same_set_one_root (nR * nC)); [done|lia|].
    intros i Hi. destruct (cell_idx_surj i Hi) as [Ha <-].
    change 0 with (cell_idx nC (0, 0)).
    apply (hex_grid_connected_ind nR nC
             (fun a => same_set (gs_dsu st) (cell_idx nC a) (cell_idx nC (0, 0))));
      [ |clear Ha|done].
    { apply (same_set_refl _ (nR * nC)); [done | by apply cell_idx_range]. }
    intros a d b Ha Hb Hn Hb0.
    apply (same_set_trans _ _ (cell_idx nC b)); [|done].
    pose proof (hex_neighbor_opposite _ _ _ _ _ Ha Hn) as Hn'.
    destruct (denotes_unique nR nC a d b) as (w0 & Hin & _ & Hw0 & _);
      [unfold MAX_ROWS, MAX_COLS in *; lia..|done|by eapply hex_neighbor_directions|done|].
    apply Hall in Hin. destruct Hw0 as [-> | ->].
    - specialize (Hedges _ b Hin). cbn in Hedges. rewrite <- surjective_pairing in Hedges.
      by apply Hedges.
    - specialize (Hedges _ a Hin). cbn in Hedges. rewrite <- surjective_pairing in Hedges.
      by apply same_set_sym, Hedges. }
  split; [lia|]. constructor.
  - done.
  - intros a b Ha Hb. apply Hlink; [done..|].
    apply (one_root_same_set (nR * nC)); [done..| |]; by apply cell_idx_range.
  - by apply all_bridges_acyclic.
  - lia.
Qed.
End grid.

(** ** Fuel *)

Lemma find_fuel_mono f f' p i x :
  (f <= f')%nat -> DSU.find f p i = Some x -> DSU.find f' p i = Some x.
Proof.
  revert f' p i x. induction f as [|f IH]; intros [|f'] p i x Hle; cbn [DSU.find];
    try done; try lia.
  destruct (vec_get p i) as [pi|]; [|done]. cbn [mbind option_bind].
  destruct (pi =? i); [done|].
  destruct (DSU.find f p pi) as [[p' r]|] eqn:E; [|done].
  by rewrite (IH f' p pi (p', r) ltac:(lia) E).
Qed.

Lemma unite_fuel_mono f f' p i j x :
  (f <= f')%nat -> DSU.unite f p i j = Some x -> DSU.unite f' p i j = Some x.
Proof.
  intros Hle. unfold DSU.unite.
  destruct (DSU.find f p i) as [[p1 r1]|] eqn:E1; [|done].
  rewrite (find_fuel_mono _ _ _ _ _ Hle E1). cbn [mbind option_bind].
  destruct (DSU.find f p1 j) as [[p2 r2]|] eqn:E2; [|done].
  by rewrite (find_fuel_mono _ _ _ _ _ Hle E2).
Qed.

Lemma remove_wall_fuel_mono f f' nR nC st w st' :
  (f <= f')%nat -> remove_wall f nR nC st w = Some st' ->
  remove_wall f' nR nC st w = Some st'.
Proof.
  intros Hle. unfold remove_wall. destruct (getNeighbor _ _ _ _ _) as [[r2 c2]|]; [|done].
  destruct (DSU.find f _ _) as [[p1 r1]|] eqn:E1; [|done].
  rewrite (find_fuel_mono _ _ _ _ _ Hle E1). cbn [mbind option_bind].
  destruct (DSU.find f p1 _) as [[p2 r2']|] eqn:E2; [|done].
  rewrite (find_fuel_mono _ _ _ _ _ Hle E2). cbn [mbind option_bind].
  destruct (_ =? _); [done|].
  destruct (arr_get _ _ _) as [v1|]; [|done]. cbn [mbind option_bind].
  destruct (arr_set _ _ _ _) as [m1|]; [|done]. cbn [mbind option_bind].
  destruct (arr_get _ _ _) as [v2|]; [|done]. cbn [mbind option_bind].
  destruct (arr_set _ _ _ _) as [m2|]; [|done]. cbn [mbind option_bind].
  destruct (DSU.unite f _ _ _) as [p3|] eqn:E3; [|done].
  by rewrite (unite_fuel_mono _ _ _ _ _ _ Hle E3).
Qed.

Lemma remove_walls_fuel_mono f f' nR nC target walls st st' :
  (f <= f')%nat -> remove_walls f nR nC target walls st = Some st' ->
  remove_walls f' nR nC target walls st = Some st'.
Proof.
  intros Hle. revert st. induction walls as [|w ws IH]; intros st; cbn [remove_walls];
    [done|].
  destruct (_ >=? _); [done|].
  destruct (remove_wall f nR nC st w) as [st1|] eqn:E; [|done].
  rewrite (remove_wall_fuel_mono _ _ _ _ _ _ _ Hle E). cbn [mbind option_bind]. apply IH.
Qed.

Lemma generate_state_fuel_mono f f' maze nR nC walls st :
  (f <= f')%nat -> generate_state f maze nR nC walls = Some st ->
  generate_state f' maze nR nC walls = Some st.
Proof.
  intros Hle. unfold generate_state. destruct (init_walls _ _ _); [|done].
  cbn [mbind option_bind]. by apply remove_walls_fuel_mono.
Qed.

(** ** The loop, piece by piece *)

(** Running the loop over a list is running it over a prefix and then over
    the rest: the state after a prefix is a state the loop passes through,
    or the one it stopped in. *)
Lemma remove_walls_app fuel nR nC target ws1 ws2 st :
  remove_walls fuel nR nC target (ws1 ++ ws2) st =
  remove_walls fuel nR nC target ws1 st ≫= remove_walls fuel nR nC target ws2.
Proof.
  revert st. induction ws1 as [|w ws1 IH]; intros st; cbn [remove_walls app].
  - done.
  - destruct (gs_removed st >=? target) eqn:E.
    + cbn [mbind option_bind]. destruct ws2; cbn [remove_walls]; [done | by rewrite E].
    + destruct (remove_wall fuel nR nC st w) as [st1|]; [|done].
      cbn [mbind option_bind]. apply IH.
Qed.

(** ** The grid does not steer the loop *)

Lemma remove_walls_indep fuel nR nC target walls st0 st0' st1 :
  gs_dsu st0 = gs_dsu st0' -> gs_removed st0 = gs_removed st0' ->
  length (gs_maze st0) = length (gs_maze st0') ->
  remove_walls fuel nR nC target walls st0 = Some st1 ->
  exists st1', remove_walls fuel nR nC target walls st0' = Some st1' /\
    gs_dsu st1 = gs_dsu st1' /\ gs_removed st1 = gs_removed st1' /\
    forall r c, arr_get (gs_maze st0) r c = arr_get (gs_maze st0') r c ->
                arr_get (gs_maze st1) r c = arr_get (gs_maze st1') r c.
Proof.
  revert st0 st0' st1. induction walls as [|w ws IH];
    intros [m p k] [m' p' k'] st1; cbn [gs_dsu gs_removed gs_maze remove_walls];
    intros <- <- Hlen.
  - intros [= <-]. eexists. split; [done|]. cbn. auto.
  - destruct (k >=? target); [intros [= <-]; eexists; split; [done|]; cbn; auto|].
    unfold remove_wall. cbn [gs_dsu gs_removed gs_maze].
    destruct (getNeighbor _ _ _ _ _) as [[r2 c2]|].
    2:{ cbn [mbind option_bind]. intros Hrun.
        destruct (IH (mkGen m p k) (mkGen m' p k) _ eq_refl eq_refl Hlen Hrun) as (st1' & ? & ? & ? & ?).
        eauto. }
    destruct (DSU.find _ _ _) as [[p1 r1]|]; [|done]. cbn [mbind option_bind].
    destruct (DSU.find _ _ _) as [[p2 r2']|]; [|done]. cbn [mbind option_bind].
    destruct (_ =? _).
    { intros Hrun.
      destruct (IH (mkGen m p2 k) (mkGen m' p2 k) _ eq_refl eq_refl Hlen Hrun) as (st1' & ? & ? & ? & ?).
      eauto. }
    destruct (arr_get m _ _) as [v1|] eqn:Hv1; [|done]. cbn [mbind option_bind].
    destruct (arr_set m _ _ _) as [m1|] eqn:Hm1; [|done]. cbn [mbind option_bind].
    destruct (arr_get m1 _ _) as [v2|] eqn:Hv2; [|done]. cbn [mbind option_bind].
    destruct (arr_set m1 _ _ _) as [m2|] eqn:Hm2; [|done]. cbn [mbind option_bind].
    destruct (DSU.unite _ _ _ _) as [p3|]; [|done]. cbn [mbind option_bind].
    intros Hrun.
    pose proof (arr_set_Some _ _ _ _ _ Hm1) as (Hok1 & Hlt1 & Em1).
    pose proof (arr_set_Some _ _ _ _ _ Hm2) as (Hok2 & Hlt2 & Em2).
    assert (is_Some (arr_get m' (wall_r w) (wall_c w))) as [v1' Hv1'].
    { unfold arr_get. rewrite Hok1. apply lookup_lt_is_Some. by rewrite <- Hlen. }
    rewrite Hv1'. cbn [mbind option_bind].
    assert (Hm1' : arr_set m' (wall_r w) (wall_c w) (clear_bit v1' (wall_direction w))
                   = Some (<[arr_index (wall_r w) (wall_c w) := clear_bit v1' (wall_direction w)]> m')).
    { unfold arr_set. rewrite Hok1. rewrite <- Hlen.
      by rewrite (proj2 (Nat.ltb_lt _ _) Hlt1). }
    rewrite Hm1'. cbn [mbind option_bind].
    set (m1' := <[_ := _]> m') in *.
    assert (Hlen1 : length m1 = length m1').
    { rewrite Em1. unfold m1'. by rewrite !length_insert. }
    assert (is_Some (arr_get m1' r2 c2)) as [v2' Hv2'].
    { unfold arr_get. rewrite Hok2. apply lookup_lt_is_Some. by rewrite <- Hlen1. }
    rewrite Hv2'. cbn [mbind option_bind].
    assert (Hm2' : arr_set m1' r2 c2 (clear_bit v2' (getOppositeWall (wall_direction w)))
                   = Some (<[arr_index r2 c2 :=
                               clear_bit v2' (getOppositeWall (wall_direction w))]> m1')).
    { unfold arr_set. rewrite Hok2. rewrite <- Hlen1.
      by rewrite (proj2 (Nat.ltb_lt _ _) Hlt2). }
    rewrite Hm2'. cbn [mbind option_bind].
    set (m2' := <[_ := _]> m1') in *.
    assert (Hlen2 : length m2 = length m2').
    { rewrite Em2. unfold m2'. by rewrite !length_insert. }
    destruct (IH (mkGen m2 p3 (to_u32 (k + 1))) (mkGen m2' p3 (to_u32 (k + 1))) _ eq_refl eq_refl Hlen2 Hrun)
      as (st1' & Hrun' & ? & ? & Hagree).
    exists st1'. split; [done|]. split; [done|]. split; [done|].
    intros r c Hrc. apply Hagree. cbn [gs_maze] in *.
    assert (Hstep1 : arr_get m1 r c = arr_get m1' r c).
    { rewrite (arr_get_set _ _ _ _ _ r c Hm1), (arr_get_set _ _ _ _ _ r c Hm1').
      case_decide as E; [|done]. injection E as <- <-. congruence. }
    rewrite (arr_get_set _ _ _ _ _ r c Hm2), (arr_get_set _ _ _ _ _ r c Hm2').
    case_decide as E; [|done]. injection E as <- <-. congruence.
Qed.

(** * The solver *)

(** ** The distance table *)

Lemma count_set_is_Some count r c v :
  arr_wf count -> arr_ok r c = true ->
  count_set count r c v = Some (<[arr_index r c := Some v]> count).
Proof. apply arr_set_is_Some. Qed.

Lemma count_set_wf count r c v count' :
  count_set count r c v = Some count' -> arr_wf count -> arr_wf count'.
Proof. apply arr_set_wf. Qed.

Lemma dist_set count a v count' b :
  count_set count a.1 a.2 v = Some count' ->
  dist count' b = if decide (a = b) then Some v else dist count b.
Proof.
  intros H. unfold dist, count_get. rewrite (arr_get_set _ _ _ _ _ b.1 b.2 H).
  destruct a as [r c], b as [r' c']. cbn. by destruct (decide ((r, c) = (r', c'))).
Qed.

Lemma count_ext_refl count : count_ext count count.
Proof. by intros a x. Qed.

Lemma count_ext_trans c1 c2 c3 : count_ext c1 c2 -> count_ext c2 c3 -> count_ext c1 c3.
Proof. intros H1 H2 a x Ha Hx. apply H2; [|done]. by apply H1. Qed.

Lemma dir_closed_ext maze nR nC count count' v e :
  count_ext count count' -> dir_closed maze nR nC count v e ->
  dir_closed maze nR nC count' v e.
Proof.
  intros Hext Hc b Hn Hb. destruct (Hc b Hn Hb) as (vb & dv & H1 & H2 & H3 & H4).
  exists vb, dv. split; [apply Hext; [done|lia]|]. split; [apply Hext; [done|lia]|]. done.
Qed.

(** ** Same walls *)

Lemma same_walls_refl m : same_walls m m.
Proof. split; [done|]. intros r c v Hv. eauto. Qed.

Lemma same_walls_trans m1 m2 m3 : same_walls m1 m2 -> same_walls m2 m3 -> same_walls m1 m3.
Proof.
  intros [Hl1 H1] [Hl2 H2]. split; [congruence|]. intros r c v Hv.
  destruct (H1 r c v Hv) as (v' & Hv' & E). destruct (H2 r c v' Hv') as (v'' & Hv'' & E').
  exists v''. split; [done | congruence].
Qed.

Lemma same_walls_wf m m' : same_walls m m' -> arr_wf m -> arr_wf m'.
Proof. intros [Hl _] Hwf. unfold arr_wf in *. congruence. Qed.

Lemma same_walls_set m r c v m' v' :
  arr_get m r c = Some v -> arr_set m r c v' = Some m' ->
  Z.land v' NOT_VISITED_MASK = Z.land v NOT_VISITED_MASK ->
  same_walls m m'.
Proof.
  intros Hv Hset E. split; [by eapply arr_set_length|]. intros r' c' w Hw.
  rewrite (arr_get_set _ _ _ _ _ r' c' Hset). case_decide as Eq.
  - injection Eq as <- <-. exists v'. split; [done | congruence].
  - eauto.
Qed.

Lemma same_walls_bit_clear m m' a d :
  same_walls m m' -> d ∈ directions -> is_Some (arr_get m a.1 a.2) ->
  bit_clear m' a d = bit_clear m a d.
Proof.
  intros [_ H] Hd [v Hv]. destruct (H _ _ _ Hv) as (v' & Hv' & E).
  unfold bit_clear. rewrite Hv, Hv'. by rewrite (land_mask_direction v' v d Hd E).
Qed.

(** ** Step 1: the two tables after initialisation *)

Lemma bit_set_clear_VISITED m a v m' :
  arr_set m a.1 a.2 (clear_bit v VISITED) = Some m' -> bit_set m' a VISITED = false.
Proof.
  intros Hset. unfold bit_set. rewrite (arr_get_set_eq _ _ _ _ _ Hset).
  rewrite VISITED_pow2, land_clear_bit_same by lia. reflexivity.
Qed.

Lemma bit_set_other m a v m' b bit :
  arr_set m a.1 a.2 v = Some m' -> a <> b -> bit_set m' b bit = bit_set m b bit.
Proof.
  intros Hset Hne. unfold bit_set. rewrite (arr_get_set_ne _ _ _ _ _ b.1 b.2 Hset); [done|].
  destruct a, b; cbn; congruence.
Qed.

Lemma solve_init_fold (l : list cell) count m :
  arr_wf count -> arr_wf m -> (forall a, a ∈ l -> arr_ok a.1 a.2 = true) ->
  exists count' m',
    foldM (fun '(count, m) a =>
             count' ← count_set count a.1 a.2 (-1);
             v ← arr_get m a.1 a.2;
             m' ← arr_set m a.1 a.2 (clear_bit v VISITED);
             Some (count', m')) (count, m) l = Some (count', m') /\
    arr_wf count' /\ same_walls m m' /\
    (forall a, a ∈ l \/ dist count a = Some (-1) -> dist count' a = Some (-1)) /\
    (forall a, a ∈ l \/ bit_set m a VISITED = false -> bit_set m' a VISITED = false).
Proof.
  revert count m. induction l as [|x l IH]; intros count m Hc Hm Hok.
  - exists count, m. split; [done|]. split; [done|]. split; [apply same_walls_refl|].
    split; intros a [Ha|Ha]; try done; by apply elem_of_nil in Ha.
  - cbn [foldM]. pose proof (Hok x ltac:(left)) as Hx.
    pose proof (count_set_is_Some count x.1 x.2 (-1) Hc Hx) as Hc1. rewrite Hc1.
    cbn [mbind option_bind].
    destruct (arr_get_is_Some m x.1 x.2 Hm Hx) as [v Hv]. rewrite Hv. cbn [mbind option_bind].
    pose proof (arr_set_is_Some m x.1 x.2 (clear_bit v VISITED) Hm Hx) as Hm1. rewrite Hm1.
    cbn [mbind option_bind].
    set (count1 := <[_ := _]> count) in *. set (m1 := <[_ := _]> m) in *.
    destruct (IH count1 m1) as (count' & m' & -> & Hc' & Hsame & Hd & Hb).
    { by eapply count_set_wf. } { by eapply arr_set_wf. }
    { intros a Ha. apply Hok. by right. }
    exists count', m'. split; [done|]. split; [done|]. split; [|split].
    + eapply same_walls_trans; [|exact Hsame].
      eapply same_walls_set; [exact Hv | exact Hm1 | apply land_mask_clear_VISITED].
    + intros a Ha. apply Hd.
      destruct (decide (x = a)) as [->|Hne].
      * right. by rewrite (dist_set _ _ _ _ a Hc1), decide_True.
      * destruct Ha as [[->|Ha]%elem_of_cons|Ha]; [done|by left|].
        right. by rewrite (dist_set _ _ _ _ a Hc1), decide_False.
    + intros a Ha. apply Hb.
      destruct (decide (x = a)) as [->|Hne].
      * right. by eapply bit_set_clear_VISITED.
      * destruct Ha as [[->|Ha]%elem_of_cons|Ha]; [done|by left|].
        right. by rewrite (bit_set_other _ _ _ _ _ _ Hm1 Hne).
Qed.

Lemma count_new_wf : arr_wf count_new.
Proof. unfold arr_wf, count_new. apply length_replicate. Qed.

Section solver.
Context (nR nC : Z).
Hypothesis HnR : 1 <= nR <= MAX_ROWS.
Hypothesis HnC : 1 <= nC <= MAX_COLS.

Lemma solve_init_ok maze :
  arr_wf maze ->
  exists count maze1, solve_init maze nR nC = Some (count, maze1) /\
    arr_wf count /\ same_walls maze maze1 /\
    (forall a, in_grid nR nC a -> dist count a = Some (-1)) /\
    (forall a, in_grid nR nC a -> bit_set maze1 a VISITED = false).
Proof.
  intros Hwf. unfold solve_init.
  destruct (solve_init_fold (cells nR nC) count_new maze count_new_wf Hwf)
    as (count & maze1 & -> & Hc & Hsame & Hd & Hb).
  { intros a Ha%elem_of_cells. by apply (grid_ok nR nC). }
  exists count, maze1. split; [done|]. split; [done|]. split; [done|].
  split; intros a Ha; [apply Hd | apply Hb]; left; by apply elem_of_cells.
Qed.

Lemma goal_in_grid : in_grid nR nC (goal_cell nR nC).
Proof. unfold goal_cell, in_grid. cbn. lia. Qed.

Lemma start_in_grid : in_grid nR nC start_cell.
Proof. unfold start_cell, in_grid. cbn. lia. Qed.

Lemma cell_idx_decode a :
  in_grid nR nC a -> cell_idx nC a / nC = a.1 /\ cell_idx nC a mod nC = a.2.
Proof.
  intros [Hr Hc]. unfold cell_idx.
  rewrite (Z.add_comm (a.1 * nC)), Z.div_add, Z.mod_add by lia.
  rewrite Z.div_small, Z.mod_small by lia. lia.
Qed.

(** The cells of the grid number [nR * nC]; a duplicate-free list of
    cells of the grid is no longer. *)
Lemma length_cells : length (cells nR nC) = Z.to_nat (nR * nC).
Proof.
  unfold cells.
  assert (H : forall (l : list Z) k, 0 <= k ->
            length (l ≫= fun r => seqZ 0 k ≫= fun c => [(r, c)])
            = (length l * Z.to_nat k)%nat).
  { intros l k Hk. induction l as [|r l IH]; [done|]. cbn [mbind list_bind mbind].
    change (list_bind ?f ?l) with (l ≫= f) in *.
    rewrite length_app, IH. cbn [length]. f_equal.
    assert (E : forall (l' : list Z), length (l' ≫= fun c => [(r, c)]) = length l').
    { induction l' as [|c l' IH']; [done|]. cbn. f_equal. apply IH'. }
    by rewrite E, length_seqZ. }
  rewrite H, length_seqZ by lia. lia.
Qed.

Lemma grid_list_length (l : list cell) :
  NoDup l -> (forall a, a ∈ l -> in_grid nR nC a) ->
  (length l <= Z.to_nat (nR * nC))%nat.
Proof.
  intros Hnd Hin. rewrite <- length_cells.
  apply submseteq_length, NoDup_submseteq; [done|].
  intros a Ha. apply elem_of_cells. by apply Hin.
Qed.

(** ** Step 3: the traversal *)

Section traversal.
Context (m : list Z).
Hypothesis Hm : arr_wf m.

Local Abbreviation R := (open_step m nR nC).
Local Abbreviation idx := (cell_idx nC).

Lemma bfs_inv_dist_front qg lc count v rest :
  bfs_inv m nR nC qg lc count -> qg = v :: rest ->
  in_grid nR nC v /\ exists dv, dist count v = Some dv /\
    0 <= dv < Z.of_nat (length lc).
Proof.
  intros Hinv ->.
  assert (Hv : v ∈ lc) by (apply (bi_queue _ _ _ _ _ _ Hinv); left).
  pose proof (bi_log_grid _ _ _ _ _ _ Hinv v Hv) as Hg. split; [done|].
  destruct (bi_vals _ _ _ _ _ _ Hinv v Hg) as (dv & Hdv & Hr).
  exists dv. split; [done|].
  apply (bi_log _ _ _ _ _ _ Hinv v Hg) in Hv.
  assert (dv <> -1) by congruence. lia.
Qed.

(** One direction out of the cell at the front of the queue. *)
Lemma bfs_visit_ok v rest lc count e :
  bfs_inv m nR nC (v :: rest) lc count ->
  exists new count',
    bfs_visit m nR nC v.1 v.2 (mkBfs count (idx <$> rest) (idx <$> lc)) e
    = Some (mkBfs count' (idx <$> (rest ++ new)) (idx <$> (lc ++ new))) /\
    bfs_inv m nR nC (v :: rest ++ new) (lc ++ new) count' /\
    count_ext count count' /\ dir_closed m nR nC count' v e.
Proof.
  intros Hinv. pose proof (grid_size nR nC HnR HnC) as Hsz.
  destruct (bfs_inv_dist_front _ _ _ v rest Hinv eq_refl) as (Hv & dv & Hdv & Hdvr).
  pose proof (grid_list_length lc (bi_log_nodup _ _ _ _ _ _ Hinv)
                (bi_log_grid _ _ _ _ _ _ Hinv)) as Hlen.
  assert (Hstay : exists new count',
    Some (mkBfs count (idx <$> rest) (idx <$> lc))
    = Some (mkBfs count' (idx <$> (rest ++ new)) (idx <$> (lc ++ new))) /\
    bfs_inv m nR nC (v :: rest ++ new) (lc ++ new) count' /\ count_ext count count').
  { exists [], count. rewrite !app_nil_r.
    split; [done|]. split; [done | apply count_ext_refl]. }
  unfold bfs_visit. cbn [bfs_count bfs_queue bfs_pushed].
  destruct (grid_get nR nC HnR HnC m v Hm Hv) as [val Hval]. rewrite Hval.
  cbn [mbind option_bind].
  destruct (Z.eqb_spec (Z.land val e) 0) as [Hopen|Hwall].
  2:{ destruct Hstay as (new & count' & ? & ? & ?). exists new, count'.
      split; [done|]. split; [done|]. split; [done|].
      intros b _ Hb. unfold bit_clear in Hb.
      rewrite Hval in Hb. by apply Z.eqb_eq in Hb. }
  change (getNeighbor v.1 v.2 e nR nC) with (neighbor nR nC v e).
  rewrite (nb nR nC HnR HnC) by done.
  destruct (hex_neighbor nR nC v e) as [[r2 c2]|] eqn:Hn.
  2:{ destruct Hstay as (new & count' & ? & ? & ?). exists new, count'.
      split; [done|]. split; [done|]. split; [done|].
      intros b' Hb'. rewrite Hn in Hb'. done. }
  set (b := (r2, c2)) in *.
  pose proof (hex_neighbor_in_grid _ _ _ _ _ Hn) as Hb.
  assert (HRvb : R v b).
  { apply (open_step_hex nR nC HnR HnC). split; [done|]. exists e. split; [done|].
    unfold bit_clear. rewrite Hval. by apply Z.eqb_eq. }
  destruct (bi_vals _ _ _ _ _ _ Hinv b Hb) as (vb & Hvb & Hvbr).
  change (count_get count r2 c2) with (dist count b). rewrite Hvb.
  cbn [mbind option_bind].
  destruct (Z.eqb_spec vb (-1)) as [->|Hvisited].
  2:{ (* already reached *)
      destruct Hstay as (new & count' & ? & Hinv' & Hext). exists new, count'.
      split; [done|]. split; [done|]. split; [done|].
      intros b' Hb' _. rewrite Hn in Hb'. injection Hb' as <-.
      exists vb, dv. split; [apply Hext; done|]. split; [apply Hext; [done|lia]|].
      split; [lia|]. split; [lia|].
      assert (Hbl : b ∈ lc) by (apply (bi_log _ _ _ _ _ _ Hinv b Hb); congruence).
      destruct (decide (b ∈ v :: rest)) as [[->|Hbr]%elem_of_cons|Hout].
      - assert (vb = dv) by congruence. lia.
      - destruct (bi_window _ _ _ _ _ _ Hinv v rest dv eq_refl Hdv)
          as (l1 & l2 & -> & H1 & H2).
        apply elem_of_app in Hbr as [Hbr|Hbr].
        + rewrite (H1 b Hbr) in Hvb. injection Hvb as <-. lia.
        + rewrite (H2 b Hbr) in Hvb. injection Hvb as <-. lia.
      - pose proof (bi_done _ _ _ _ _ _ Hinv b v rest vb dv Hbl Hout eq_refl Hvb Hdv).
        lia. }
  (* a new cell *)
  clear Hstay.
  change (count_get count v.1 v.2) with (dist count v). rewrite Hdv.
  cbn [mbind option_bind].
  rewrite to_int_small by lia.
  pose proof (count_set_is_Some count b.1 b.2 (dv + 1) (bi_wf _ _ _ _ _ _ Hinv)
                (grid_ok nR nC HnR HnC b Hb)) as Hset.
  change (count_set count r2 c2) with (count_set count b.1 b.2). rewrite Hset.
  cbn [mbind option_bind]. set (count' := <[_ := _]> count) in *.
  change (r2 * nC + c2) with (idx b).
  pose proof (cell_idx_range nR nC HnR HnC b Hb).
  rewrite to_u32_small by lia.
  exists [b], count'. rewrite !fmap_app. split; [done|].
  assert (Hbl : b ∉ lc).
  { intros Hbl. by apply (bi_log _ _ _ _ _ _ Hinv b Hb) in Hbl. }
  assert (Hd' : forall a, dist count' a = if decide (b = a) then Some (dv + 1) else dist count a)
    by (intros a; by apply dist_set).
  assert (Hold : forall a, a ∈ lc -> dist count' a = dist count a).
  { intros a Ha. rewrite Hd', decide_False; [done|]. by intros <-. }
  assert (Hext : count_ext count count').
  { intros a x Ha Hx. rewrite Hd'. case_decide as E; [|done]. subst a. congruence. }
  split; [|split; [done|]].
  - constructor.
    + exact (count_set_wf _ _ _ _ _ Hset (bi_wf _ _ _ _ _ _ Hinv)).
    + intros a Ha. rewrite Hd', length_app. cbn [length]. case_decide.
      * eexists. split; [done|]. lia.
      * destruct (bi_vals _ _ _ _ _ _ Hinv a Ha) as (x & Hx & ?).
        exists x. split; [done|]. lia.
    + rewrite Hd', decide_False; [apply (bi_goal _ _ _ _ _ _ Hinv)|].
      intros E. pose proof (bi_goal _ _ _ _ _ _ Hinv) as Hg. rewrite <- E in Hg.
      congruence.
    + intros a x Ha. rewrite Hd'. case_decide as E.
      * subst a. intros [= <-] _. replace (Z.to_nat (dv + 1)) with (S (Z.to_nat dv)) by lia.
        eapply nsteps_r; [|exact HRvb].
        apply (bi_reach _ _ _ _ _ _ Hinv); [done|done|lia].
      * by apply (bi_reach _ _ _ _ _ _ Hinv).
    + intros a [Ha| ->%list_elem_of_singleton]%elem_of_app; [|done].
      by apply (bi_log_grid _ _ _ _ _ _ Hinv).
    + apply NoDup_app. split; [apply (bi_log_nodup _ _ _ _ _ _ Hinv)|].
      split; [|apply NoDup_singleton].
      intros a Ha ->%list_elem_of_singleton. done.
    + intros a Ha. rewrite Hd', elem_of_app, list_elem_of_singleton. case_decide as E.
      * subst a. split; [intros _; intros [=]; lia | auto].
      * rewrite (bi_log _ _ _ _ _ _ Hinv a Ha). split; [by intros [?|?]|auto].
    + intros a [->|[Ha| ->%list_elem_of_singleton]%elem_of_app]%elem_of_cons;
        apply elem_of_app; [left|left|right; left].
      * apply (bi_queue _ _ _ _ _ _ Hinv); left.
      * apply (bi_queue _ _ _ _ _ _ Hinv); by right.
    + intros v0 rest0 dv0 [= <- <-] Hdv0.
      assert (Hvl : v ∈ lc) by (apply (bi_queue _ _ _ _ _ _ Hinv); left).
      rewrite (Hold v Hvl), Hdv in Hdv0. injection Hdv0 as <-.
      destruct (bi_window _ _ _ _ _ _ Hinv v rest dv eq_refl Hdv)
        as (l1 & l2 & -> & H1 & H2).
      exists l1, (l2 ++ [b]). split; [by rewrite <- app_assoc|]. split.
      * intros x Hx. rewrite Hold; [by apply H1|].
        apply (bi_queue _ _ _ _ _ _ Hinv). right. apply elem_of_app. by left.
      * intros x [Hx| ->%list_elem_of_singleton]%elem_of_app.
        -- rewrite Hold; [by apply H2|].
           apply (bi_queue _ _ _ _ _ _ Hinv). right. apply elem_of_app. by right.
        -- by rewrite Hd', decide_True.
    + intros a c va Ha Hq Hac Hva.
      assert (Hal : a ∈ lc).
      { apply elem_of_app in Ha as [Ha| ->%list_elem_of_singleton]; [done|].
        exfalso. apply Hq. right. apply elem_of_app. right. left. }
      assert (Haq : a ∉ v :: rest).
      { intros [->|Har]%elem_of_cons; apply Hq; [left|].
        right. apply elem_of_app. by left. }
      rewrite (Hold a Hal) in Hva.
      destruct (bi_closed _ _ _ _ _ _ Hinv a c va Hal Haq Hac Hva) as (vc & Hvc & ?).
      exists vc. split; [|done]. apply Hext; [done|lia].
    + intros a v0 rest0 va dv0 Ha Hq [= <- <-] Hva Hdv0.
      assert (Hal : a ∈ lc).
      { apply elem_of_app in Ha as [Ha| ->%list_elem_of_singleton]; [done|].
        exfalso. apply Hq. right. apply elem_of_app. right. left. }
      assert (Haq : a ∉ v :: rest).
      { intros [->|Har]%elem_of_cons; apply Hq; [left|].
        right. apply elem_of_app. by left. }
      assert (Hvl : v ∈ lc) by (apply (bi_queue _ _ _ _ _ _ Hinv); left).
      rewrite (Hold a Hal) in Hva. rewrite (Hold v Hvl) in Hdv0.
      by apply (bi_done _ _ _ _ _ _ Hinv a v rest va dv0).
  - intros b' Hb' _. rewrite Hn in Hb'. injection Hb' as <-. exists (dv + 1), dv.
    split; [by rewrite Hd', decide_True|].
    split; [apply Hext; [done|lia]|]. lia.
Qed.

(** The six directions out of the cell at the front of the queue. *)
Lemma bfs_visits_ok dirs v rest lc count :
  bfs_inv m nR nC (v :: rest) lc count ->
  exists new count',
    foldM (bfs_visit m nR nC v.1 v.2) (mkBfs count (idx <$> rest) (idx <$> lc)) dirs
    = Some (mkBfs count' (idx <$> (rest ++ new)) (idx <$> (lc ++ new))) /\
    bfs_inv m nR nC (v :: rest ++ new) (lc ++ new) count' /\
    count_ext count count' /\
    forall e, e ∈ dirs -> dir_closed m nR nC count' v e.
Proof.
  revert rest lc count. induction dirs as [|e dirs IH]; intros rest lc count Hinv.
  - exists [], count. rewrite !app_nil_r. split; [done|]. split; [done|].
    split; [apply count_ext_refl|]. intros e He. by apply elem_of_nil in He.
  - cbn [foldM].
    destruct (bfs_visit_ok v rest lc count e Hinv) as (new1 & count1 & -> & Hinv1 & Hext1 & Hc1).
    cbn [mbind option_bind].
    destruct (IH _ _ _ Hinv1) as (new2 & count2 & -> & Hinv2 & Hext2 & Hc2).
    exists (new1 ++ new2), count2. rewrite !app_assoc. split; [done|]. split; [done|].
    split; [by eapply count_ext_trans|].
    intros e' [->|He']%elem_of_cons; [by eapply dir_closed_ext | by apply Hc2].
Qed.

(** The expanded cell leaves the queue. *)
Lemma bfs_inv_pop v rest lc count :
  bfs_inv m nR nC (v :: rest) lc count ->
  (forall e, e ∈ directions -> dir_closed m nR nC count v e) ->
  bfs_inv m nR nC rest lc count.
Proof.
  intros Hinv Hclosed.
  destruct (bfs_inv_dist_front _ _ _ v rest Hinv eq_refl) as (Hv & dv & Hdv & Hdvr).
  destruct (bi_window _ _ _ _ _ _ Hinv v rest dv eq_refl Hdv) as (l1 & l2 & Hrest & H1 & H2).
  assert (Hfront : forall v' rest' dv', rest = v' :: rest' -> dist count v' = Some dv' ->
            dv <= dv' /\ exists l1' l2', rest' = l1' ++ l2' /\
              (forall x, x ∈ l1' -> dist count x = Some dv') /\
              (forall x, x ∈ l2' -> dist count x = Some (dv' + 1))).
  { intros v' rest' dv' E Hdv'. rewrite E in Hrest. destruct l1 as [|x l1].
    - cbn in Hrest. subst l2.
      assert (dv' = dv + 1) as ->.
      { specialize (H2 v' ltac:(left)). congruence. }
      split; [lia|]. exists rest', []. rewrite app_nil_r. split; [done|].
      split; [|intros x Hx; by apply elem_of_nil in Hx].
      intros x Hx. apply H2. by right.
    - injection Hrest as <- ->.
      assert (dv' = dv) as ->.
      { specialize (H1 v' ltac:(left)). congruence. }
      split; [lia|]. exists l1, l2. split; [done|]. split; [|done].
      intros x Hx. apply H1. by right. }
  constructor; try apply Hinv.
  - intros a Ha. apply (bi_queue _ _ _ _ _ _ Hinv). by right.
  - intros v' rest' dv' E Hdv'. by destruct (Hfront v' rest' dv' E Hdv') as [_ ?].
  - intros a b va Ha Hq Hab Hva.
    destruct (decide (a = v)) as [->|Hne].
    + apply (open_step_hex nR nC HnR HnC) in Hab as (_ & e & Hn & Hc).
      destruct (Hclosed e (hex_neighbor_directions _ _ _ _ _ Hn) b Hn Hc)
        as (vb & dv0 & Hvb & Hdv0 & ? & ?).
      exists vb. split; [done|]. assert (dv0 = va) by congruence. lia.
    + apply (bi_closed _ _ _ _ _ _ Hinv a b va); try done.
      by intros [?|?]%elem_of_cons.
  - intros a v' rest' va dv' Ha Hq E Hva Hdv'.
    destruct (Hfront v' rest' dv' E Hdv') as [Hle _].
    destruct (decide (a = v)) as [->|Hne].
    + assert (va = dv) by congruence. lia.
    + pose proof (bi_done _ _ _ _ _ _ Hinv a v rest va dv Ha) as Hd.
      specialize (Hd ltac:(by intros [?|?]%elem_of_cons) eq_refl Hva Hdv). lia.
Qed.

(** The loop ends, with the queue empty. *)
Lemma bfs_loop_ok fuel qg lc count :
  bfs_inv m nR nC qg lc count ->
  (length qg + Z.to_nat (nR * nC) + 1 <= fuel + length lc)%nat ->
  exists lc' count',
    bfs_loop fuel m nR nC (mkBfs count (idx <$> qg) (idx <$> lc))
    = Some (mkBfs count' [] (idx <$> lc')) /\
    bfs_inv m nR nC [] lc' count'.
Proof.
  revert qg lc count. induction fuel as [|fuel IH]; intros qg lc count Hinv Hfuel.
  - pose proof (grid_list_length lc (bi_log_nodup _ _ _ _ _ _ Hinv)
                  (bi_log_grid _ _ _ _ _ _ Hinv)). lia.
  - cbn [bfs_loop bfs_queue bfs_count bfs_pushed]. destruct qg as [|v rest].
    + exists lc, count. by split.
    + cbn [fmap list_fmap].
      destruct (bfs_inv_dist_front _ _ _ v rest Hinv eq_refl) as (Hv & _).
      destruct (cell_idx_decode v Hv) as [-> ->].
      destruct (bfs_visits_ok directions v rest lc count Hinv)
        as (new & count' & Hrun & Hinv' & _ & Hclosed).
      change (list_fmap cell Z idx rest) with (idx <$> rest).
      rewrite Hrun. cbn [mbind option_bind].
      apply IH; [by apply (bfs_inv_pop v)|].
      rewrite !length_app. cbn [length] in Hfuel. lia.
Qed.

(** The state before the loop. *)
Lemma bfs_inv_init count count1 :
  arr_wf count -> (forall a, in_grid nR nC a -> dist count a = Some (-1)) ->
  count_set count (nR - 1) (nC - 1) 0 = Some count1 ->
  bfs_inv m nR nC [goal_cell nR nC] [goal_cell nR nC] count1.
Proof.
  intros Hc Hall Hset.
  assert (Hd : forall a, dist count1 a
            = if decide (goal_cell nR nC = a) then Some 0 else dist count a)
    by (intros a; by apply (dist_set count (goal_cell nR nC))).
  constructor.
  - by eapply count_set_wf.
  - intros a Ha. rewrite Hd. cbn [length]. case_decide.
    + exists 0. split; [done|lia].
    + exists (-1). split; [by apply Hall|lia].
  - by rewrite Hd, decide_True.
  - intros a v Ha. rewrite Hd. case_decide as E.
    + subst a. intros [= <-] _. constructor.
    + rewrite Hall by done. intros [= <-]. lia.
  - intros a ->%list_elem_of_singleton. apply goal_in_grid.
  - apply NoDup_singleton.
  - intros a Ha. rewrite Hd, list_elem_of_singleton. case_decide as E.
    + split; [done | by intros _].
    + rewrite Hall by done. split; [by intros -> | done].
  - auto.
  - intros v rest dv [= <- <-] _. exists [], []. split; [done|].
    split; intros x Hx; by apply elem_of_nil in Hx.
  - intros a b va ->%list_elem_of_singleton Hq. exfalso. apply Hq. left.
  - intros a v rest va dv ->%list_elem_of_singleton Hq. exfalso. apply Hq. left.
Qed.

(** *** What the final table says *)

Section final.
Context (lc : list cell) (count : list (option Z)).
Hypothesis Hinv : bfs_inv m nR nC [] lc count.

Lemma open_step_grid a b : R a b -> in_grid nR nC a /\ in_grid nR nC b.
Proof.
  intros H. split; [by destruct H | by eapply (open_step_in_grid nR nC HnR HnC)].
Qed.

Lemma nsteps_in_grid k a : nsteps R k (goal_cell nR nC) a -> in_grid nR nC a.
Proof.
  destruct k as [|k].
  - inversion 1; subst. apply goal_in_grid.
  - intros (y & _ & Hy)%nsteps_inv_r. by apply open_step_grid in Hy as [_ ?].
Qed.

Lemma final_closed a b va :
  in_grid nR nC a -> dist count a = Some va -> 0 <= va -> R a b ->
  exists vb, dist count b = Some vb /\ 0 <= vb <= va + 1.
Proof.
  intros Ha Hva Hpos Hab.
  apply (bi_closed _ _ _ _ _ _ Hinv a b va); [|apply not_elem_of_nil|done..].
  apply (bi_log _ _ _ _ _ _ Hinv a Ha). rewrite Hva. intros [=]. lia.
Qed.

(** No cell is labelled with more than the length of a walk to it. *)
Lemma final_le k a :
  nsteps R k (goal_cell nR nC) a -> exists v, dist count a = Some v /\ 0 <= v <= Z.of_nat k.
Proof.
  revert a. induction k as [|k IH]; intros a Hk.
  - inversion Hk; subst. exists 0. split; [apply (bi_goal _ _ _ _ _ _ Hinv) | lia].
  - apply nsteps_inv_r in Hk as (y & Hy & Hya).
    destruct (IH y Hy) as (vy & Hvy & ?).
    destruct (final_closed y a vy) as (va & Hva & ?); [by eapply nsteps_in_grid|done|lia|done|].
    exists va. split; [done|lia].
Qed.

Lemma final_dist a :
  in_grid nR nC a ->
  exists v, dist count a = Some v /\
    ((v = -1 /\ ~ rtc R (goal_cell nR nC) a) \/
     (0 <= v /\ nsteps R (Z.to_nat v) (goal_cell nR nC) a /\
      forall k, nsteps R k (goal_cell nR nC) a -> (Z.to_nat v <= k)%nat)).
Proof.
  intros Ha. destruct (bi_vals _ _ _ _ _ _ Hinv a Ha) as (v & Hv & Hr).
  exists v. split; [done|]. destruct (decide (v = -1)) as [->|Hne].
  - left. split; [done|]. intros (k & Hk)%rtc_nsteps.
    destruct (final_le k a Hk) as (v' & Hv' & ?). assert (v' = -1) by congruence. lia.
  - right. split; [lia|]. split; [apply (bi_reach _ _ _ _ _ _ Hinv); [done..|lia]|].
    intros k Hk. destruct (final_le k a Hk) as (v' & Hv' & ?).
    assert (v' = v) by congruence. lia.
Qed.

(** A labelled cell other than the goal has an open neighbour labelled
    one less, through which a shortest walk arrives. *)
Lemma final_pred a v :
  in_grid nR nC a -> dist count a = Some v -> 0 < v ->
  exists y, R y a /\ dist count y = Some (v - 1).
Proof.
  intros Ha Hv Hpos.
  pose proof (bi_reach _ _ _ _ _ _ Hinv a v Ha Hv ltac:(lia)) as Hk.
  replace (Z.to_nat v) with (S (Z.to_nat (v - 1))) in Hk by lia.
  apply nsteps_inv_r in Hk as (y & Hy & Hya).
  destruct (final_le _ y Hy) as (vy & Hvy & ?).
  destruct (final_closed y a vy) as (va & Hva & ?); [by eapply nsteps_in_grid|done|lia|done|].
  assert (va = v) by congruence. exists y. split; [done|].
  rewrite Hvy. f_equal. lia.
Qed.

Lemma final_zero a : in_grid nR nC a -> dist count a = Some 0 -> a = goal_cell nR nC.
Proof.
  intros Ha Hv. pose proof (bi_reach _ _ _ _ _ _ Hinv a 0 Ha Hv ltac:(lia)) as Hk.
  by inversion Hk.
Qed.

Lemma final_pushed : NoDup (idx <$> lc).
Proof.
  apply NoDup_fmap_2_strong; [|apply (bi_log_nodup _ _ _ _ _ _ Hinv)].
  intros a b Ha Hb. apply (cell_idx_inj nR nC HnC);
    by apply (bi_log_grid _ _ _ _ _ _ Hinv).
Qed.
End final.
End traversal.

(** ** Steps 1 to 3 together *)

Lemma open_step_same_walls maze maze1 a b :
  arr_wf maze -> same_walls maze maze1 ->
  open_step maze1 nR nC a b <-> open_step maze nR nC a b.
Proof.
  intros Hwf Hsame. rewrite !(open_step_hex nR nC HnR HnC).
  split; intros (Ha & d & Hn & Hc); (split; [done|]); exists d; (split; [done|]).
  - rewrite <- Hc. symmetry. apply same_walls_bit_clear; [done| |by apply (grid_get nR nC)].
    by eapply hex_neighbor_directions.
  - rewrite <- Hc. apply same_walls_bit_clear; [done| |by apply (grid_get nR nC)].
    by eapply hex_neighbor_directions.
Qed.

Lemma solve_label_ok fuel maze :
  arr_wf maze -> (Z.to_nat (nR * nC) + 1 <= fuel)%nat ->
  exists maze1 count lc,
    solve_label fuel maze nR nC
    = Some (maze1, Some (mkBfs count [] (cell_idx nC <$> lc))) /\
    arr_wf maze1 /\ same_walls maze maze1 /\
    (forall a, in_grid nR nC a -> bit_set maze1 a VISITED = false) /\
    bfs_inv maze1 nR nC [] lc count.
Proof.
  intros Hwf Hfuel. pose proof (grid_size nR nC HnR HnC) as Hsz. unfold solve_label.
  destruct (solve_init_ok maze Hwf) as (count0 & maze1 & -> & Hc0 & Hsame & Hd0 & Hflag).
  cbn [mbind option_bind].
  assert (Hwf1 : arr_wf maze1) by by eapply same_walls_wf.
  unfold MAX_ROWS, MAX_COLS in *.
  rewrite !to_u32_small by lia. rewrite !Z.geb_leb.
  destruct (Z.leb_spec nR (nR - 1)); [lia|]. destruct (Z.leb_spec nC (nC - 1)); [lia|].
  cbn [orb].
  pose proof (count_set_is_Some count0 (nR - 1) (nC - 1) 0 Hc0
                (grid_ok nR nC HnR HnC _ goal_in_grid)) as Hset.
  rewrite Hset. cbn [mbind option_bind].
  pose proof (bfs_inv_init maze1 count0 _ Hc0 Hd0 Hset) as Hinit.
  change ((nR - 1) * nC + (nC - 1)) with (cell_idx nC (goal_cell nR nC)).
  pose proof (cell_idx_range nR nC HnR HnC _ goal_in_grid).
  rewrite ?to_u32_small by lia.
  destruct (bfs_loop_ok maze1 Hwf1 fuel [goal_cell nR nC] [goal_cell nR nC] _ Hinit)
    as (lc & count & Hrun & Hinv); [cbn [length]; lia|].
  cbn [fmap list_fmap] in Hrun. rewrite Hrun. cbn [mbind option_bind].
  exists maze1, count, lc.
  split; [done|]. split; [done|]. split; [done|]. by split.
Qed.

(** ** Step 4: tracing the path *)

Lemma bit_set_set_VISITED mz b v mz' a :
  arr_get mz b.1 b.2 = Some v -> arr_set mz b.1 b.2 (set_bit v VISITED) = Some mz' ->
  bit_set mz' a VISITED = true <-> bit_set mz a VISITED = true \/ a = b.
Proof.
  intros Hv Hset. destruct (decide (b = a)) as [->|Hne].
  - split; [auto|]. intros _. unfold bit_set. rewrite (arr_get_set_eq _ _ _ _ _ Hset).
    apply negb_true_iff, Z.eqb_neq. rewrite VISITED_pow2. apply land_set_bit_same. lia.
  - rewrite (bit_set_other _ _ _ _ _ _ Hset Hne). split; [auto|]. by intros [?| ->].
Qed.

Section trace.
Context (m1 : list Z) (lc : list cell) (count : list (option Z)).
Hypothesis Hm1 : arr_wf m1.
Hypothesis Hinv : bfs_inv m1 nR nC [] lc count.

Local Abbreviation R1 := (open_step m1 nR nC).

Lemma dist_bound a :
  in_grid nR nC a -> exists k, dist count a = Some k /\ -1 <= k <= 2500.
Proof.
  intros Ha. destruct (bi_vals _ _ _ _ _ _ Hinv a Ha) as (k & Hk & ?).
  pose proof (grid_list_length lc (bi_log_nodup _ _ _ _ _ _ Hinv)
                (bi_log_grid _ _ _ _ _ _ Hinv)).
  pose proof (grid_size nR nC HnR HnC). exists k. split; [done|lia].
Qed.

(** The scan returns the first open direction that leads one step
    closer, and nothing only if there is none. *)
Lemma find_next_ok mz cur k dirs :
  arr_wf mz -> in_grid nR nC cur -> dist count cur = Some k ->
  exists res, find_next mz count nR nC cur.1 cur.2 dirs = Some res /\
    match res with
    | Some b => exists e, e ∈ dirs /\ hex_neighbor nR nC cur e = Some b /\
                  bit_clear mz cur e = true /\ dist count b = Some (k - 1)
    | None => forall e b, e ∈ dirs -> hex_neighbor nR nC cur e = Some b ->
                  bit_clear mz cur e = true -> dist count b <> Some (k - 1)
    end.
Proof.
  intros Hmz Hcur Hk.
  destruct (dist_bound cur Hcur) as (k' & Hk' & Hkr).
  assert (k' = k) as -> by congruence. clear Hk'.
  destruct (grid_get nR nC HnR HnC mz cur Hmz Hcur) as [val Hval].
  induction dirs as [|e dirs IH].
  - exists None. split; [done|]. intros e b He. by apply elem_of_nil in He.
  - cbn [find_next]. rewrite Hval. cbn [mbind option_bind].
    assert (Hskip : (forall b, hex_neighbor nR nC cur e = Some b ->
                       bit_clear mz cur e = true -> dist count b <> Some (k - 1)) ->
      exists res, find_next mz count nR nC cur.1 cur.2 dirs = Some res /\
        match res with
        | Some b => exists e0, e0 ∈ e :: dirs /\ hex_neighbor nR nC cur e0 = Some b /\
                      bit_clear mz cur e0 = true /\ dist count b = Some (k - 1)
        | None => forall e0 b, e0 ∈ e :: dirs -> hex_neighbor nR nC cur e0 = Some b ->
                      bit_clear mz cur e0 = true -> dist count b <> Some (k - 1)
        end).
    { intros Hno. destruct IH as ([b|] & Hrun & Hres); rewrite Hrun; eexists;
        (split; [done|]).
      - destruct Hres as (e0 & He0 & ?). exists e0. split; [by right | done].
      - intros e0 b [->|He0]%elem_of_cons; [apply Hno | by apply Hres]. }
    destruct (Z.eqb_spec (Z.land val e) 0) as [Hopen|Hwall].
    2:{ apply Hskip. intros b _ Hc. unfold bit_clear in Hc. rewrite Hval in Hc.
        by apply Z.eqb_eq in Hc. }
    change (getNeighbor cur.1 cur.2 e nR nC) with (neighbor nR nC cur e).
    rewrite (nb nR nC HnR HnC) by done.
    destruct (hex_neighbor nR nC cur e) as [[r2 c2]|] eqn:Hn; [|by apply Hskip].
    pose proof (hex_neighbor_in_grid _ _ _ _ _ Hn) as Hb.
    destruct (dist_bound (r2, c2) Hb) as (vb & Hvb & ?).
    change (count_get count r2 c2) with (dist count (r2, c2)). rewrite Hvb.
    cbn [mbind option_bind].
    change (count_get count cur.1 cur.2) with (dist count cur). rewrite Hk.
    cbn [mbind option_bind]. rewrite to_int_small by lia.
    destruct (Z.eqb_spec vb (k - 1)) as [->|Hne].
    + exists (Some (r2, c2)). split; [done|]. exists e. split; [left|].
      split; [done|]. split; [|done]. unfold bit_clear. rewrite Hval. by apply Z.eqb_eq.
    + apply Hskip. intros b [= <-] _. congruence.
Qed.

(** The trace ends whatever the grid, and changes path flags only. *)
Lemma trace_loop_total fuel mz cur k :
  arr_wf mz -> in_grid nR nC cur -> dist count cur = Some k -> 0 <= k ->
  (Z.to_nat k + 1 <= fuel)%nat ->
  exists mz' res, trace_loop fuel count nR nC mz cur.1 cur.2 = Some (mz', res) /\
    same_walls mz mz'.
Proof.
  revert mz cur k. induction fuel as [|fuel IH]; intros mz cur k Hmz Hcur Hk Hpos Hfuel;
    [lia|].
  cbn [trace_loop]. change (count_get count cur.1 cur.2) with (dist count cur).
  rewrite Hk. cbn [mbind option_bind].
  destruct (Z.eqb_spec k 0) as [->|Hk0].
  { exists mz, Solved. split; [done | apply same_walls_refl]. }
  destruct (find_next_ok mz cur k directions Hmz Hcur Hk) as ([b|] & -> & Hres);
    cbn [mbind option_bind].
  2:{ exists mz, TraceError. split; [done | apply same_walls_refl]. }
  destruct Hres as (e & _ & Hn & _ & Hb). destruct b as [r2 c2].
  pose proof (hex_neighbor_in_grid _ _ _ _ _ Hn) as Hbg.
  destruct (grid_get nR nC HnR HnC mz (r2, c2) Hmz Hbg) as [v Hv].
  cbn [fst snd] in Hv. rewrite Hv. cbn [mbind option_bind].
  pose proof (arr_set_is_Some mz r2 c2 (set_bit v VISITED) Hmz
                (grid_ok nR nC HnR HnC _ Hbg)) as Hset.
  rewrite Hset. cbn [mbind option_bind].
  assert (Hsame : same_walls mz (<[arr_index r2 c2 := set_bit v VISITED]> mz)).
  { eapply same_walls_set; [exact Hv | exact Hset | apply land_mask_set_VISITED]. }
  destruct (IH _ (r2, c2) (k - 1) (same_walls_wf _ _ Hsame Hmz) Hbg Hb ltac:(lia) ltac:(lia))
    as (mz' & res & Hrun & Hsame').
  exists mz', res. split; [done|]. by eapply same_walls_trans.
Qed.

(** On a grid with symmetric walls the trace reaches the goal along
    labels that go down by one. *)
Lemma trace_loop_path fuel mz cur k :
  (forall a b, R1 a b -> R1 b a) -> same_walls m1 mz ->
  in_grid nR nC cur -> dist count cur = Some k -> 0 <= k ->
  (Z.to_nat k + 1 <= fuel)%nat ->
  exists mz' p, trace_loop fuel count nR nC mz cur.1 cur.2 = Some (mz', Solved) /\
    same_walls mz mz' /\
    head p = Some cur /\ last p = Some (goal_cell nR nC) /\ is_walk R1 p /\
    (forall (i : nat) a, p !! i = Some a -> dist count a = Some (k - Z.of_nat i)) /\
    length p = S (Z.to_nat k) /\
    (forall a, bit_set mz' a VISITED = true <->
               bit_set mz a VISITED = true \/ a ∈ tail p).
Proof.
  intros Hsym. revert mz cur k.
  induction fuel as [|fuel IH]; intros mz cur k Hsame Hcur Hk Hpos Hfuel; [lia|].
  pose proof (same_walls_wf _ _ Hsame Hm1) as Hmz.
  cbn [trace_loop]. change (count_get count cur.1 cur.2) with (dist count cur).
  rewrite Hk. cbn [mbind option_bind].
  destruct (Z.eqb_spec k 0) as [->|Hk0].
  { exists mz, [cur]. split; [done|]. split; [apply same_walls_refl|].
    split; [done|]. split; [by rewrite (final_zero m1 lc count Hinv cur)|].
    split; [done|]. split; [|split; [done|]].
    - intros [|i] a; [|done]. intros [= <-]. by rewrite Z.sub_0_r.
    - intros a. cbn. rewrite elem_of_nil. tauto. }
  destruct (find_next_ok mz cur k directions Hmz Hcur Hk) as ([b|] & -> & Hres);
    cbn [mbind option_bind].
  2:{ exfalso.
      destruct (final_pred m1 lc count Hinv cur k Hcur Hk ltac:(lia)) as (y & Hy & Hdy).
      apply Hsym in Hy. apply (open_step_hex nR nC HnR HnC) in Hy as (_ & e & Hn & Hc).
      apply (Hres e y); [by eapply hex_neighbor_directions|done| |done].
      rewrite <- Hc. apply same_walls_bit_clear; [done| |by apply (grid_get nR nC)].
      by eapply hex_neighbor_directions. }
  destruct Hres as (e & He & Hn & Hc & Hb). destruct b as [r2 c2].
  pose proof (hex_neighbor_in_grid _ _ _ _ _ Hn) as Hbg.
  destruct (grid_get nR nC HnR HnC mz (r2, c2) Hmz Hbg) as [v Hv].
  cbn [fst snd] in Hv. rewrite Hv. cbn [mbind option_bind].
  pose proof (arr_set_is_Some mz r2 c2 (set_bit v VISITED) Hmz
                (grid_ok nR nC HnR HnC _ Hbg)) as Hset.
  rewrite Hset. cbn [mbind option_bind].
  assert (Hsame1 : same_walls mz (<[arr_index r2 c2 := set_bit v VISITED]> mz)).
  { eapply same_walls_set; [exact Hv | exact Hset | apply land_mask_set_VISITED]. }
  destruct (IH _ (r2, c2) (k - 1) (same_walls_trans _ _ _ Hsame Hsame1) Hbg Hb
              ltac:(lia) ltac:(lia))
    as (mz' & p & Hrun & Hsame' & Hh & Hl & Hw & Hidx & Hlen & Hmark).
  destruct p as [|b p]; [done|]. injection Hh as ->.
  exists mz', (cur :: (r2, c2) :: p). split; [done|].
  split; [by eapply same_walls_trans|]. split; [done|].
  split; [by rewrite last_cons_cons|]. split; [|split; [|split]].
  - split; [|done]. apply (open_step_hex nR nC HnR HnC). split; [done|].
    exists e. split; [done|]. rewrite <- Hc. symmetry.
    apply same_walls_bit_clear; [done| |by apply (grid_get nR nC)].
    by eapply hex_neighbor_directions.
  - intros [|i] a.
    + intros [= <-]. by rewrite Z.sub_0_r.
    + intros Ha. rewrite (Hidx i a Ha). f_equal. lia.
  - cbn [length] in *. lia.
  - intros a. rewrite Hmark.
    rewrite (bit_set_set_VISITED mz (r2, c2) v _ a Hv Hset).
    cbn [tail]. rewrite elem_of_cons. tauto.
Qed.
End trace.
End solver.

(** * Properties of the generator *)

(** C2.  Neighbour resolution is undone by the opposite direction: for every
    32-bit [nR], [nC], every cell [(r, c)] of the grid and each of the six
    directions [d], if [getNeighbor] from [(r, c)] towards [d] succeeds with
    [(r2, c2)], then [getNeighbor] from [(r2, c2)] towards
    [getOppositeWall d] succeeds with [(r, c)]. *)
Theorem getNeighbor_opposite r c d nR nC r2 c2 :
  0 <= nR < 4294967296 -> 0 <= nC < 4294967296 ->
  0 <= r < nR -> 0 <= c < nC -> d ∈ directions ->
  getNeighbor r c d nR nC = Some (r2, c2) ->
  getNeighbor r2 c2 (getOppositeWall d) nR nC = Some (r, c).
Proof. intros HnR HnC Hr Hc _. by apply getNeighbor_undo. Qed.

Lemma getNeighbor_opposite_witness :
  getNeighbor 0 1 (getOppositeWall WALL_UP_RIGHT) 3 3 = Some (1, 0).
Proof.
  apply (getNeighbor_opposite 1 0 WALL_UP_RIGHT 3 3 0 1);
    [lia | lia | lia | lia | apply elem_of_directions; cbv; auto 10 | reflexivity].
Defined.

(** C6.  The enumeration lists, from each cell of the grid, the directions
    DOWN, UP_RIGHT and DOWN_RIGHT whose neighbour exists, and for every pair
    of adjacent cells [a], [b] exactly one enumerated candidate denotes the
    edge between them. *)
Theorem internalWalls_each_edge_once nR nC a d b :
  0 <= nR < 4294967296 -> 0 <= nC < 4294967296 ->
  in_grid nR nC a -> d ∈ directions -> neighbor nR nC a d = Some b ->
  (forall w, w ∈ internalWalls nR nC <->
     in_grid nR nC (wall_r w, wall_c w) /\ wall_direction w ∈ forward_directions /\
     is_Some (neighbor nR nC (wall_r w, wall_c w) (wall_direction w))) /\
  length (filter (denotes nR nC a b) (internalWalls nR nC)) = 1%nat.
Proof.
  intros HnR HnC Ha Hd Hn. split; [apply elem_of_internalWalls|].
  destruct (decide (2147483648 <= nR \/ 2147483648 <= nC)) as [Hbig|Hsmall].
  { unfold neighbor in Hn. by rewrite getNeighbor_big in Hn. }
  rewrite neighbor_small in Hn by (try done; lia).
  destruct (denotes_unique nR nC a d b) as (w0 & Hin & Hden & _ & Huniq);
    [lia|lia|done..|].
  by rewrite (filter_unique _ _ w0) by (done || apply NoDup_internalWalls).
Qed.

Lemma internalWalls_each_edge_once_witness :
  (forall w, w ∈ internalWalls 2 2 <->
     in_grid 2 2 (wall_r w, wall_c w) /\ wall_direction w ∈ forward_directions /\
     is_Some (neighbor 2 2 (wall_r w, wall_c w) (wall_direction w))) /\
  length (filter (denotes 2 2 (1, 0) (0, 1)) (internalWalls 2 2)) = 1%nat.
Proof.
  apply (internalWalls_each_edge_once 2 2 (1, 0) WALL_UP_RIGHT (0, 1));
    [lia | lia | split; cbn; lia | apply elem_of_directions; cbv; auto 10 | reflexivity].
Defined.

Lemma generateMaze_run nR nC maze fuel shuffle st :
  1 <= nR <= MAX_ROWS -> 1 <= nC <= MAX_COLS ->
  generate_state fuel maze nR nC (shuffle (internalWalls nR nC)) = Some st ->
  generateMaze fuel shuffle maze nR nC =
  Some (gs_maze st, gs_removed st <? nR * nC - 1).
Proof.
  intros HnR HnC Hrun. unfold generateMaze. rewrite Hrun. cbn [mbind option_bind].
  pose proof (grid_size nR nC HnR HnC).
  by rewrite !to_u32_small by (rewrite ?to_u32_small; lia).
Qed.

Lemma shuffled_in_grid nR nC (walls : list Wall) w :
  walls ≡ₚ internalWalls nR nC -> w ∈ walls -> in_grid nR nC (wall_r w, wall_c w).
Proof. intros Hp Hw. rewrite Hp in Hw. apply elem_of_internalWalls in Hw. tauto. Qed.

(** C1.  For supported dimensions, generation over any ordering of the
    enumerated internal walls returns, without the warning, a grid whose open
    passages are connected, contain no cycle and number [nR * nC - 1]: a
    spanning tree of the grid. *)
Theorem generateMaze_spanning_tree fuel shuffle maze nR nC :
  1 <= nR <= MAX_ROWS -> 1 <= nC <= MAX_COLS -> arr_wf maze ->
  shuffle (internalWalls nR nC) ≡ₚ internalWalls nR nC ->
  (Z.to_nat (nR * nC) <= fuel)%nat ->
  exists grid, generateMaze fuel shuffle maze nR nC = Some (grid, false) /\
    spanning_tree grid nR nC.
Proof.
  intros HnR HnC Hwf Hperm Hfuel.
  destruct (generate_state_full nR nC HnR HnC fuel maze (shuffle (internalWalls nR nC)))
    as (st & Hrun & _ & Hk & Htree); [done..|by intros w; rewrite Hperm|].
  exists (gs_maze st). split; [|done].
  rewrite (generateMaze_run nR nC maze fuel shuffle st HnR HnC Hrun), Hk.
  by rewrite Z.ltb_irrefl.
Qed.

Lemma generateMaze_spanning_tree_witness :
  exists grid, generateMaze 6 id (replicate 2500 0) 2 3 = Some (grid, false) /\
    spanning_tree grid 2 3.
Proof.
  apply (generateMaze_spanning_tree 6 id (replicate 2500 0) 2 3);
    [unfold MAX_ROWS; lia | unfold MAX_COLS; lia | reflexivity | reflexivity | cbn; lia].
Defined.

(** C3.  Wall symmetry is an invariant of generation: in the state reached
    after any prefix of the shuffled candidates (the empty prefix is the
    all-walls grid, the whole list is the finished grid), for adjacent cells
    [a] and [b], with [b] towards [d] from [a], wall bit [d] is set in [a]
    exactly when wall bit [getOppositeWall d] is set in [b]. *)
Theorem wall_symmetry_invariant fuel shuffle maze nR nC walls :
  1 <= nR <= MAX_ROWS -> 1 <= nC <= MAX_COLS -> arr_wf maze ->
  shuffle (internalWalls nR nC) ≡ₚ internalWalls nR nC ->
  (Z.to_nat (nR * nC) <= fuel)%nat ->
  walls `prefix_of` shuffle (internalWalls nR nC) ->
  exists st, generate_state fuel maze nR nC walls = Some st /\
    wall_symmetric (gs_maze st) nR nC /\
    (walls = shuffle (internalWalls nR nC) ->
     exists warn, generateMaze fuel shuffle maze nR nC = Some (gs_maze st, warn)).
Proof.
  intros HnR HnC Hwf Hperm Hfuel [rest Hrest].
  destruct (generate_state_ok nR nC HnR HnC fuel maze walls Hfuel Hwf)
    as (st & Hrun & Hinv & _).
  { intros w Hw. apply (shuffled_in_grid nR nC _ w Hperm).
    rewrite Hrest. apply elem_of_app. by left. }
  exists st. split; [done|]. split; [by destruct Hinv|].
  intros ->. eexists. by apply generateMaze_run.
Qed.

Lemma wall_symmetry_invariant_witness :
  exists st, generate_state 6 (replicate 2500 0) 2 3 (take 3 (internalWalls 2 3)) = Some st /\
    wall_symmetric (gs_maze st) 2 3 /\
    (take 3 (internalWalls 2 3) = id (internalWalls 2 3) ->
     exists warn, generateMaze 6 id (replicate 2500 0) 2 3 = Some (gs_maze st, warn)).
Proof.
  apply (wall_symmetry_invariant 6 id (replicate 2500 0) 2 3 (take 3 (internalWalls 2 3)));
    [unfold MAX_ROWS; lia | unfold MAX_COLS; lia | reflexivity | reflexivity | cbn; lia
    | apply prefix_take].
Defined.

(** C10.  Generation never opens the rim of the grid: in the finished grid,
    for every cell and every direction in which neighbour resolution fails,
    the wall bit of that direction is still set. *)
Theorem generateMaze_boundary_closed fuel shuffle maze nR nC :
  1 <= nR <= MAX_ROWS -> 1 <= nC <= MAX_COLS -> arr_wf maze ->
  shuffle (internalWalls nR nC) ≡ₚ internalWalls nR nC ->
  (Z.to_nat (nR * nC) <= fuel)%nat ->
  exists grid warn, generateMaze fuel shuffle maze nR nC = Some (grid, warn) /\
    forall a d, in_grid nR nC a -> d ∈ directions ->
      neighbor nR nC a d = None -> bit_set grid a d = true.
Proof.
  intros HnR HnC Hwf Hperm Hfuel.
  destruct (generate_state_ok nR nC HnR HnC fuel maze (shuffle (internalWalls nR nC))
              Hfuel Hwf) as (st & Hrun & Hinv & _).
  { intros w. by apply shuffled_in_grid. }
  exists (gs_maze st). eexists. split; [by apply generateMaze_run|].
  by destruct Hinv.
Qed.

Lemma generateMaze_boundary_closed_witness :
  exists grid warn, generateMaze 6 id (replicate 2500 0) 2 3 = Some (grid, warn) /\
    forall a d, in_grid 2 3 a -> d ∈ directions ->
      neighbor 2 3 a d = None -> bit_set grid a d = true.
Proof.
  apply (generateMaze_boundary_closed 6 id (replicate 2500 0) 2 3);
    [unfold MAX_ROWS; lia | unfold MAX_COLS; lia | reflexivity | reflexivity | cbn; lia].
Defined.

(** C8.  Generation is determined by the dimensions and the order of the
    candidates: two runs whose shuffles give the same list return the same
    warning flag and grids equal at every cell of the grid, with the same
    open passages, whatever the arrays held before and whatever the
    (sufficient) recursion bounds; from equal arrays the finished arrays are
    equal. *)
Theorem generateMaze_deterministic fuel1 fuel2 shuffle1 shuffle2 maze1 maze2 nR nC :
  1 <= nR <= MAX_ROWS -> 1 <= nC <= MAX_COLS -> arr_wf maze1 -> arr_wf maze2 ->
  shuffle1 (internalWalls nR nC) ≡ₚ internalWalls nR nC ->
  (Z.to_nat (nR * nC) <= fuel1)%nat -> (Z.to_nat (nR * nC) <= fuel2)%nat ->
  shuffle1 (internalWalls nR nC) = shuffle2 (internalWalls nR nC) ->
  exists grid1 grid2 warn,
    generateMaze fuel1 shuffle1 maze1 nR nC = Some (grid1, warn) /\
    generateMaze fuel2 shuffle2 maze2 nR nC = Some (grid2, warn) /\
    (forall a, in_grid nR nC a -> arr_get grid1 a.1 a.2 = arr_get grid2 a.1 a.2) /\
    open_passages grid1 nR nC = open_passages grid2 nR nC /\
    (maze1 = maze2 -> grid1 = grid2).
Proof.
  intros HnR HnC Hwf1 Hwf2 Hperm Hfuel1 Hfuel2 Hsame.
  set (walls := shuffle1 (internalWalls nR nC)) in *.
  assert (Hin : forall w, w ∈ walls -> in_grid nR nC (wall_r w, wall_c w))
    by (intros w; by apply shuffled_in_grid).
  destruct (generate_state_ok nR nC HnR HnC fuel1 maze1 walls Hfuel1 Hwf1 Hin)
    as (st1 & Hrun1 & Hinv1 & _).
  destruct (generate_state_ok nR nC HnR HnC fuel2 maze2 walls Hfuel2 Hwf2 Hin)
    as (st2 & Hrun2 & Hinv2 & _).
  pose proof (generate_state_fuel_mono fuel1 (fuel1 `max` fuel2) _ _ _ _ _
                ltac:(lia) Hrun1) as Hmax1.
  pose proof (generate_state_fuel_mono fuel2 (fuel1 `max` fuel2) _ _ _ _ _
                ltac:(lia) Hrun2) as Hmax2.
  assert (Hagree : gs_removed st1 = gs_removed st2 /\
            forall a, in_grid nR nC a ->
              arr_get (gs_maze st1) a.1 a.2 = arr_get (gs_maze st2) a.1 a.2).
  { unfold generate_state in Hmax1, Hmax2.
    destruct (init_walls_ok nR nC HnR HnC maze1 Hwf1) as (m1 & E1 & Hm1 & Hall1 & _).
    destruct (init_walls_ok nR nC HnR HnC maze2 Hwf2) as (m2 & E2 & Hm2 & Hall2 & _).
    rewrite E1 in Hmax1. rewrite E2 in Hmax2. cbn [mbind option_bind] in Hmax1, Hmax2.
    destruct (remove_walls_indep _ _ _ _ _
                (mkGen m1 (DSU.init (to_u32 (nR * nC))) 0)
                (mkGen m2 (DSU.init (to_u32 (nR * nC))) 0) _ eq_refl eq_refl
                (eq_trans Hm1 (eq_sym Hm2)) Hmax1) as (st2' & Hrun2' & _ & Hk & Hcells).
    rewrite Hmax2 in Hrun2'. injection Hrun2' as <-.
    split; [done|]. intros a Ha. apply Hcells. cbn. by rewrite Hall1, Hall2. }
  destruct Hagree as [Hk Hcells].
  exists (gs_maze st1), (gs_maze st2), (gs_removed st1 <? nR * nC - 1).
  split; [by apply generateMaze_run|]. split; [|split; [done|split]].
  - rewrite Hk. apply generateMaze_run; [done..|]. by rewrite <- Hsame.
  - unfold open_passages. apply filter_iff_in.
    intros w (Hw & _)%elem_of_internalWalls. unfold passage_open, bit_clear.
    by rewrite (Hcells _ Hw).
  - intros <-. congruence.
Qed.

Lemma generateMaze_deterministic_witness :
  exists grid1 grid2 warn,
    generateMaze 6 reverse (replicate 2500 0) 2 3 = Some (grid1, warn) /\
    generateMaze 9 reverse (replicate 2500 255) 2 3 = Some (grid2, warn) /\
    (forall a, in_grid 2 3 a -> arr_get grid1 a.1 a.2 = arr_get grid2 a.1 a.2) /\
    open_passages grid1 2 3 = open_passages grid2 2 3 /\
    (replicate 2500 0 = replicate 2500 255 -> grid1 = grid2).
Proof.
  apply (generateMaze_deterministic 6 9 reverse reverse (replicate 2500 0)
           (replicate 2500 255) 2 3);
    [unfold MAX_ROWS; lia | unfold MAX_COLS; lia | reflexivity | reflexivity
    | apply reverse_Permutation | cbn; lia | cbn; lia | reflexivity].
Defined.

(** * Properties of the solver *)

Lemma nsteps_equiv (R R' : relation cell) k a b :
  (forall x y, R x y <-> R' x y) -> nsteps R k a b <-> nsteps R' k a b.
Proof.
  intros H. split; induction 1; econstructor; eauto; by apply H.
Qed.

Lemma rtc_equiv (R R' : relation cell) a b :
  (forall x y, R x y <-> R' x y) -> rtc R a b <-> rtc R' a b.
Proof. intros H. split; apply rtc_subrel; intros x y; apply H. Qed.

Lemma nsteps_reverse (R : relation cell) k a b :
  (forall x y, R x y -> R y x) -> nsteps R k a b -> nsteps R k b a.
Proof.
  intros Hsym. induction 1 as [|n x y z Hxy _ IH]; [constructor|].
  eapply nsteps_r; [exact IH | by apply Hsym].
Qed.

Lemma wall_symmetricb_correct maze nR nC :
  wall_symmetricb maze nR nC = true -> wall_symmetric maze nR nC.
Proof.
  unfold wall_symmetricb. rewrite forallb_forall. intros H a d b Ha Hd Hn.
  specialize (H a). rewrite <- list_elem_of_In, elem_of_cells in H. specialize (H Ha).
  rewrite forallb_forall in H. specialize (H d). rewrite <- list_elem_of_In in H.
  specialize (H Hd). rewrite Hn in H. apply eqb_prop in H. by rewrite H.
Qed.

Lemma cells_empty nR nC : nR <= 0 \/ nC <= 0 -> cells nR nC = [].
Proof.
  intros H. apply elem_of_nil_inv. intros a [Hr Hc]%elem_of_cells. lia.
Qed.

Section solver_results.
Context (nR nC : Z) (fuel : nat) (maze : list Z).
Hypothesis HnR : 1 <= nR <= MAX_ROWS.
Hypothesis HnC : 1 <= nC <= MAX_COLS.
Hypothesis Hwf : arr_wf maze.
Hypothesis Hfuel : (Z.to_nat (nR * nC) + 1 <= fuel)%nat.

Local Abbreviation R := (open_step maze nR nC).

Lemma open_step_irrefl a : ~ R a a.
Proof.
  intros (_ & d & Hn & _)%(open_step_hex nR nC HnR HnC).
  by apply hex_neighbor_irrefl in Hn.
Qed.

(** The two ways out of the labelling phase. *)
Lemma solve_cases :
  exists maze1 count lc d v,
    solve_label fuel maze nR nC
    = Some (maze1, Some (mkBfs count [] (cell_idx nC <$> lc))) /\
    arr_wf maze1 /\ same_walls maze maze1 /\
    (forall a, in_grid nR nC a -> bit_set maze1 a VISITED = false) /\
    bfs_inv maze1 nR nC [] lc count /\
    dist count start_cell = Some d /\ -1 <= d <= 2500 /\
    arr_get maze1 0 0 = Some v /\
    solveMazeBFS fuel maze nR nC
    = if d =? -1 then Some (maze1, NoSolution)
      else trace_loop fuel count nR nC (<[arr_index 0 0 := set_bit v VISITED]> maze1) 0 0.
Proof.
  destruct (solve_label_ok nR nC HnR HnC fuel maze Hwf Hfuel)
    as (maze1 & count & lc & Hlab & Hwf1 & Hsame & Hflag & Hinv).
  pose proof (start_in_grid nR nC HnR HnC) as Hstart.
  destruct (dist_bound nR nC HnR HnC maze1 lc count Hinv _ Hstart) as (d & Hd & Hdr).
  destruct (grid_get nR nC HnR HnC maze1 _ Hwf1 Hstart) as [v Hv].
  change (arr_get maze1 0 0 = Some v) in Hv.
  exists maze1, count, lc, d, v. repeat (split; [done|]).
  unfold solveMazeBFS. rewrite Hlab. cbn [mbind option_bind bfs_count].
  change (count_get count 0 0) with (dist count start_cell). rewrite Hd.
  cbn [mbind option_bind]. destruct (d =? -1); [done|].
  rewrite Hv. cbn [mbind option_bind].
  rewrite (arr_set_is_Some maze1 0 0 _ Hwf1 (grid_ok nR nC HnR HnC _ Hstart)). done.
Qed.

Lemma solve_distances :
  exists st, label_state fuel maze nR nC = Some st /\
    dist (bfs_count st) (goal_cell nR nC) = Some 0 /\
    NoDup (bfs_pushed st) /\
    forall a, in_grid nR nC a ->
      exists v, dist (bfs_count st) a = Some v /\
        ((v = -1 /\ ~ rtc R (goal_cell nR nC) a) \/
         (0 <= v /\ nsteps R (Z.to_nat v) (goal_cell nR nC) a /\
          forall k, nsteps R k (goal_cell nR nC) a -> (Z.to_nat v <= k)%nat)).
Proof.
  destruct solve_cases as (maze1 & count & lc & d & v & Hlab & Hwf1 & Hsame & _ & Hinv & _).
  eexists. unfold label_state. rewrite Hlab. cbn [mbind option_bind]. split; [done|].
  cbn [bfs_count bfs_pushed]. split; [apply (bi_goal _ _ _ _ _ _ Hinv)|].
  split; [by apply (final_pushed nR nC HnC maze1 lc count)|].
  intros a Ha.
  pose proof (open_step_same_walls nR nC HnR HnC maze maze1) as Hequiv.
  destruct (final_dist nR nC HnR HnC maze1 lc count Hinv a Ha) as (x & Hx & Hcase).
  exists x. split; [done|]. destruct Hcase as [[-> Hno]|(Hpos & Hk & Hmin)].
  - left. split; [done|]. by rewrite <- (rtc_equiv _ _ _ _ (fun x y => Hequiv x y Hwf Hsame)).
  - right. split; [done|].
    split; [by rewrite <- (nsteps_equiv _ _ _ _ _ (fun x y => Hequiv x y Hwf Hsame))|].
    intros k Hk'. apply Hmin.
    by rewrite (nsteps_equiv _ _ _ _ _ (fun x y => Hequiv x y Hwf Hsame)).
Qed.
End solver_results.

Lemma solve_path fuel maze nR nC d :
  1 <= nR <= MAX_ROWS -> 1 <= nC <= MAX_COLS -> arr_wf maze ->
  (Z.to_nat (nR * nC) + 1 <= fuel)%nat ->
  wall_symmetric maze nR nC ->
  labelled_distance fuel maze nR nC start_cell = Some d -> d <> -1 ->
  exists grid p, solveMazeBFS fuel maze nR nC = Some (grid, Solved) /\
    head p = Some start_cell /\ last p = Some (goal_cell nR nC) /\
    length p = S (Z.to_nat d) /\ NoDup p /\
    (forall a, in_grid nR nC a -> (bit_set grid a VISITED = true <-> a ∈ p)) /\
    is_walk (open_step maze nR nC) p /\
    (forall (i : nat) a, p !! i = Some a ->
       labelled_distance fuel maze nR nC a = Some (d - Z.of_nat i)) /\
    (acyclic (open_step maze nR nC) ->
     forall q, simple_path (open_step maze nR nC) start_cell (goal_cell nR nC) q -> q = p).
Proof.
  intros HnR HnC Hwf Hfuel Hsym Hd Hreached.
  destruct (solve_cases nR nC fuel maze HnR HnC Hwf Hfuel)
    as (maze1 & count & lc & d0 & v & Hlab & Hwf1 & Hsame & Hflag & Hinv & Hd0 & _ & Hv & Hsolve).
  assert (Hlabel : forall a, labelled_distance fuel maze nR nC a = dist count a).
  { intros a. unfold labelled_distance, label_state. by rewrite Hlab. }
  rewrite Hlabel, Hd0 in Hd. injection Hd as ->.
  destruct (Z.eqb_spec d (-1)) as [|_]; [done|].
  pose proof (start_in_grid nR nC HnR HnC) as Hstart.
  pose proof (open_step_sym nR nC HnR HnC maze Hwf Hsym) as Hosym.
  pose proof (fun a b => open_step_same_walls nR nC HnR HnC maze maze1 a b Hwf Hsame) as Hequiv.
  destruct (bi_vals _ _ _ _ _ _ Hinv _ Hstart) as (d' & Hd' & Hdr).
  assert (d' = d) as -> by congruence.
  pose proof (grid_list_length nR nC HnR HnC lc (bi_log_nodup _ _ _ _ _ _ Hinv)
                (bi_log_grid _ _ _ _ _ _ Hinv)) as Hlen.
  pose proof (arr_set_is_Some maze1 0 0 (set_bit v VISITED) Hwf1
                (grid_ok nR nC HnR HnC _ Hstart)) as Hset.
  set (mz := <[arr_index 0 0 := set_bit v VISITED]> maze1) in *.
  assert (Hmz : same_walls maze1 mz).
  { eapply same_walls_set; [exact Hv | exact Hset | apply land_mask_set_VISITED]. }
  destruct (trace_loop_path nR nC HnR HnC maze1 lc count Hwf1 Hinv fuel mz start_cell d)
    as (grid & p & Hrun & Hsame' & Hh & Hl & Hw & Hidx & Hplen & Hmark);
    [|done|done|done|lia|lia|].
  { intros a b Hab. by apply Hequiv, Hosym, Hequiv. }
  change (trace_loop fuel count nR nC mz 0 0 = Some (grid, Solved)) in Hrun.
  exists grid, p. split; [by rewrite Hsolve|].
  assert (Hnd : NoDup p).
  { apply NoDup_alt. intros i j a Hi Hj.
    pose proof (Hidx i a Hi). pose proof (Hidx j a Hj). assert (d - Z.of_nat i = d - Z.of_nat j) by congruence.
    lia. }
  assert (Hwalk : is_walk (open_step maze nR nC) p).
  { eapply is_walk_mono; [|exact Hw]. intros x y. apply Hequiv. }
  repeat (split; [done|]). split; [|split; [done|split]].
  - intros a Ha. rewrite Hmark.
    rewrite (bit_set_set_VISITED maze1 start_cell v mz a Hv Hset), (Hflag a Ha).
    destruct p as [|s p]; [done|]. injection Hh as ->. cbn [tail].
    rewrite elem_of_cons. split; [intros [[[=]| ->]|?]; auto | intros [->|?]; auto].
  - intros i a Hi. rewrite Hlabel. by apply Hidx.
  - intros Hacyc q Hq.
    apply (all_bridges_unique_path (open_step maze nR nC) Hosym) with start_cell (goal_cell nR nC);
      [|done|done].
    apply acyclic_all_bridges; [done| |done].
    intros x. by apply (open_step_irrefl nR nC maze HnR HnC).
Qed.

(** A grid with no cell: the end cell is found invalid at once. *)
Lemma solve_empty_grid fuel maze nR nC :
  0 <= nR <= MAX_ROWS -> 0 <= nC <= MAX_COLS -> nR = 0 \/ nC = 0 ->
  solveMazeBFS fuel maze nR nC = Some (maze, InvalidEnd).
Proof.
  intros HnR HnC Hzero.
  unfold solveMazeBFS, solve_label, solve_init. rewrite cells_empty by lia.
  cbn [foldM mbind option_bind]. unfold MAX_ROWS, MAX_COLS in *.
  destruct Hzero as [-> | ->]; [done|].
  by destruct (to_u32 (nR - 1) >=? nR).
Qed.

(** The solver ends on every grid and changes path flags only. *)
Lemma solve_keeps fuel maze nR nC :
  1 <= nR <= MAX_ROWS -> 1 <= nC <= MAX_COLS -> arr_wf maze ->
  (Z.to_nat (nR * nC) + 1 <= fuel)%nat ->
  exists grid result, solveMazeBFS fuel maze nR nC = Some (grid, result) /\
    same_walls maze grid.
Proof.
  intros HnR' HnC' Hwf Hfuel.
  destruct (solve_cases nR nC fuel maze HnR' HnC' Hwf Hfuel)
    as (maze1 & count & lc & d & v & Hlab & Hwf1 & Hsame & Hflag & Hinv & Hd & Hdr & Hv & Hsolve).
  rewrite Hsolve. destruct (Z.eqb_spec d (-1)) as [->|Hne]; [by eauto|].
  pose proof (start_in_grid nR nC HnR' HnC') as Hstart.
  pose proof (arr_set_is_Some maze1 0 0 (set_bit v VISITED) Hwf1
                (grid_ok nR nC HnR' HnC' _ Hstart)) as Hset.
  assert (Hmz : same_walls maze1 (<[arr_index 0 0 := set_bit v VISITED]> maze1)).
  { eapply same_walls_set; [exact Hv | exact Hset | apply land_mask_set_VISITED]. }
  destruct (bi_vals _ _ _ _ _ _ Hinv _ Hstart) as (d' & Hd' & Hdr').
  assert (d' = d) as -> by congruence.
  pose proof (grid_list_length nR nC HnR' HnC' lc (bi_log_nodup _ _ _ _ _ _ Hinv)
                (bi_log_grid _ _ _ _ _ _ Hinv)) as Hlen.
  destruct (trace_loop_total nR nC HnR' HnC' maze1 lc count Hinv fuel _ start_cell d
              (same_walls_wf _ _ Hmz Hwf1) Hstart Hd ltac:(lia) ltac:(lia))
    as (grid & res & Hrun & Hsame').
  exists grid, res. split; [done|].
  eapply same_walls_trans; [exact Hsame|]. by eapply same_walls_trans.
Qed.

(** The label of the start cell is that of a cell the goal reaches. *)
Lemma connected_start_labelled fuel maze nR nC :
  1 <= nR <= MAX_ROWS -> 1 <= nC <= MAX_COLS -> arr_wf maze ->
  (Z.to_nat (nR * nC) + 1 <= fuel)%nat ->
  connected (open_step maze nR nC) nR nC ->
  exists d, labelled_distance fuel maze nR nC start_cell = Some d /\ 0 <= d.
Proof.
  intros HnR HnC Hwf Hfuel Hconn.
  destruct (solve_distances nR nC fuel maze HnR HnC Hwf Hfuel) as (st & Hst & _ & _ & Hdist).
  destruct (Hdist start_cell (start_in_grid nR nC HnR HnC)) as (d & Hd & Hcase).
  exists d. unfold labelled_distance. rewrite Hst. split; [done|].
  destruct Hcase as [[_ Hno]|[? _]]; [|done]. exfalso. apply Hno, Hconn.
  - by apply goal_in_grid.
  - by apply start_in_grid.
Qed.

(** The 3 x 3 example is a spanning tree: it is what generation returns. *)
Lemma example_maze_spanning_tree : spanning_tree example_maze 3 3.
Proof.
  destruct (generate_state_full 3 3 ltac:(unfold MAX_ROWS; lia) ltac:(unfold MAX_COLS; lia)
              9 (replicate 2500 0) (reverse (internalWalls 3 3)))
    as (st & Hrun & _ & _ & Htree); [cbn; lia | reflexivity | |].
  { intros w. by rewrite elem_of_reverse. }
  assert (E : gs_maze <$> generate_state 9 (replicate 2500 0) 3 3 (reverse (internalWalls 3 3))
              = Some example_maze) by (vm_compute; reflexivity).
  rewrite Hrun in E. injection E as <-. exact Htree.
Qed.

(** Generation followed by solving: the solver finds the start reachable
    and marks the one simple path from the start to the goal. *)
Lemma generated_maze_solved fuel shuffle maze nR nC :
  1 <= nR <= MAX_ROWS -> 1 <= nC <= MAX_COLS -> arr_wf maze ->
  shuffle (internalWalls nR nC) ≡ₚ internalWalls nR nC ->
  (Z.to_nat (nR * nC) + 1 <= fuel)%nat ->
  exists grid solved p,
    generateMaze fuel shuffle maze nR nC = Some (grid, false) /\
    solveMazeBFS fuel grid nR nC = Some (solved, Solved) /\
    simple_path (open_step grid nR nC) start_cell (goal_cell nR nC) p /\
    (forall a, in_grid nR nC a -> (bit_set solved a VISITED = true <-> a ∈ p)) /\
    (forall q, simple_path (open_step grid nR nC) start_cell (goal_cell nR nC) q -> q = p) /\
    same_walls grid solved.
Proof.
  intros HnR HnC Hwf Hperm Hfuel.
  destruct (generate_state_full nR nC HnR HnC fuel maze (shuffle (internalWalls nR nC)))
    as (st & Hrun & Hinv & Hk & Htree); [lia|done|by intros w; rewrite Hperm|].
  pose proof (gi_maze _ _ _ Hinv) as Hgwf. pose proof (gi_sym _ _ _ Hinv) as Hgsym.
  destruct (connected_start_labelled fuel (gs_maze st) nR nC HnR HnC Hgwf Hfuel
              (st_connected _ _ _ Htree)) as (d & Hd & Hpos).
  destruct (solve_path fuel (gs_maze st) nR nC d HnR HnC Hgwf Hfuel Hgsym Hd ltac:(lia))
    as (solved & p & Hsolve & Hh & Hl & _ & Hnd & Hmark & Hw & _ & Huniq).
  destruct (solve_keeps fuel (gs_maze st) nR nC HnR HnC Hgwf Hfuel)
    as (solved' & res & Hsolve' & Hsame).
  assert (solved' = solved) as -> by congruence.
  exists (gs_maze st), solved, p.
  split.
  { rewrite (generateMaze_run nR nC maze fuel shuffle st HnR HnC Hrun), Hk.
    by rewrite Z.ltb_irrefl. }
  split; [done|]. split; [by repeat split|]. split; [done|].
  split; [apply Huniq, (st_acyclic _ _ _ Htree) | done].
Qed.

(** C4.  The labelling phase ends; the goal is labelled 0; no index is
    pushed on the queue twice; every cell the goal reaches through open
    passages is labelled with the length of a shortest walk between the goal
    and the cell, and every other cell keeps -1.  Walks are counted from the
    goal, leaving each cell through a direction whose wall bit is clear in
    that cell; on a grid with symmetric walls the same holds for walks from
    the cell to the goal. *)
Theorem labelling_shortest_distances fuel maze nR nC :
  1 <= nR <= MAX_ROWS -> 1 <= nC <= MAX_COLS -> arr_wf maze ->
  (Z.to_nat (nR * nC) + 1 <= fuel)%nat ->
  exists st, label_state fuel maze nR nC = Some st /\
    dist (bfs_count st) (goal_cell nR nC) = Some 0 /\
    NoDup (bfs_pushed st) /\
    (forall a, in_grid nR nC a ->
       exists v, dist (bfs_count st) a = Some v /\
         ((v = -1 /\ ~ rtc (open_step maze nR nC) (goal_cell nR nC) a) \/
          (0 <= v /\ nsteps (open_step maze nR nC) (Z.to_nat v) (goal_cell nR nC) a /\
           forall k, nsteps (open_step maze nR nC) k (goal_cell nR nC) a ->
                     (Z.to_nat v <= k)%nat))) /\
    (wall_symmetric maze nR nC ->
     forall a, in_grid nR nC a ->
       exists v, dist (bfs_count st) a = Some v /\
         ((v = -1 /\ ~ rtc (open_step maze nR nC) a (goal_cell nR nC)) \/
          (0 <= v /\ nsteps (open_step maze nR nC) (Z.to_nat v) a (goal_cell nR nC) /\
           forall k, nsteps (open_step maze nR nC) k a (goal_cell nR nC) ->
                     (Z.to_nat v <= k)%nat))).
Proof.
  intros HnR HnC Hwf Hfuel.
  destruct (solve_distances nR nC fuel maze HnR HnC Hwf Hfuel)
    as (st & Hst & Hgoal & Hpush & Hdist).
  exists st. repeat (split; [done|]). intros Hsym a Ha.
  pose proof (open_step_sym nR nC HnR HnC maze Hwf Hsym) as Hosym.
  destruct (Hdist a Ha) as (v & Hv & Hcase). exists v. split; [done|].
  destruct Hcase as [[-> Hno]|(Hpos & Hk & Hmin)].
  - left. split; [done|]. intros H. by apply Hno, rtc_symmetric.
  - right. split; [done|]. split; [by apply nsteps_reverse|].
    intros k Hk'. by apply Hmin, nsteps_reverse.
Qed.

Lemma labelling_shortest_distances_witness :
  exists st, label_state 10 example_maze 3 3 = Some st /\
    dist (bfs_count st) (goal_cell 3 3) = Some 0 /\
    NoDup (bfs_pushed st) /\
    (forall a, in_grid 3 3 a ->
       exists v, dist (bfs_count st) a = Some v /\
         ((v = -1 /\ ~ rtc (open_step example_maze 3 3) (goal_cell 3 3) a) \/
          (0 <= v /\ nsteps (open_step example_maze 3 3) (Z.to_nat v) (goal_cell 3 3) a /\
           forall k, nsteps (open_step example_maze 3 3) k (goal_cell 3 3) a ->
                     (Z.to_nat v <= k)%nat))) /\
    (wall_symmetric example_maze 3 3 ->
     forall a, in_grid 3 3 a ->
       exists v, dist (bfs_count st) a = Some v /\
         ((v = -1 /\ ~ rtc (open_step example_maze 3 3) a (goal_cell 3 3)) \/
          (0 <= v /\ nsteps (open_step example_maze 3 3) (Z.to_nat v) a (goal_cell 3 3) /\
           forall k, nsteps (open_step example_maze 3 3) k a (goal_cell 3 3) ->
                     (Z.to_nat v <= k)%nat))).
Proof.
  apply (labelling_shortest_distances 10 example_maze 3 3);
    [unfold MAX_ROWS; lia | unfold MAX_COLS; lia | reflexivity | cbn; lia].
Defined.

(** C5.  In a spanning-tree grid the start cell has an assigned distance
    [d] and the solver returns normally; the cells carrying the path flag
    are exactly the [d + 1] distinct cells of a list that begins at the
    start, ends at the goal, steps through open passages and whose labels go
    down by one from [d] to 0; and that list is the only simple
    open-passage path from the start to the goal. *)
Theorem solve_marks_shortest_path fuel maze nR nC :
  1 <= nR <= MAX_ROWS -> 1 <= nC <= MAX_COLS -> arr_wf maze ->
  (Z.to_nat (nR * nC) + 1 <= fuel)%nat ->
  spanning_tree maze nR nC ->
  exists d grid p,
    labelled_distance fuel maze nR nC start_cell = Some d /\ 0 <= d /\
    solveMazeBFS fuel maze nR nC = Some (grid, Solved) /\
    head p = Some start_cell /\ last p = Some (goal_cell nR nC) /\
    length p = S (Z.to_nat d) /\ NoDup p /\
    (forall a, in_grid nR nC a -> (bit_set grid a VISITED = true <-> a ∈ p)) /\
    is_walk (open_step maze nR nC) p /\
    (forall (i : nat) a, p !! i = Some a ->
       labelled_distance fuel maze nR nC a = Some (d - Z.of_nat i)) /\
    (forall q, simple_path (open_step maze nR nC) start_cell (goal_cell nR nC) q -> q = p).
Proof.
  intros HnR HnC Hwf Hfuel Htree.
  destruct (connected_start_labelled fuel maze nR nC HnR HnC Hwf Hfuel
              (st_connected _ _ _ Htree)) as (d & Hd & Hpos).
  destruct (solve_path fuel maze nR nC d HnR HnC Hwf Hfuel (st_symmetric _ _ _ Htree) Hd
              ltac:(lia))
    as (grid & p & Hrun & Hh & Hl & Hlen & Hnd & Hflag & Hwalk & Hidx & Huniq).
  exists d, grid, p. repeat (split; [done|]). apply Huniq, (st_acyclic _ _ _ Htree).
Qed.

Lemma solve_marks_shortest_path_witness :
  exists d grid p,
    labelled_distance 10 example_maze 3 3 start_cell = Some d /\ 0 <= d /\
    solveMazeBFS 10 example_maze 3 3 = Some (grid, Solved) /\
    head p = Some start_cell /\ last p = Some (goal_cell 3 3) /\
    length p = S (Z.to_nat d) /\ NoDup p /\
    (forall a, in_grid 3 3 a -> (bit_set grid a VISITED = true <-> a ∈ p)) /\
    is_walk (open_step example_maze 3 3) p /\
    (forall (i : nat) a, p !! i = Some a ->
       labelled_distance 10 example_maze 3 3 a = Some (d - Z.of_nat i)) /\
    (forall q, simple_path (open_step example_maze 3 3) start_cell (goal_cell 3 3) q -> q = p).
Proof.
  apply (solve_marks_shortest_path 10 example_maze 3 3);
    [unfold MAX_ROWS; lia | unfold MAX_COLS; lia | reflexivity | cbn; lia
    | apply example_maze_spanning_tree].
Defined.

(** C7.  If the start cell still has the label -1 after the labelling phase,
    the solver reports that there is no path and returns a grid in which no
    cell of the grid has the path flag and every cell has the wall bits and
    the dead-end bit it had on entry. *)
Theorem solve_unreachable fuel maze nR nC :
  1 <= nR <= MAX_ROWS -> 1 <= nC <= MAX_COLS -> arr_wf maze ->
  (Z.to_nat (nR * nC) + 1 <= fuel)%nat ->
  labelled_distance fuel maze nR nC start_cell = Some (-1) ->
  exists grid, solveMazeBFS fuel maze nR nC = Some (grid, NoSolution) /\
    (forall a, in_grid nR nC a -> bit_set grid a VISITED = false) /\
    same_walls maze grid.
Proof.
  intros HnR HnC Hwf Hfuel Hd.
  destruct (solve_cases nR nC fuel maze HnR HnC Hwf Hfuel)
    as (maze1 & count & lc & d0 & v & Hlab & Hwf1 & Hsame & Hflag & Hinv & Hd0 & _ & Hv & Hsolve).
  unfold labelled_distance, label_state in Hd. rewrite Hlab in Hd.
  cbn [mbind option_bind bfs_count] in Hd. rewrite Hd0 in Hd. injection Hd as ->.
  exists maze1. by rewrite Hsolve.
Qed.

Lemma solve_unreachable_witness :
  exists grid, solveMazeBFS 3 walled_grid 1 2 = Some (grid, NoSolution) /\
    (forall a, in_grid 1 2 a -> bit_set grid a VISITED = false) /\
    same_walls walled_grid grid.
Proof.
  apply (solve_unreachable 3 walled_grid 1 2);
    [unfold MAX_ROWS; lia | unfold MAX_COLS; lia | reflexivity | cbn; lia
    | vm_compute; reflexivity].
Defined.

(** C9.  The solver changes nothing but path flags: for dimensions up to the
    maximum and any contents of the array it returns, however it returns, a
    grid in which every cell has the six wall bits and the dead-end bit it
    had on entry. *)
Theorem solve_keeps_walls fuel maze nR nC :
  0 <= nR <= MAX_ROWS -> 0 <= nC <= MAX_COLS -> arr_wf maze ->
  (Z.to_nat (nR * nC) + 1 <= fuel)%nat ->
  exists grid result, solveMazeBFS fuel maze nR nC = Some (grid, result) /\
    same_walls maze grid.
Proof.
  intros HnR HnC Hwf Hfuel.
  destruct (decide (nR = 0 \/ nC = 0)) as [Hzero|Hpos].
  - exists maze, InvalidEnd. split; [by apply solve_empty_grid | apply same_walls_refl].
  - apply solve_keeps; [lia|lia|done..].
Qed.

Lemma solve_keeps_walls_witness :
  exists grid result, solveMazeBFS 10 example_maze 3 3 = Some (grid, result) /\
    same_walls example_maze grid.
Proof.
  apply (solve_keeps_walls 10 example_maze 3 3);
    [unfold MAX_ROWS; lia | unfold MAX_COLS; lia | reflexivity | cbn; lia].
Defined.

(** * Further properties of the code *)

(** ** getOppositeWall and getNeighbor *)

(** X1.  [getOppositeWall] pairs up the six directions: on a direction it
    returns a direction other than the argument, and applying it twice gives
    the argument back; on every other value it returns 0. *)
Theorem getOppositeWall_pairs_directions d :
  (d ∈ directions ->
     getOppositeWall d ∈ directions /\ getOppositeWall d <> d /\
     getOppositeWall (getOppositeWall d) = d) /\
  (d ∉ directions -> getOppositeWall d = 0).
Proof.
  split.
  - intros Hd. split; [by apply getOppositeWall_directions|].
    split; [by apply getOppositeWall_neq | by apply getOppositeWall_involutive].
  - intros Hd. unfold getOppositeWall.
    repeat match goal with
    | |- context [?x =? ?y] =>
        destruct (Z.eqb_spec x y) as [-> | ?]; [exfalso; apply Hd; dir_in|]
    end.
    reflexivity.
Qed.

(** X2.  From a cell of the grid, [getNeighbor] succeeds only for one of the
    six directions, and then returns a cell of the grid other than the cell
    itself, at most one row and one column away; the column is kept exactly
    by the directions up and down. *)
Theorem getNeighbor_adjacent r c d nR nC r2 c2 :
  0 <= nR < 4294967296 -> 0 <= nC < 4294967296 ->
  0 <= r < nR -> 0 <= c < nC ->
  getNeighbor r c d nR nC = Some (r2, c2) ->
  d ∈ directions /\ 0 <= r2 < nR /\ 0 <= c2 < nC /\
  Z.abs (r2 - r) <= 1 /\ Z.abs (c2 - c) <= 1 /\ (r2, c2) <> (r, c) /\
  (c2 = c <-> d = WALL_UP \/ d = WALL_DOWN).
Proof.
  intros HnR HnC Hr Hc H.
  destruct (decide (2147483648 <= nR \/ 2147483648 <= nC)) as [Hbig|Hsmall].
  { by rewrite getNeighbor_big in H. }
  rewrite getNeighbor_small in H by lia.
  pose proof (hex_neighbor_irrefl nR nC (r, c) d) as Hne.
  apply hex_neighbor_Some in H as (dr & dc & Ho & [= -> ->] & [Hr2 Hc2]).
  cbn [fst snd] in *.
  destruct (hex_offset_Some _ _ _ _ Ho) as (Hd & Hdc & Hdr).
  split; [done|]. split; [done|]. split; [done|]. split; [lia|]. split; [lia|].
  split.
  - intros [= E1 E2]. apply Hne. apply hex_neighbor_Some.
    exists dr, dc. cbn [fst snd]. split; [done|]. split; [f_equal; lia|].
    split; cbn [fst snd]; lia.
  - clear Hne. dir_cases Hd; cbn in Ho; injection Ho as <- <-;
      (split; [intros; first [by left | by right | lia]
              |intros [E|E]; first [lia | discriminate E]]).
Qed.

Lemma getNeighbor_adjacent_witness :
  WALL_UP_RIGHT ∈ directions /\ 0 <= 0 < 3 /\ 0 <= 1 < 3 /\
  Z.abs (0 - 1) <= 1 /\ Z.abs (1 - 0) <= 1 /\ (0, 1) <> (1, 0) /\
  (1 = 0 <-> WALL_UP_RIGHT = WALL_UP \/ WALL_UP_RIGHT = WALL_DOWN).
Proof.
  apply (getNeighbor_adjacent 1 0 WALL_UP_RIGHT 3 3 0 1); [lia..|reflexivity].
Defined.

(** X3.  Two different directions lead from a cell of the grid to two
    different neighbours. *)
Theorem getNeighbor_direction_unique r c d1 d2 nR nC b1 b2 :
  0 <= nR < 4294967296 -> 0 <= nC < 4294967296 ->
  0 <= r < nR -> 0 <= c < nC ->
  getNeighbor r c d1 nR nC = Some b1 -> getNeighbor r c d2 nR nC = Some b2 ->
  d1 <> d2 -> b1 <> b2.
Proof.
  intros HnR HnC Hr Hc H1 H2 Hne <-. apply Hne.
  destruct (decide (2147483648 <= nR \/ 2147483648 <= nC)) as [Hbig|Hsmall].
  { by rewrite getNeighbor_big in H1. }
  rewrite getNeighbor_small in H1, H2 by lia.
  by apply (hex_neighbor_inj nR nC (r, c) d1 d2 b1).
Qed.

Lemma getNeighbor_direction_unique_witness : (1, 0) <> (0, 1).
Proof.
  apply (getNeighbor_direction_unique 0 0 WALL_DOWN WALL_DOWN_RIGHT 3 3 (1, 0) (0, 1));
    [lia..|reflexivity|reflexivity|discriminate].
Defined.

(** X4.  The dimensions are converted to [int] before the bounds test: with
    a dimension of 2^31 or more the converted bound is negative and
    [getNeighbor] fails for every cell and every direction. *)
Theorem getNeighbor_dimension_overflow r c d nR nC :
  0 <= nR < 4294967296 -> 0 <= nC < 4294967296 ->
  2147483648 <= nR \/ 2147483648 <= nC ->
  getNeighbor r c d nR nC = None.
Proof. apply getNeighbor_big. Qed.

Lemma getNeighbor_dimension_overflow_witness :
  getNeighbor 0 0 WALL_DOWN 2147483648 3 = None.
Proof.
  apply (getNeighbor_dimension_overflow 0 0 WALL_DOWN 2147483648 3); lia.
Defined.

(** ** The number of candidates *)








(** ** The disjoint-set structure *)

(** What [find] returns is reached from [i] along the parent links. *)
Lemma find_chain_inv fuel p i p' r :
  DSU.find fuel p i = Some (p', r) -> exists l, chain p i l r.
Proof.
  revert p i p' r. induction fuel as [|fuel IH]; intros p i p' r; [discriminate|].
  cbn [DSU.find]. destruct (vec_get p i) as [pi|] eqn:Hi; [|discriminate]. cbn.
  destruct (Z.eqb_spec pi i) as [->|Hne].
  - intros [= <- <-]. exists [i]. by constructor.
  - destruct (DSU.find fuel p pi) as [[p1 r1]|] eqn:Hf; [|discriminate]. cbn.
    destruct (vec_set p1 i r1) as [p2|]; [|discriminate]. cbn.
    intros [= <- <-]. destruct (IH _ _ _ _ Hf) as [l Hl].
    exists (i :: l). by apply (chain_link p i pi).
Qed.

(** The vector after [find]: the nodes of the chain point at the
    representative, the others are as before. *)
Lemma find_chain_effect p i l r fuel p' :
  chain p i l r -> DSU.find fuel p i = Some (p', r) ->
  (forall x, x ∈ l -> vec_get p' x = Some r) /\
  (forall x, x ∉ l -> vec_get p' x = vec_get p x).
Proof.
  intros Hc. revert fuel p'.
  induction Hc as [i Hi | i j l r Hi Hne Hc IH]; intros [|fuel] p'; try discriminate;
    cbn [DSU.find]; rewrite Hi; cbn.
  - rewrite Z.eqb_refl. intros [= <-]. split; [|done].
    intros x ->%list_elem_of_singleton. done.
  - destruct (Z.eqb_spec j i); [done|].
    destruct (DSU.find fuel p j) as [[p1 r1]|] eqn:Hf; [|discriminate]. cbn.
    destruct (find_chain_inv _ _ _ _ _ Hf) as [l1 Hl1].
    destruct (chain_det _ _ _ _ _ _ Hc Hl1) as [<- <-].
    destruct (IH _ _ Hf) as [Hin Hout].
    destruct (vec_set p1 i r) as [p2|] eqn:Hset; [|discriminate]. cbn.
    intros [= <-]. split.
    + intros x Hx. destruct (decide (x = i)) as [->|Hxi].
      * by apply (vec_get_set_eq p1 i r).
      * rewrite (vec_get_set_ne p1 i r p2 x) by done.
        apply Hin. apply elem_of_cons in Hx as [?|?]; done.
    + intros x Hx. apply not_elem_of_cons in Hx as [Hxi Hxl].
      rewrite (vec_get_set_ne p1 i r p2 x) by done. by apply Hout.
Qed.

(** X6.  On a well-formed forest [find], given the recursion depth of the
    number of elements, returns the representative of [i]; the sets and
    their representatives are as before; every node on the chain from [i]
    now points at the representative and the other entries are unchanged;
    and a second [find i] changes nothing. *)
Theorem find_representative n p i fuel :
  dsu_wf n p -> 0 <= i < n -> (Z.to_nat n <= fuel)%nat ->
  exists p' r l, DSU.find fuel p i = Some (p', r) /\ chain p i l r /\
    dsu_wf n p' /\
    (forall a b, same_set p' a b <-> same_set p a b) /\
    (forall j, is_root p' j <-> is_root p j) /\
    (forall x, x ∈ l -> vec_get p' x = Some r) /\
    (forall x, x ∉ l -> vec_get p' x = vec_get p x) /\
    DSU.find fuel p' i = Some (p', r).
Proof.
  intros Hwf Hi Hfuel.
  destruct (find_ok n p i fuel Hwf Hi Hfuel) as (p' & r & Hf & [l Hc] & Hs).
  destruct (find_chain_effect p i l r fuel p' Hc Hf) as [Hin Hout].
  exists p', r, l. split; [done|]. split; [done|].
  split; [by apply (dsu_same_wf n p)|].
  split; [intros a b; by apply (dsu_same_same_set n)|].
  split; [by destruct Hs as (_ & _ & ?)|].
  split; [done|]. split; [done|].
  assert (Hpi : vec_get p' i = Some r).
  { apply Hin. destruct (chain_head _ _ _ _ Hc) as [l' ->]. left. }
  assert (Hr : vec_get p' r = Some r).
  { destruct Hs as (_ & _ & Hroots). apply Hroots. by apply (chain_root_end p i l). }
  pose proof (chain_range _ _ _ _ r Hc) as Hrange.
  destruct fuel as [|fuel]; [lia|]. cbn [DSU.find]. rewrite Hpi. cbn.
  destruct (Z.eqb_spec r i) as [->|Hne]; [done|].
  destruct fuel as [|fuel].
  { assert (Hrl : r ∈ l).
    { clear -Hc. induction Hc; [left | by right]. }
    specialize (Hrange Hrl). destruct Hwf as [Hn _]. lia. }
  cbn [DSU.find]. rewrite Hr. cbn. rewrite Z.eqb_refl. cbn.
  pose proof (vec_get_Some _ _ _ Hpi) as Hir.
  rewrite (vec_set_is_Some p' i r Hir). cbn. do 2 f_equal.
  apply list_insert_id. unfold vec_get in Hpi.
  by destruct (Z.leb_spec 0 i); [|lia].
Qed.

Lemma find_representative_witness :
  exists p' r l, DSU.find 4 [1; 2; 2; 3] 0 = Some (p', r) /\ chain [1; 2; 2; 3] 0 l r /\
    dsu_wf 4 p' /\
    (forall a b, same_set p' a b <-> same_set [1; 2; 2; 3] a b) /\
    (forall j, is_root p' j <-> is_root [1; 2; 2; 3] j) /\
    (forall x, x ∈ l -> vec_get p' x = Some r) /\
    (forall x, x ∉ l -> vec_get p' x = vec_get [1; 2; 2; 3] x) /\
    DSU.find 4 p' 0 = Some (p', r).
Proof.
  apply (find_representative 4 [1; 2; 2; 3] 0 4); [|lia|cbn; lia].
  split; [reflexivity|]. intros i Hi.
  assert (H2 : chain [1; 2; 2; 3] 2 [2] 2) by (by constructor).
  assert (H1 : chain [1; 2; 2; 3] 1 [1; 2] 2) by (by apply (chain_link _ 1 2)).
  assert (i = 0 \/ i = 1 \/ i = 2 \/ i = 3) as [-> | [-> | [-> | ->]]] by lia.
  - exists 2, [0; 1; 2]. by apply (chain_link _ 0 1).
  - by exists 2, [1; 2].
  - by exists 2, [2].
  - exists 3, [3]. by constructor.
Defined.

(** X7.  Whatever the parent vector holds, a result of [find] is a
    representative reached from [i] along the parent links; where the links
    lead to none (they run in a cycle or leave the vector) [find] has no
    result at any depth. *)
Theorem find_only_representatives fuel p i :
  (forall p' r, DSU.find fuel p i = Some (p', r) ->
     root_of p i r /\ is_root p r /\ length p' = length p) /\
  ((forall r, ~ root_of p i r) -> DSU.find fuel p i = None).
Proof.
  assert (H : forall p' r, DSU.find fuel p i = Some (p', r) ->
            root_of p i r /\ is_root p r /\ length p' = length p).
  { intros p' r Hf. destruct (find_chain_inv _ _ _ _ _ Hf) as [l Hc].
    split; [by exists l|]. split; [by apply (chain_root_end p i l)|].
    destruct (find_chain p i l r (length l) Hc) as (p1 & Hf1 & Hl & _); [done|].
    clear Hf1 p1 Hl. revert p i p' r l Hf Hc.
    induction fuel as [|fuel IH]; intros p i p' r l; [discriminate|].
    cbn [DSU.find]. destruct (vec_get p i) as [pi|]; [|discriminate]. cbn.
    destruct (Z.eqb_spec pi i); [by intros [= <- <-]|].
    destruct (DSU.find fuel p pi) as [[p1 r1]|] eqn:Hf; [|discriminate]. cbn.
    destruct (vec_set p1 i r1) as [p2|] eqn:Hset; [|discriminate]. cbn.
    intros [= <- <-] _. destruct (find_chain_inv _ _ _ _ _ Hf) as [l1 Hl1].
    rewrite (vec_set_length _ _ _ _ Hset). by apply (IH p pi p1 r1 l1). }
  split; [exact H|].
  intros Hno. destruct (DSU.find fuel p i) as [[p' r]|] eqn:Hf; [|done].
  destruct (H p' r eq_refl) as [Hr _]. by destruct (Hno r).
Qed.

(** X8.  [unite] merges the sets of [i] and [j] and no others; the number of
    representatives drops by one when the two were in different sets and
    stays the same when they were already together. *)
Theorem unite_merges n p i j fuel :
  dsu_wf n p -> 0 <= i < n -> 0 <= j < n -> (Z.to_nat n <= fuel)%nat ->
  exists p', DSU.unite fuel p i j = Some p' /\ dsu_wf n p' /\
    (forall x y, same_set p' x y <->
       same_set p x y \/ (same_set p x i /\ same_set p y j) \/
       (same_set p x j /\ same_set p y i)) /\
    (same_set p i j -> length (roots p') = length (roots p)) /\
    (~ same_set p i j -> S (length (roots p')) = length (roots p)).
Proof.
  intros Hwf Hi Hj Hfuel.
  destruct (find_ok n p i fuel Hwf Hi Hfuel) as (p1 & ri & Hf1 & Hri & Hs1).
  pose proof (dsu_same_wf _ _ _ Hs1 Hwf) as Hwf1.
  destruct (find_ok n p1 j fuel Hwf1 Hj Hfuel) as (p2 & rj & Hf2 & Hrj & Hs2).
  apply (dsu_same_root_of n p p1 _ _ Hs1 Hwf) in Hrj.
  destruct (decide (ri = rj)) as [<-|Hne].
  - assert (Hsame : same_set p i j) by (by exists ri).
    pose proof (dsu_same_trans _ _ _ Hs1 Hs2) as Hs.
    exists p2. unfold DSU.unite. rewrite Hf1. cbn. rewrite Hf2. cbn.
    rewrite Z.eqb_refl. split; [done|].
    split; [by apply (dsu_same_wf n p1)|]. split; [|split].
    + intros x y. rewrite (dsu_same_same_set n p p2 x y Hs Hwf). split; [by left|].
      intros [H|[[Hx Hy]|[Hx Hy]]]; [done|..].
      * apply (same_set_trans p x i y); [done|].
        apply (same_set_trans p i j y); [done | by apply same_set_sym].
      * apply (same_set_trans p x j y); [done|].
        apply (same_set_trans p j i y); [by apply same_set_sym | by apply same_set_sym].
    + intros _. by rewrite (dsu_same_roots _ _ Hs).
    + done.
  - assert (Hdiff : ~ same_set p i j).
    { intros (r & Hr1 & Hr2).
      pose proof (root_of_det _ _ _ _ Hr1 Hri). pose proof (root_of_det _ _ _ _ Hr2 Hrj).
      congruence. }
    destruct (unite_ok n p i j fuel Hwf Hi Hj Hfuel Hdiff) as (p' & Hu & Hwf' & Hroots & Hiff).
    exists p'. split; [done|]. split; [done|]. split; [done|].
    split; [done | by intros _].
Qed.

Lemma unite_merges_witness :
  exists p', DSU.unite 3 (DSU.init 3) 0 2 = Some p' /\ dsu_wf 3 p' /\
    (forall x y, same_set p' x y <->
       same_set (DSU.init 3) x y \/ (same_set (DSU.init 3) x 0 /\ same_set (DSU.init 3) y 2) \/
       (same_set (DSU.init 3) x 2 /\ same_set (DSU.init 3) y 0)) /\
    (same_set (DSU.init 3) 0 2 -> length (roots p') = length (roots (DSU.init 3))) /\
    (~ same_set (DSU.init 3) 0 2 -> S (length (roots p')) = length (roots (DSU.init 3))).
Proof.
  apply (unite_merges 3 (DSU.init 3) 0 2 3); [apply init_wf; lia|lia|lia|cbn; lia].
Defined.

(** X9.  The constructor makes [n] sets of one element each: every element
    is its own representative, no two different elements share a set, and
    [find] returns its argument and leaves the vector alone. *)
Theorem init_singletons n :
  0 <= n ->
  dsu_wf n (DSU.init n) /\
  Z.of_nat (length (roots (DSU.init n))) = n /\
  (forall i j, same_set (DSU.init n) i j <-> i = j /\ 0 <= i < n) /\
  (forall i fuel, 0 <= i < n -> DSU.find (S fuel) (DSU.init n) i = Some (DSU.init n, i)).
Proof.
  intros Hn. split; [by apply init_wf|]. split; [rewrite init_roots by done; lia|].
  split.
  - intros i j. split.
    + intros H. split; [by apply init_same_set in H|].
      destruct H as (r & Hr & _). apply root_of_range in Hr.
      unfold DSU.init in Hr. rewrite length_seqZ in Hr. lia.
    + intros [<- Hi]. apply (same_set_refl _ n); [by apply init_wf | done].
  - intros i fuel Hi. cbn [DSU.find]. unfold DSU.init.
    rewrite vec_get_seqZ by done. cbn. by rewrite Z.eqb_refl.
Qed.

Lemma init_singletons_witness :
  dsu_wf 3 (DSU.init 3) /\
  Z.of_nat (length (roots (DSU.init 3))) = 3 /\
  (forall i j, same_set (DSU.init 3) i j <-> i = j /\ 0 <= i < 3) /\
  (forall i fuel, 0 <= i < 3 -> DSU.find (S fuel) (DSU.init 3) i = Some (DSU.init 3, i)).
Proof. apply (init_singletons 3). lia. Defined.

(** ** generateMaze *)

Lemma land_le_l v x : 0 <= v -> 0 <= Z.land v x <= v.
Proof.
  intros Hv. split; [apply Z.land_nonneg; lia|].
  assert (Hd : 0 <= Z.ldiff v x) by (apply Z.ldiff_nonneg; lia).
  assert (Hz : Z.land (Z.ldiff v x) (Z.land v x) = 0).
  { apply Z.bits_inj'. intros j Hj.
    rewrite !Z.land_spec, Z.ldiff_spec, Z.bits_0.
    by destruct (Z.testbit v j), (Z.testbit x j). }
  pose proof (Z.add_nocarry_lxor _ _ Hz) as Hadd.
  rewrite (Z.lxor_lor _ _ Hz), Z.lor_ldiff_and in Hadd. lia.
Qed.

Lemma clear_bit_walls v d : 0 <= v <= ALL_WALLS -> 0 <= clear_bit v d <= ALL_WALLS.
Proof.
  intros Hv. unfold clear_bit, to_u8, ALL_WALLS in *.
  pose proof (land_le_l v (Z.lnot d) ltac:(lia)). lia.
Qed.

Section generation.
Context (nR nC : Z).
Hypothesis HnR : 1 <= nR <= MAX_ROWS.
Hypothesis HnC : 1 <= nC <= MAX_COLS.

(** The removal loop leaves nothing but wall bits in the cells of the
    grid. *)
Lemma remove_walls_bits fuel target walls st0 st1 :
  remove_walls fuel nR nC target walls st0 = Some st1 ->
  (forall w, w ∈ walls -> in_grid nR nC (wall_r w, wall_c w)) ->
  (forall a v, in_grid nR nC a -> arr_get (gs_maze st0) a.1 a.2 = Some v ->
               0 <= v <= ALL_WALLS) ->
  forall a v, in_grid nR nC a -> arr_get (gs_maze st1) a.1 a.2 = Some v ->
              0 <= v <= ALL_WALLS.
Proof.
  revert st0 st1.
  induction walls as [|w ws IH]; intros st0 st1; cbn [remove_walls].
  - by intros [= ->].
  - destruct (_ >=? _); [by intros [= ->]|].
    destruct (remove_wall fuel nR nC st0 w) as [st2|] eqn:E; [|done].
    cbn [mbind option_bind]. intros Hrun Hws H0.
    apply (IH _ _ Hrun); [intros; apply Hws; by right|].
    specialize (Hws w ltac:(left)). clear IH Hrun.
    unfold remove_wall in E.
    change (getNeighbor (wall_r w) (wall_c w) (wall_direction w) nR nC)
      with (neighbor nR nC (wall_r w, wall_c w) (wall_direction w)) in E.
    rewrite (nb nR nC HnR HnC) in E by done.
    destruct (hex_neighbor nR nC _ _) as [[r2 c2]|] eqn:Hn; [|by injection E as <-].
    destruct (DSU.find _ _ _) as [[p1 r1]|]; [|done]. cbn [mbind option_bind] in E.
    destruct (DSU.find _ _ _) as [[p2 r2']|]; [|done]. cbn [mbind option_bind] in E.
    destruct (_ =? _); [by injection E as <-|].
    destruct (arr_get _ _ _) as [v1|] eqn:Hv1; [|done]. cbn [mbind option_bind] in E.
    destruct (arr_set _ _ _ _) as [m1|] eqn:Hm1; [|done]. cbn [mbind option_bind] in E.
    destruct (arr_get m1 _ _) as [v2|] eqn:Hv2; [|done]. cbn [mbind option_bind] in E.
    destruct (arr_set m1 _ _ _) as [m2|] eqn:Hm2; [|done]. cbn [mbind option_bind] in E.
    destruct (DSU.unite _ _ _ _) as [p3|]; [|done]. injection E as <-. cbn [gs_maze].
    assert (H1 : forall a v, in_grid nR nC a -> arr_get m1 a.1 a.2 = Some v ->
                             0 <= v <= ALL_WALLS).
    { intros a v Ha. rewrite (arr_get_set _ _ _ _ _ _ _ Hm1). case_decide as Ea.
      - intros [= <-]. apply clear_bit_walls. by apply (H0 (wall_r w, wall_c w)).
      - by apply H0. }
    intros a v Ha. rewrite (arr_get_set _ _ _ _ _ _ _ Hm2). case_decide as Ea.
    + intros [= <-]. apply clear_bit_walls. apply (H1 (r2, c2)); [|done].
      by apply (hex_neighbor_in_grid _ _ _ _ _ Hn).
    + by apply H1.
Qed.

Lemma generate_state_bits fuel maze walls st :
  arr_wf maze ->
  generate_state fuel maze nR nC walls = Some st ->
  (forall w, w ∈ walls -> in_grid nR nC (wall_r w, wall_c w)) ->
  forall a v, in_grid nR nC a -> arr_get (gs_maze st) a.1 a.2 = Some v ->
              0 <= v <= ALL_WALLS.
Proof.
  intros Hwf. unfold generate_state.
  destruct (init_walls_ok nR nC HnR HnC maze Hwf) as (m0 & -> & Hwf0 & Hall & Hout).
  cbn [mbind option_bind]. intros Hrun Hws.
  apply (remove_walls_bits _ _ _ _ _ Hrun Hws). cbn [gs_maze].
  intros a v Ha. rewrite (Hall a Ha). intros [= <-]. unfold ALL_WALLS. lia.
Qed.

(** The state in which the removal loop stops, for any candidates from
    the grid: the removals so far decide whether the grid is connected. *)
Lemma gen_inv_connected st :
  gen_inv nR nC st ->
  0 <= gs_removed st <= nR * nC - 1 /\
  (gs_removed st = nR * nC - 1 <-> connected (open_step (gs_maze st) nR nC) nR nC).
Proof.
  intros [Hmwf Hdsu Hsym Hrim Hlink Hbr Hpass Hroots].
  pose proof (grid_size nR nC HnR HnC) as Hsz.
  pose proof (roots_nonempty nR nC HnR HnC (gs_dsu st) Hdsu) as Hne.
  split; [lia|]. split.
  - intros Hk a b Ha Hb. apply Hlink; [done..|].
    apply (one_root_same_set (nR * nC)); [done|lia|..]; by apply cell_idx_range.
  - intros Hconn.
    assert (Hone : length (roots (gs_dsu st)) = 1%nat); [|lia].
    apply (same_set_one_root (nR * nC)); [done|lia|].
    intros i Hi. destruct (cell_idx_surj nR nC HnC i Hi) as [Ha <-].
    assert (Horigin : in_grid nR nC (0, 0)) by (split; cbn; lia).
    change 0 with (cell_idx nC (0, 0)). apply Hlink; [done..|]. by apply Hconn.
Qed.
End generation.

(** X10.  For any list of candidates from cells of the grid, in any order,
    with repetitions or omissions, the removal loop keeps the walls
    symmetric, the rim closed and the passages free of cycles; it removes at
    most nR nC - 1 walls, and the warning is printed exactly when the grid
    it leaves is not connected. *)
Theorem generateMaze_warns_iff_disconnected fuel shuffle maze nR nC :
  1 <= nR <= MAX_ROWS -> 1 <= nC <= MAX_COLS -> arr_wf maze ->
  (forall w, w ∈ shuffle (internalWalls nR nC) -> in_grid nR nC (wall_r w, wall_c w)) ->
  (Z.to_nat (nR * nC) <= fuel)%nat ->
  exists grid warn, generateMaze fuel shuffle maze nR nC = Some (grid, warn) /\
    wall_symmetric grid nR nC /\ boundary_closed grid nR nC /\
    acyclic (open_step grid nR nC) /\
    Z.of_nat (length (open_passages grid nR nC)) <= nR * nC - 1 /\
    (warn = true <-> Z.of_nat (length (open_passages grid nR nC)) < nR * nC - 1) /\
    (warn = false <-> connected (open_step grid nR nC) nR nC).
Proof.
  intros HnR HnC Hwf Hws Hfuel.
  destruct (generate_state_ok nR nC HnR HnC fuel maze _ Hfuel Hwf Hws)
    as (st & Hrun & Hinv & _ & _).
  exists (gs_maze st), (gs_removed st <? nR * nC - 1).
  split; [by apply generateMaze_run|].
  destruct (gen_inv_connected nR nC HnR HnC st Hinv) as [Hk Hconn].
  destruct Hinv as [Hmwf Hdsu Hsym Hrim Hlink Hbr Hpass Hroots].
  split; [done|]. split; [done|].
  split; [apply all_bridges_acyclic; [by apply open_step_sym | done]|].
  split; [lia|]. rewrite Hpass, <- Hconn.
  destruct (Z.ltb_spec (gs_removed st) (nR * nC - 1)); split; intros; first [done | lia].
Qed.

Lemma generateMaze_warns_iff_disconnected_witness :
  exists grid warn, generateMaze 6 (take 2) (replicate 2500 0) 2 3 = Some (grid, warn) /\
    wall_symmetric grid 2 3 /\ boundary_closed grid 2 3 /\
    acyclic (open_step grid 2 3) /\
    Z.of_nat (length (open_passages grid 2 3)) <= 2 * 3 - 1 /\
    (warn = true <-> Z.of_nat (length (open_passages grid 2 3)) < 2 * 3 - 1) /\
    (warn = false <-> connected (open_step grid 2 3) 2 3).
Proof.
  apply (generateMaze_warns_iff_disconnected 6 (take 2) (replicate 2500 0) 2 3);
    [unfold MAX_ROWS; lia | unfold MAX_COLS; lia | reflexivity | | cbn; lia].
  intros w Hw. vm_compute in Hw.
  apply elem_of_cons in Hw as [-> | Hw]; [split; cbn; lia|].
  apply elem_of_cons in Hw as [-> | Hw]; [split; cbn; lia|].
  by apply elem_of_nil in Hw.
Defined.

(** X11.  Generation writes the cells of the grid and nothing else: a cell
    of the array outside the grid keeps its byte, and a cell of the grid
    ends with wall bits only, whatever the array held before. *)
Theorem generateMaze_frame fuel shuffle maze nR nC :
  1 <= nR <= MAX_ROWS -> 1 <= nC <= MAX_COLS -> arr_wf maze ->
  (forall w, w ∈ shuffle (internalWalls nR nC) -> in_grid nR nC (wall_r w, wall_c w)) ->
  (Z.to_nat (nR * nC) <= fuel)%nat ->
  exists grid warn, generateMaze fuel shuffle maze nR nC = Some (grid, warn) /\
    arr_wf grid /\
    (forall a, ~ in_grid nR nC a -> arr_get grid a.1 a.2 = arr_get maze a.1 a.2) /\
    (forall a, in_grid nR nC a ->
       exists v, arr_get grid a.1 a.2 = Some v /\ 0 <= v <= ALL_WALLS).
Proof.
  intros HnR HnC Hwf Hws Hfuel.
  destruct (generate_state_ok nR nC HnR HnC fuel maze _ Hfuel Hwf Hws)
    as (st & Hrun & Hinv & Hout & _).
  exists (gs_maze st), (gs_removed st <? nR * nC - 1).
  split; [by apply generateMaze_run|]. split; [by destruct Hinv|]. split; [done|].
  intros a Ha.
  destruct (grid_get nR nC HnR HnC (gs_maze st) a) as [v Hv]; [by destruct Hinv|done|].
  exists v. split; [done|].
  by apply (generate_state_bits nR nC HnR HnC fuel maze _ st Hwf Hrun Hws a).
Qed.

Lemma generateMaze_frame_witness :
  exists grid warn, generateMaze 6 id (replicate 2500 255) 2 3 = Some (grid, warn) /\
    arr_wf grid /\
    (forall a, ~ in_grid 2 3 a -> arr_get grid a.1 a.2 = arr_get (replicate 2500 255) a.1 a.2) /\
    (forall a, in_grid 2 3 a ->
       exists v, arr_get grid a.1 a.2 = Some v /\ 0 <= v <= ALL_WALLS).
Proof.
  apply (generateMaze_frame 6 id (replicate 2500 255) 2 3);
    [unfold MAX_ROWS; lia | unfold MAX_COLS; lia | reflexivity | | cbn; lia].
  intros w Hw. by apply (shuffled_in_grid 2 3 (internalWalls 2 3)).
Defined.

Lemma internalWalls_empty nR nC : nR <= 0 \/ nC <= 0 -> internalWalls nR nC = [].
Proof.
  intros [H|H]; unfold internalWalls.
  - rewrite (seqZ_nil 0 nR) by done. reflexivity.
  - rewrite (seqZ_nil 0 nC) by done. induction (seqZ 0 nR); [reflexivity | done].
Qed.

Lemma cells_nil nR nC : nR <= 0 \/ nC <= 0 -> cells nR nC = [].
Proof.
  intros [H|H]; unfold cells.
  - rewrite (seqZ_nil 0 nR) by done. reflexivity.
  - rewrite (seqZ_nil 0 nC) by done. induction (seqZ 0 nR); [reflexivity | done].
Qed.

(** X12.  With a dimension of 0 there is no cell and no candidate: the array
    is left as it was.  The target [totalCells - 1] is computed in
    [uint32_t] and wraps to 4294967295, so the warning is printed. *)
Theorem generateMaze_no_cells fuel shuffle maze nR nC :
  0 <= nR < 4294967296 -> 0 <= nC < 4294967296 -> nR = 0 \/ nC = 0 ->
  shuffle (internalWalls nR nC) ≡ₚ internalWalls nR nC ->
  generateMaze fuel shuffle maze nR nC = Some (maze, true).
Proof.
  intros HnR HnC Hz Hperm.
  rewrite internalWalls_empty in Hperm by lia. apply Permutation_nil_r in Hperm.
  unfold generateMaze, generate_state, init_walls.
  rewrite internalWalls_empty, Hperm, cells_nil by lia.
  assert (nR * nC = 0) as -> by nia. reflexivity.
Qed.

Lemma generateMaze_no_cells_witness :
  generateMaze 0 id walled_grid 0 5 = Some (walled_grid, true).
Proof. apply (generateMaze_no_cells 0 id walled_grid 0 5); [lia|lia|by left|done]. Defined.

(** ** solveMazeBFS *)

(** Clearing the path flag is masking with the other seven bits. *)
Lemma clear_VISITED_mask v : clear_bit v VISITED = Z.land v NOT_VISITED_MASK.
Proof.
  apply Z.bits_inj'. intros j Hj. rewrite Z.land_spec, VISITED_pow2.
  rewrite testbit_clear_bit, testbit_mask by lia.
  destruct (j <? 8), (j =? 6), (Z.testbit v j); reflexivity.
Qed.

(** What [getNeighbor] returns is a cell of the grid, wherever it starts. *)
Lemma getNeighbor_in_grid r c d nR nC b :
  0 <= nR < 2147483648 -> 0 <= nC < 2147483648 ->
  getNeighbor r c d nR nC = Some b -> in_grid nR nC b.
Proof.
  intros HnR HnC. unfold getNeighbor. rewrite (to_int_small nR), (to_int_small nC) by lia.
  match goal with |- match ?m with _ => _ end = _ -> _ => destruct m as [[tR tC]|] end;
    [|discriminate].
  destruct (Z.leb_spec 0 tR); [|discriminate].
  destruct (Z.ltb_spec tR nR); [|discriminate].
  destruct (Z.leb_spec 0 tC); [|discriminate].
  destruct (Z.ltb_spec tC nC); [|discriminate].
  cbn. intros [= <-]. rewrite !to_u32_small by lia. split; cbn; lia.
Qed.

(** Two arrays of the declared size with the same cells are equal. *)
Lemma arr_ext {A} (m m' : list A) :
  arr_wf m -> arr_wf m' -> (forall r c, arr_get m r c = arr_get m' r c) -> m = m'.
Proof.
  intros Hm Hm' H. apply list_eq. intros i.
  destruct (decide (i < Z.to_nat (MAX_ROWS * MAX_COLS))%nat) as [Hi|Hi].
  - specialize (H (Z.of_nat i / MAX_COLS) (Z.of_nat i mod MAX_COLS)).
    unfold arr_get, arr_ok, arr_index, MAX_ROWS, MAX_COLS in *.
    assert (E : Z.to_nat (Z.of_nat i / 50 * 50 + Z.of_nat i mod 50) = i) by lia.
    rewrite E in H.
    destruct (Z.leb_spec 0 (Z.of_nat i / 50)); [|lia].
    destruct (Z.ltb_spec (Z.of_nat i / 50) 50); [|lia].
    destruct (Z.leb_spec 0 (Z.of_nat i mod 50)); [|lia].
    destruct (Z.ltb_spec (Z.of_nat i mod 50) 50); [|lia]. exact H.
  - unfold arr_wf in *. rewrite !lookup_ge_None_2 by lia. done.
Qed.

(** Step 1 on two arrays that differ in path flags of the cells visited
    only: the same tables result. *)
Lemma solve_init_fold_eq (l : list cell) count m m' :
  arr_wf m -> arr_wf m' ->
  (forall a, a ∈ l ->
     (fun v => clear_bit v VISITED) <$> arr_get m a.1 a.2 =
     (fun v => clear_bit v VISITED) <$> arr_get m' a.1 a.2) ->
  (forall a, a ∉ l -> arr_get m a.1 a.2 = arr_get m' a.1 a.2) ->
  foldM (fun '(count, m) a =>
           count' ← count_set count a.1 a.2 (-1);
           v ← arr_get m a.1 a.2;
           m' ← arr_set m a.1 a.2 (clear_bit v VISITED);
           Some (count', m')) (count, m) l =
  foldM (fun '(count, m) a =>
           count' ← count_set count a.1 a.2 (-1);
           v ← arr_get m a.1 a.2;
           m' ← arr_set m a.1 a.2 (clear_bit v VISITED);
           Some (count', m')) (count, m') l.
Proof.
  revert count m m'. induction l as [|x l IH]; intros count m m' Hm Hm' Hin Hout.
  - cbn [foldM]. do 2 f_equal. apply arr_ext; [done..|].
    intros r c. apply (Hout (r, c)). apply not_elem_of_nil.
  - cbn [foldM]. destruct (count_set count x.1 x.2 (-1)) as [count1|]; [|done].
    cbn [mbind option_bind]. pose proof (Hin x ltac:(left)) as Hx.
    destruct (arr_get m x.1 x.2) as [v|] eqn:Hv, (arr_get m' x.1 x.2) as [v'|] eqn:Hv';
      try done.
    cbn in Hx. injection Hx as Hx. cbn [mbind option_bind].
    pose proof (arr_get_ok _ _ _ _ Hv) as Hok.
    rewrite (arr_set_is_Some m x.1 x.2 _ Hm Hok), (arr_set_is_Some m' x.1 x.2 _ Hm' Hok).
    cbn [mbind option_bind]. rewrite <- Hx.
    pose proof (arr_set_is_Some m x.1 x.2 (clear_bit v VISITED) Hm Hok) as Hs.
    pose proof (arr_set_is_Some m' x.1 x.2 (clear_bit v VISITED) Hm' Hok) as Hs'.
    apply IH; [by eapply arr_set_wf | by eapply arr_set_wf | |].
    + intros a Ha. rewrite (arr_get_set _ _ _ _ _ a.1 a.2 Hs), (arr_get_set _ _ _ _ _ a.1 a.2 Hs').
      case_decide; [done|]. apply Hin. by right.
    + intros a Ha. rewrite (arr_get_set _ _ _ _ _ a.1 a.2 Hs), (arr_get_set _ _ _ _ _ a.1 a.2 Hs').
      case_decide as E; [done|]. apply Hout. apply not_elem_of_cons. split; [|done].
      intros ->. apply E. by destruct x.
Qed.

(** Step 1 writes the cells it visits. *)
Lemma solve_init_fold_outside (l : list cell) count m count' m' a :
  foldM (fun '(count, m) a =>
           count' ← count_set count a.1 a.2 (-1);
           v ← arr_get m a.1 a.2;
           m' ← arr_set m a.1 a.2 (clear_bit v VISITED);
           Some (count', m')) (count, m) l = Some (count', m') ->
  a ∉ l -> arr_get m' a.1 a.2 = arr_get m a.1 a.2.
Proof.
  revert count m. induction l as [|x l IH]; intros count m; cbn [foldM].
  - by intros [= _ ->].
  - destruct (count_set count x.1 x.2 (-1)) as [count1|]; [|done]. cbn [mbind option_bind].
    destruct (arr_get m x.1 x.2) as [v|]; [|done]. cbn [mbind option_bind].
    destruct (arr_set m x.1 x.2 _) as [m1|] eqn:Hs; [|done]. cbn [mbind option_bind].
    intros Hrun [Hne Hl]%not_elem_of_cons. rewrite (IH _ _ Hrun Hl).
    apply (arr_get_set_ne _ _ _ _ _ _ _ Hs). intros E. apply Hne. destruct a, x; cbn in *; congruence.
Qed.

Lemma find_next_neighbor maze count nR nC r c dirs b :
  find_next maze count nR nC r c dirs = Some (Some b) ->
  exists dir, getNeighbor r c dir nR nC = Some b.
Proof.
  induction dirs as [|dir dirs IH]; cbn [find_next]; [done|].
  destruct (arr_get maze r c) as [v|]; [|done]. cbn [mbind option_bind].
  destruct (Z.land v dir =? 0); [|done].
  destruct (getNeighbor r c dir nR nC) as [[r2 c2]|] eqn:Hn; [|done].
  destruct (count_get count r2 c2) as [cn|]; [|done]. cbn [mbind option_bind].
  destruct (count_get count r c) as [cc|]; [|done]. cbn [mbind option_bind].
  destruct (cn =? to_int (cc - 1)); [|done]. intros [= <-]. eauto.
Qed.

(** The trace writes cells of the grid. *)
Lemma trace_loop_outside fuel count nR nC mz r c mz' res a :
  0 <= nR <= MAX_ROWS -> 0 <= nC <= MAX_COLS ->
  trace_loop fuel count nR nC mz r c = Some (mz', res) ->
  ~ in_grid nR nC a -> arr_get mz' a.1 a.2 = arr_get mz a.1 a.2.
Proof.
  intros HnR HnC. unfold MAX_ROWS, MAX_COLS in *. revert mz r c.
  induction fuel as [|fuel IH]; intros mz r c; cbn [trace_loop]; [done|].
  destruct (count_get count r c) as [cc|]; [|done]. cbn [mbind option_bind].
  destruct (cc =? 0); [by intros [= <- _]|].
  destruct (find_next mz count nR nC r c directions) as [[[r2 c2]|]|] eqn:Hnext; [| |done];
    cbn [mbind option_bind]; [|by intros [= <- _]].
  destruct (arr_get mz r2 c2) as [v|]; [|done]. cbn [mbind option_bind].
  destruct (arr_set mz r2 c2 _) as [mz1|] eqn:Hs; [|done]. cbn [mbind option_bind].
  intros Hrun Ha. rewrite (IH _ _ _ Hrun Ha).
  apply (arr_get_set_ne _ _ _ _ _ _ _ Hs). intros E. apply Ha.
  destruct (find_next_neighbor _ _ _ _ _ _ _ _ Hnext) as [dir Hn].
  apply getNeighbor_in_grid in Hn; [|lia..]. destruct a; cbn in *. congruence.
Qed.

Lemma solve_outside fuel maze nR nC grid res a :
  0 <= nR <= MAX_ROWS -> 0 <= nC <= MAX_COLS ->
  solveMazeBFS fuel maze nR nC = Some (grid, res) ->
  ~ in_grid nR nC a -> arr_get grid a.1 a.2 = arr_get maze a.1 a.2.
Proof.
  intros HnR HnC Hrun Ha. unfold solveMazeBFS, solve_label in Hrun.
  destruct (solve_init maze nR nC) as [[count maze1]|] eqn:Hinit; [|done].
  cbn [mbind option_bind] in Hrun.
  assert (H1 : arr_get maze1 a.1 a.2 = arr_get maze a.1 a.2).
  { apply (solve_init_fold_outside _ _ _ _ _ _ Hinit). by rewrite elem_of_cells. }
  destruct (Z.geb_spec (to_u32 (nR - 1)) nR) as [|HR];
    [cbn in Hrun; injection Hrun as <- _; done|].
  destruct (Z.geb_spec (to_u32 (nC - 1)) nC) as [|HC];
    [cbn in Hrun; injection Hrun as <- _; done|].
  cbn [orb mbind option_bind] in Hrun.
  destruct (count_set count _ _ 0) as [count1|]; [|done]. cbn [mbind option_bind] in Hrun.
  destruct (bfs_loop _ _ _ _ _) as [st|]; [|done]. cbn [mbind option_bind] in Hrun.
  destruct (count_get _ 0 0) as [cs|]; [|done]. cbn [mbind option_bind] in Hrun.
  destruct (cs =? -1); [by injection Hrun as <- _|].
  destruct (arr_get maze1 0 0) as [v|]; [|done]. cbn [mbind option_bind] in Hrun.
  destruct (arr_set maze1 0 0 _) as [maze2|] eqn:Hs; [|done]. cbn [mbind option_bind] in Hrun.
  rewrite (trace_loop_outside _ _ _ _ _ _ _ _ _ a HnR HnC Hrun Ha), <- H1.
  apply (arr_get_set_ne _ _ _ _ _ _ _ Hs). intros E. apply Ha.
  assert (nR <> 0) by (intros ->; by vm_compute in HR).
  assert (nC <> 0) by (intros ->; by vm_compute in HC).
  destruct a; cbn in *. injection E as <- <-. split; cbn; lia.
Qed.

(** The trace ends at the goal or gives up. *)
Lemma trace_loop_result fuel count nR nC mz r c mz' res :
  trace_loop fuel count nR nC mz r c = Some (mz', res) ->
  res = Solved \/ res = TraceError.
Proof.
  revert mz r c. induction fuel as [|fuel IH]; intros mz r c; cbn [trace_loop]; [done|].
  destruct (count_get count r c) as [cc|]; [|done]. cbn [mbind option_bind].
  destruct (cc =? 0); [intros [= _ <-]; by left|].
  destruct (find_next _ _ _ _ _ _ _) as [[[r2 c2]|]|]; [| |done];
    cbn [mbind option_bind]; [|intros [= _ <-]; by right].
  destruct (arr_get mz r2 c2) as [v'|]; [|done]. cbn [mbind option_bind].
  destruct (arr_set mz r2 c2 _) as [mz1|]; [|done]. cbn [mbind option_bind].
  apply IH.
Qed.

(** The solver returns for every supported size, zero included. *)
Lemma solve_returns fuel maze nR nC :
  0 <= nR <= MAX_ROWS -> 0 <= nC <= MAX_COLS -> arr_wf maze ->
  (Z.to_nat (nR * nC) + 1 <= fuel)%nat ->
  exists grid res, solveMazeBFS fuel maze nR nC = Some (grid, res) /\
    same_walls maze grid /\ (res = InvalidEnd <-> nR = 0 \/ nC = 0) /\
    (res = InvalidEnd -> grid = maze).
Proof.
  intros HnR HnC Hwf Hfuel.
  destruct (decide (nR = 0 \/ nC = 0)) as [Hzero|Hpos].
  - exists maze, InvalidEnd. split; [by apply solve_empty_grid|].
    split; [apply same_walls_refl|]. done.
  - assert (HnR' : 1 <= nR <= MAX_ROWS) by lia. assert (HnC' : 1 <= nC <= MAX_COLS) by lia.
    destruct (solve_cases nR nC fuel maze HnR' HnC' Hwf Hfuel)
      as (maze1 & count & lc & d & v & Hlab & Hwf1 & Hsame & Hflag & Hinv & Hd & Hdr & Hv & Hsolve).
    destruct (solve_keeps fuel maze nR nC HnR' HnC' Hwf Hfuel) as (grid & res & Hrun & Hkeep).
    exists grid, res. split; [done|]. split; [done|].
    assert (Hres : res <> InvalidEnd).
    { rewrite Hsolve in Hrun. destruct (d =? -1); [by injection Hrun as _ <-|].
      apply trace_loop_result in Hrun as [-> | ->]; done. }
    split; [split; [done|tauto] | done].
Qed.

(** X13.  The solver writes cells of the grid only: a cell of the array
    outside the [nR] x [nC] grid keeps its whole byte, a path flag left
    there included. *)
Theorem solve_writes_grid_only fuel maze nR nC :
  0 <= nR <= MAX_ROWS -> 0 <= nC <= MAX_COLS -> arr_wf maze ->
  (Z.to_nat (nR * nC) + 1 <= fuel)%nat ->
  exists grid res, solveMazeBFS fuel maze nR nC = Some (grid, res) /\
    arr_wf grid /\
    forall a, ~ in_grid nR nC a -> arr_get grid a.1 a.2 = arr_get maze a.1 a.2.
Proof.
  intros HnR HnC Hwf Hfuel.
  destruct (solve_returns fuel maze nR nC HnR HnC Hwf Hfuel) as (grid & res & Hrun & Hsame & _).
  exists grid, res. split; [done|]. split; [by apply (same_walls_wf maze)|].
  intros a Ha. by apply (solve_outside fuel maze nR nC grid res).
Qed.

Lemma solve_writes_grid_only_witness :
  exists grid res, solveMazeBFS 10 (replicate 2500 255) 3 3 = Some (grid, res) /\
    arr_wf grid /\
    forall a, ~ in_grid 3 3 a -> arr_get grid a.1 a.2 = arr_get (replicate 2500 255) a.1 a.2.
Proof.
  apply (solve_writes_grid_only 10 (replicate 2500 255) 3 3);
    [unfold MAX_ROWS; lia | unfold MAX_COLS; lia | reflexivity | cbn; lia].
Defined.

(** X14.  Solving a grid that has been solved gives the same grid and the
    same result again: the solver clears the path flags it finds before it
    starts and reads nothing else that it writes. *)
Theorem solve_idempotent fuel maze nR nC :
  0 <= nR <= MAX_ROWS -> 0 <= nC <= MAX_COLS -> arr_wf maze ->
  (Z.to_nat (nR * nC) + 1 <= fuel)%nat ->
  exists grid res, solveMazeBFS fuel maze nR nC = Some (grid, res) /\
    solveMazeBFS fuel grid nR nC = Some (grid, res).
Proof.
  intros HnR HnC Hwf Hfuel.
  destruct (solve_returns fuel maze nR nC HnR HnC Hwf Hfuel) as (grid & res & Hrun & Hsame & _).
  exists grid, res. split; [done|]. rewrite <- Hrun.
  assert (Hinit : solve_init grid nR nC = solve_init maze nR nC).
  { apply solve_init_fold_eq; [by apply (same_walls_wf maze) | done | |].
    - intros a Ha%elem_of_cells.
      destruct (arr_get maze a.1 a.2) as [v|] eqn:Hv.
      + destruct Hsame as [_ Hs]. destruct (Hs _ _ _ Hv) as (v' & -> & E). cbn.
        by rewrite !clear_VISITED_mask, E.
      + exfalso. unfold arr_get in Hv. destruct Ha as [Hr Hc].
        unfold arr_ok, arr_index, arr_wf, MAX_ROWS, MAX_COLS in *.
        destruct (Z.leb_spec 0 a.1); [|lia]. destruct (Z.ltb_spec a.1 50); [|lia].
        destruct (Z.leb_spec 0 a.2); [|lia]. destruct (Z.ltb_spec a.2 50); [|lia].
        cbn in Hv. apply lookup_ge_None_1 in Hv. lia.
    - intros a Ha. rewrite elem_of_cells in Ha.
      by apply (solve_outside fuel maze nR nC grid res). }
  unfold solveMazeBFS, solve_label. by rewrite Hinit.
Qed.

Lemma solve_idempotent_witness :
  exists grid res, solveMazeBFS 10 example_maze 3 3 = Some (grid, res) /\
    solveMazeBFS 10 grid 3 3 = Some (grid, res).
Proof.
  apply (solve_idempotent 10 example_maze 3 3);
    [unfold MAX_ROWS; lia | unfold MAX_COLS; lia | reflexivity | cbn; lia].
Defined.

(** X15.  The "end cell invalid" return is taken exactly when a dimension
    is 0: [nR - 1] or [nC - 1] then wraps to 4294967295.  The array is
    returned as it was. *)
Theorem solve_invalid_end fuel maze nR nC :
  0 <= nR <= MAX_ROWS -> 0 <= nC <= MAX_COLS -> arr_wf maze ->
  (Z.to_nat (nR * nC) + 1 <= fuel)%nat ->
  exists grid res, solveMazeBFS fuel maze nR nC = Some (grid, res) /\
    (res = InvalidEnd <-> nR = 0 \/ nC = 0) /\
    (res = InvalidEnd -> grid = maze).
Proof.
  intros HnR HnC Hwf Hfuel.
  destruct (solve_returns fuel maze nR nC HnR HnC Hwf Hfuel)
    as (grid & res & Hrun & _ & Hiff & Heq).
  by exists grid, res.
Qed.

Lemma solve_invalid_end_witness :
  exists grid res, solveMazeBFS 1 walled_grid 3 0 = Some (grid, res) /\
    (res = InvalidEnd <-> 3 = 0 \/ 0 = 0) /\
    (res = InvalidEnd -> grid = walled_grid).
Proof.
  apply (solve_invalid_end 1 walled_grid 3 0);
    [unfold MAX_ROWS; lia | unfold MAX_COLS; lia | reflexivity | cbn; lia].
Defined.

Section trace_any_grid.
Context (nR nC : Z).
Hypothesis HnR : 1 <= nR <= MAX_ROWS.
Hypothesis HnC : 1 <= nC <= MAX_COLS.
Context (m1 : list Z) (lc : list cell) (count : list (option Z)).
Hypothesis Hm1 : arr_wf m1.
Hypothesis Hinv : bfs_inv m1 nR nC [] lc count.

(** The trace on any grid: the cells it flags are a walk with labels
    going down by one, which ends at the goal or at a cell without a
    way on. *)
Lemma trace_loop_walk fuel mz cur k mz' res :
  same_walls m1 mz -> in_grid nR nC cur -> dist count cur = Some k -> 0 <= k ->
  trace_loop fuel count nR nC mz cur.1 cur.2 = Some (mz', res) ->
  exists p, head p = Some cur /\ is_walk (open_step m1 nR nC) p /\
    (forall (i : nat) a, p !! i = Some a -> dist count a = Some (k - Z.of_nat i)) /\
    (forall a, bit_set mz' a VISITED = true <->
               bit_set mz a VISITED = true \/ a ∈ tail p) /\
    ((res = Solved /\ last p = Some (goal_cell nR nC) /\ length p = S (Z.to_nat k)) \/
     (res = TraceError /\ exists x j, last p = Some x /\ dist count x = Some j /\ 0 < j /\
        forall b, open_step m1 nR nC x b -> dist count b <> Some (j - 1))).
Proof.
  revert mz cur k.
  induction fuel as [|fuel IH]; intros mz cur k Hsame Hcur Hk Hpos; [done|].
  pose proof (same_walls_wf _ _ Hsame Hm1) as Hmz.
  cbn [trace_loop]. change (count_get count cur.1 cur.2) with (dist count cur).
  rewrite Hk. cbn [mbind option_bind].
  destruct (Z.eqb_spec k 0) as [->|Hk0].
  { intros [= <- <-]. exists [cur]. split; [done|]. split; [done|]. split; [|split].
    - intros [|i] a; [|done]. intros [= <-]. by rewrite Z.sub_0_r.
    - intros a. cbn. rewrite elem_of_nil. tauto.
    - left. split; [done|]. split; [|done].
      by rewrite (final_zero nR nC m1 lc count Hinv cur). }
  destruct (find_next_ok nR nC HnR HnC m1 lc count Hinv mz cur k directions Hmz Hcur Hk)
    as ([b|] & -> & Hres); cbn [mbind option_bind].
  2:{ intros [= <- <-]. exists [cur]. split; [done|]. split; [done|]. split; [|split].
      - intros [|i] a; [|done]. intros [= <-]. by rewrite Z.sub_0_r.
      - intros a. cbn. rewrite elem_of_nil. tauto.
      - right. split; [done|]. exists cur, k. split; [done|]. split; [done|].
        split; [lia|]. intros b (_ & e & Hn & Hc)%(open_step_hex nR nC HnR HnC).
        apply (Hres e b); [by eapply hex_neighbor_directions|done|].
        rewrite <- Hc. apply same_walls_bit_clear; [done| |by apply (grid_get nR nC)].
        by eapply hex_neighbor_directions. }
  destruct Hres as (e & He & Hn & Hc & Hb). destruct b as [r2 c2].
  pose proof (hex_neighbor_in_grid _ _ _ _ _ Hn) as Hbg.
  destruct (grid_get nR nC HnR HnC mz (r2, c2) Hmz Hbg) as [v Hv].
  cbn [fst snd] in Hv. rewrite Hv. cbn [mbind option_bind].
  pose proof (arr_set_is_Some mz r2 c2 (set_bit v VISITED) Hmz
                (grid_ok nR nC HnR HnC _ Hbg)) as Hset.
  rewrite Hset. cbn [mbind option_bind].
  assert (Hsame1 : same_walls mz (<[arr_index r2 c2 := set_bit v VISITED]> mz)).
  { eapply same_walls_set; [exact Hv | exact Hset | apply land_mask_set_VISITED]. }
  intros Hrun.
  destruct (IH _ (r2, c2) (k - 1) (same_walls_trans _ _ _ Hsame Hsame1) Hbg Hb
              ltac:(lia) Hrun) as (p & Hh & Hw & Hidx & Hmark & Hend).
  destruct p as [|b p]; [done|]. injection Hh as ->.
  exists (cur :: (r2, c2) :: p). split; [done|]. split; [|split; [|split]].
  - split; [|done]. apply (open_step_hex nR nC HnR HnC). split; [done|].
    exists e. split; [done|]. rewrite <- Hc. symmetry.
    apply same_walls_bit_clear; [done| |by apply (grid_get nR nC)].
    by eapply hex_neighbor_directions.
  - intros [|i] a.
    + intros [= <-]. by rewrite Z.sub_0_r.
    + intros Ha. rewrite (Hidx i a Ha). f_equal. lia.
  - intros a. rewrite Hmark.
    rewrite (bit_set_set_VISITED mz (r2, c2) v _ a Hv Hset).
    cbn [tail]. rewrite elem_of_cons. tauto.
  - rewrite last_cons_cons. destruct Hend as [(-> & Hl & Hlen)|(-> & x & j & Hl & Hx)].
    + left. split; [done|]. split; [done|]. cbn [length] in *. lia.
    + right. split; [done|]. by exists x, j.
Qed.
End trace_any_grid.

(** X16.  On any grid, symmetric or not, unless the solver reports that
    there is no path, the cells it flags are the cells of a walk that begins
    at the start, leaves each cell through an open wall of that cell and
    has labels going down by one from the label of the start.  The walk
    ends at the goal with label 0 when the solver returns normally, and at a
    cell from which no open wall leads to a smaller label when it gives
    up. *)
Theorem solve_flags_descending_walk fuel maze nR nC :
  1 <= nR <= MAX_ROWS -> 1 <= nC <= MAX_COLS -> arr_wf maze ->
  (Z.to_nat (nR * nC) + 1 <= fuel)%nat ->
  exists grid res, solveMazeBFS fuel maze nR nC = Some (grid, res) /\
    (res = NoSolution \/
     exists p d, labelled_distance fuel maze nR nC start_cell = Some d /\ 0 <= d /\
       head p = Some start_cell /\ is_walk (open_step maze nR nC) p /\ NoDup p /\
       (forall (i : nat) a, p !! i = Some a ->
          labelled_distance fuel maze nR nC a = Some (d - Z.of_nat i)) /\
       (forall a, in_grid nR nC a -> (bit_set grid a VISITED = true <-> a ∈ p)) /\
       ((res = Solved /\ last p = Some (goal_cell nR nC) /\ length p = S (Z.to_nat d)) \/
        (res = TraceError /\ exists x j, last p = Some x /\
           labelled_distance fuel maze nR nC x = Some j /\ 0 < j /\
           forall b, open_step maze nR nC x b ->
                     labelled_distance fuel maze nR nC b <> Some (j - 1)))).
Proof.
  intros HnR HnC Hwf Hfuel.
  destruct (solve_cases nR nC fuel maze HnR HnC Hwf Hfuel)
    as (maze1 & count & lc & d & v & Hlab & Hwf1 & Hsame & Hflag & Hinv & Hd & Hdr & Hv & Hsolve).
  assert (Hlabel : forall a, labelled_distance fuel maze nR nC a = dist count a).
  { intros a. unfold labelled_distance, label_state. by rewrite Hlab. }
  destruct (solve_keeps fuel maze nR nC HnR HnC Hwf Hfuel) as (grid & res & Hrun & _).
  exists grid, res. split; [done|]. rewrite Hsolve in Hrun.
  destruct (Z.eqb_spec d (-1)) as [->|Hne]; [left; by injection Hrun as _ <-|]. right.
  pose proof (start_in_grid nR nC HnR HnC) as Hstart.
  pose proof (fun a b => open_step_same_walls nR nC HnR HnC maze maze1 a b Hwf Hsame) as Hequiv.
  pose proof (arr_set_is_Some maze1 0 0 (set_bit v VISITED) Hwf1
                (grid_ok nR nC HnR HnC _ Hstart)) as Hset.
  set (mz := <[arr_index 0 0 := set_bit v VISITED]> maze1) in *.
  assert (Hmz : same_walls maze1 mz).
  { eapply same_walls_set; [exact Hv | exact Hset | apply land_mask_set_VISITED]. }
  destruct (trace_loop_walk nR nC HnR HnC maze1 lc count Hwf1 Hinv fuel mz start_cell d
              grid res Hmz Hstart Hd ltac:(lia) Hrun) as (p & Hh & Hw & Hidx & Hmark & Hend).
  exists p, d. split; [by rewrite Hlabel|]. split; [lia|]. split; [done|].
  split; [eapply is_walk_mono; [|exact Hw]; intros x y; apply Hequiv|].
  split.
  { apply NoDup_alt. intros i j a Hi Hj.
    pose proof (Hidx i a Hi). pose proof (Hidx j a Hj).
    assert (d - Z.of_nat i = d - Z.of_nat j) by congruence. lia. }
  split; [intros i a Hi; rewrite Hlabel; by apply Hidx|]. split.
  - intros a Ha. rewrite Hmark.
    rewrite (bit_set_set_VISITED maze1 start_cell v mz a Hv Hset), (Hflag a Ha).
    destruct p as [|s p]; [done|]. injection Hh as ->. cbn [tail].
    rewrite elem_of_cons. split; [intros [[[=]| ->]|?]; auto | intros [->|?]; auto].
  - destruct Hend as [?|(-> & x & j & Hl & Hx & Hj & Hno)]; [by left|]. right.
    split; [done|]. exists x, j. rewrite Hlabel. split; [done|]. split; [done|].
    split; [done|]. intros b Hb. rewrite Hlabel. by apply Hno, Hequiv.
Qed.

Lemma solve_flags_descending_walk_witness :
  exists grid res, solveMazeBFS 3 one_way_grid 1 2 = Some (grid, res) /\
    (res = NoSolution \/
     exists p d, labelled_distance 3 one_way_grid 1 2 start_cell = Some d /\ 0 <= d /\
       head p = Some start_cell /\ is_walk (open_step one_way_grid 1 2) p /\ NoDup p /\
       (forall (i : nat) a, p !! i = Some a ->
          labelled_distance 3 one_way_grid 1 2 a = Some (d - Z.of_nat i)) /\
       (forall a, in_grid 1 2 a -> (bit_set grid a VISITED = true <-> a ∈ p)) /\
       ((res = Solved /\ last p = Some (goal_cell 1 2) /\ length p = S (Z.to_nat d)) \/
        (res = TraceError /\ exists x j, last p = Some x /\
           labelled_distance 3 one_way_grid 1 2 x = Some j /\ 0 < j /\
           forall b, open_step one_way_grid 1 2 x b ->
                     labelled_distance 3 one_way_grid 1 2 b <> Some (j - 1)))).
Proof.
  apply (solve_flags_descending_walk 3 one_way_grid 1 2);
    [unfold MAX_ROWS; lia | unfold MAX_COLS; lia | reflexivity | cbn; lia].
Defined.

(** X17.  What the result says about the grid: the solver reports that
    there is no path exactly when no walk through open walls leads from the
    goal to the start; and on a grid with symmetric walls it never gives up
    the trace, so that it returns normally exactly when start and goal are
    joined. *)
Theorem solve_result_meaning fuel maze nR nC :
  1 <= nR <= MAX_ROWS -> 1 <= nC <= MAX_COLS -> arr_wf maze ->
  (Z.to_nat (nR * nC) + 1 <= fuel)%nat ->
  exists grid res, solveMazeBFS fuel maze nR nC = Some (grid, res) /\
    (res = NoSolution \/ res = Solved \/ res = TraceError) /\
    (res = NoSolution <->
     ~ rtc (open_step maze nR nC) (goal_cell nR nC) start_cell) /\
    (wall_symmetric maze nR nC ->
     res <> TraceError /\
     (res = Solved <-> rtc (open_step maze nR nC) start_cell (goal_cell nR nC))).
Proof.
  intros HnR HnC Hwf Hfuel.
  destruct (solve_cases nR nC fuel maze HnR HnC Hwf Hfuel)
    as (maze1 & count & lc & d & v & Hlab & Hwf1 & Hsame & Hflag & Hinv & Hd & Hdr & Hv & Hsolve).
  destruct (solve_keeps fuel maze nR nC HnR HnC Hwf Hfuel) as (grid & res & Hrun & _).
  pose proof (start_in_grid nR nC HnR HnC) as Hstart.
  destruct (solve_distances nR nC fuel maze HnR HnC Hwf Hfuel) as (st & Hst & _ & _ & Hdist).
  assert (Hlabel : labelled_distance fuel maze nR nC start_cell = Some d).
  { unfold labelled_distance, label_state. by rewrite Hlab. }
  assert (Hreach : (d = -1 /\ ~ rtc (open_step maze nR nC) (goal_cell nR nC) start_cell) \/
                   (d <> -1 /\ rtc (open_step maze nR nC) (goal_cell nR nC) start_cell)).
  { destruct (Hdist _ Hstart) as (x & Hx & Hcase).
    unfold labelled_distance in Hlabel. rewrite Hst in Hlabel.
    change (dist (bfs_count st) start_cell = Some d) in Hlabel.
    assert (x = d) as -> by congruence.
    destruct Hcase as [[-> Hno]|(Hpos & Hk & _)]; [by left|].
    right. split; [lia|]. by eapply rtc_nsteps_2. }
  exists grid, res. split; [done|].
  assert (Hres : (d = -1 /\ res = NoSolution) \/ (d <> -1 /\ (res = Solved \/ res = TraceError))).
  { rewrite Hsolve in Hrun. destruct (Z.eqb_spec d (-1)) as [->|Hne].
    - left. by injection Hrun as _ <-.
    - right. split; [done|]. by apply trace_loop_result in Hrun. }
  split; [destruct Hres as [[_ ->]|[_ [-> | ->]]]; auto|]. split.
  - destruct Hreach as [[Hd1 Hno]|[Hd1 Hyes]], Hres as [[Hd2 ->]|[Hd2 [-> | ->]]];
      try done; split; done.
  - intros Hsym.
    pose proof (open_step_sym nR nC HnR HnC maze Hwf Hsym) as Hosym.
    assert (Hrev : rtc (open_step maze nR nC) start_cell (goal_cell nR nC) <->
                   rtc (open_step maze nR nC) (goal_cell nR nC) start_cell).
    { split; by apply rtc_symmetric. }
    rewrite Hrev. destruct Hres as [[-> ->]|[Hne Hr]].
    + split; [done|]. split; [done|]. intros Hr. by destruct Hreach as [[_ Hno]|[? _]].
    + destruct (solve_path fuel maze nR nC d HnR HnC Hwf Hfuel Hsym Hlabel Hne)
        as (grid' & p & Hrun' & _).
      assert (res = Solved) as -> by congruence. split; [done|]. split; [|done].
      intros _. by destruct Hreach as [[? _]|[_ ?]].
Qed.

Lemma solve_result_meaning_witness :
  exists grid res, solveMazeBFS 10 example_maze 3 3 = Some (grid, res) /\
    (res = NoSolution \/ res = Solved \/ res = TraceError) /\
    (res = NoSolution <->
     ~ rtc (open_step example_maze 3 3) (goal_cell 3 3) start_cell) /\
    (wall_symmetric example_maze 3 3 ->
     res <> TraceError /\
     (res = Solved <-> rtc (open_step example_maze 3 3) start_cell (goal_cell 3 3))).
Proof.
  apply (solve_result_meaning 10 example_maze 3 3);
    [unfold MAX_ROWS; lia | unfold MAX_COLS; lia | reflexivity | cbn; lia].
Defined.

(** ** The drawing *)

(** The macros without wrap-around, for the cells of a supported grid. *)
Lemma computeX_small c : 0 <= c < 100000000 -> computeX c = 60 + 9 * c.
Proof.
  intros Hc. unfold computeX, DRAW_X_LEFT, DRAW_E.
  change (to_u32 (54 + 6)) with 60. change (to_u32 (3 * 6)) with 18.
  rewrite (to_u32_small (18 * c)) by lia. rewrite to_u32_small; lia.
Qed.

Lemma computeY_small r c :
  0 <= r <= 69 -> computeY r c = 703 - 10 * r - 5 * (c mod 2).
Proof.
  intros Hr. unfold computeY, DRAW_Y_TOP, DRAW_V. rewrite land_1_mod.
  change (to_u32 (708 - 5)) with 703. change (to_u32 (2 * 5)) with 10.
  rewrite (to_u32_small (10 * r)) by lia.
  rewrite (to_u32_small (703 - 10 * r)) by lia.
  rewrite (to_u32_small (c mod 2 * 5)) by lia. rewrite to_u32_small; lia.
Qed.

Lemma centre_small a :
  0 <= a.1 <= 69 -> 0 <= a.2 < 100000000 ->
  centre a = (60 + 9 * a.2, 703 - 10 * a.1 - 5 * (a.2 mod 2)).
Proof. intros. unfold centre. by rewrite computeX_small, computeY_small. Qed.

Lemma centre_inj a b :
  0 <= a.1 <= 69 -> 0 <= a.2 < 100000000 -> 0 <= b.1 <= 69 -> 0 <= b.2 < 100000000 ->
  centre a = centre b -> a = b.
Proof.
  intros Ha1 Ha2 Hb1 Hb2. destruct a as [r c], b as [r' c']. cbn [fst snd] in *.
  rewrite !centre_small by (cbn; lia). cbn [fst snd]. intros [= E1 E2].
  assert (c = c') as -> by lia. f_equal. lia.
Qed.

(** Decide the comparisons of two direction constants. *)
Ltac is_dir x :=
  match x with
  | WALL_UP => idtac | WALL_DOWN => idtac | WALL_UP_LEFT => idtac
  | WALL_UP_RIGHT => idtac | WALL_DOWN_LEFT => idtac | WALL_DOWN_RIGHT => idtac
  end.

Ltac eval_eqb :=
  repeat match goal with
  | |- context [?x =? ?y] =>
      is_dir x; is_dir y;
      let b := eval vm_compute in (x =? y) in change (x =? y) with b
  end;
  cbn [orb andb negb].

Ltac eval_eqb_in H :=
  repeat match type of H with
  | context [?x =? ?y] =>
      is_dir x; is_dir y;
      let b := eval vm_compute in (x =? y) in change (x =? y) with b in H
  end.

(** Membership of a constant in a list of constants. *)
Ltac in_list :=
  vm_compute;
  solve [repeat first [apply list_elem_of_here | apply list_elem_of_further]].

(** The six directions are pairwise different. *)
Ltac in_list_nodup :=
  unfold directions; repeat (apply NoDup_cons; split; [vm_compute; by inv 1; repeat
    match goal with H : _ ∈ _ |- _ => inv H end|]); apply NoDup_nil; done.

(** Two segments are equal when their four coordinates are. *)
Ltac seg_eq :=
  cbn [fst snd]; apply (f_equal2 pair); apply (f_equal2 pair); lia.

(** The neighbour on the page. *)
Lemma neighbor_centre nR nC a d b :
  1 <= nR <= MAX_ROWS -> 1 <= nC <= MAX_COLS -> in_grid nR nC a ->
  neighbor nR nC a d = Some b ->
  (centre b).1 - (centre a).1 =
    (if (d =? WALL_UP) || (d =? WALL_DOWN) then 0
     else if (d =? WALL_UP_RIGHT) || (d =? WALL_DOWN_RIGHT) then 9 else -9) /\
  (centre b).2 - (centre a).2 =
    (if d =? WALL_UP then 10 else if d =? WALL_DOWN then -10
     else if (d =? WALL_UP_RIGHT) || (d =? WALL_UP_LEFT) then 5 else -5) /\
  exists s t, wall_side (centre a) d = Some s /\
    wall_side (centre b) (getOppositeWall d) = Some t /\ same_segment s t.
Proof.
  intros HnR HnC Ha Hn. rewrite (nb nR nC HnR HnC) in Hn by done.
  pose proof (hex_neighbor_in_grid _ _ _ _ _ Hn) as Hb.
  pose proof (hex_neighbor_directions _ _ _ _ _ Hn) as Hd.
  apply hex_neighbor_Some in Hn as (dr & dc & Ho & -> & _).
  destruct a as [r c]. destruct Ha as [Hr Hc], Hb as [Hr' Hc'].
  unfold MAX_ROWS, MAX_COLS in *. cbn [fst snd] in *.
  rewrite !centre_small by (cbn [fst snd]; lia). cbn [fst snd].
  dir_cases Hd; cbn in Ho; injection Ho as <- <-;
    unfold wall_side, DRAW_E, DRAW_V; cbn [fst snd]; eval_eqb.
  all: split; [lia|].
  all: split; [lia|].
  all: eexists _, _; (split; [reflexivity|]); (split; [reflexivity|]).
  all: first [left; seg_eq | right; seg_eq].
Qed.

Lemma neighbor_side nR nC a d b :
  1 <= nR <= MAX_ROWS -> 1 <= nC <= MAX_COLS -> in_grid nR nC a ->
  neighbor nR nC a d = Some b ->
  exists s t, wall_side (centre a) d = Some s /\
    wall_side (centre b) (getOppositeWall d) = Some t /\ same_segment s t.
Proof. intros HnR HnC Ha Hn. by destruct (neighbor_centre nR nC a d b HnR HnC Ha Hn) as (_ & _ & ?). Qed.

(** X18.  The picture agrees with the directions.  On the page the
    neighbour of a cell lies where the name of the direction says, whatever
    the parity of the column (10 units up or down, or 9 units sideways and
    5 up or down), and the side that carries the wall towards the neighbour
    is the side that carries the neighbour's opposite wall. *)
Theorem neighbor_on_page nR nC a d b :
  1 <= nR <= MAX_ROWS -> 1 <= nC <= MAX_COLS -> in_grid nR nC a ->
  neighbor nR nC a d = Some b ->
  (centre b).1 - (centre a).1 =
    (if (d =? WALL_UP) || (d =? WALL_DOWN) then 0
     else if (d =? WALL_UP_RIGHT) || (d =? WALL_DOWN_RIGHT) then 9 else -9) /\
  (centre b).2 - (centre a).2 =
    (if d =? WALL_UP then 10 else if d =? WALL_DOWN then -10
     else if (d =? WALL_UP_RIGHT) || (d =? WALL_UP_LEFT) then 5 else -5) /\
  exists s t, wall_side (centre a) d = Some s /\
    wall_side (centre b) (getOppositeWall d) = Some t /\ same_segment s t.
Proof. apply neighbor_centre. Qed.

Lemma neighbor_on_page_witness :
  (centre (0, 1)).1 - (centre (1, 0)).1 =
    (if (WALL_UP_RIGHT =? WALL_UP) || (WALL_UP_RIGHT =? WALL_DOWN) then 0
     else if (WALL_UP_RIGHT =? WALL_UP_RIGHT) || (WALL_UP_RIGHT =? WALL_DOWN_RIGHT)
          then 9 else -9) /\
  (centre (0, 1)).2 - (centre (1, 0)).2 =
    (if WALL_UP_RIGHT =? WALL_UP then 10 else if WALL_UP_RIGHT =? WALL_DOWN then -10
     else if (WALL_UP_RIGHT =? WALL_UP_RIGHT) || (WALL_UP_RIGHT =? WALL_UP_LEFT)
          then 5 else -5) /\
  exists s t, wall_side (centre (1, 0)) WALL_UP_RIGHT = Some s /\
    wall_side (centre (0, 1)) (getOppositeWall WALL_UP_RIGHT) = Some t /\ same_segment s t.
Proof.
  apply (neighbor_on_page 3 3 (1, 0) WALL_UP_RIGHT (0, 1));
    [unfold MAX_ROWS; lia | unfold MAX_COLS; lia | split; cbn; lia | reflexivity].
Defined.

(** *** Reading the output *)

Lemma lines_app out1 out2 : lines (out1 ++ out2) = lines out1 ++ lines out2.
Proof. apply omap_app. Qed.

Lemma lines_text s out : lines (ps_text s :: out) = lines out.
Proof. reflexivity. Qed.

Lemma lines_line x1 y1 x2 y2 out :
  lines (drawLine x1 y1 x2 y2 :: out) = ((x1, y1), (x2, y2)) :: lines out.
Proof. reflexivity. Qed.

Lemma elem_of_lines_bind {A} (g : A -> list ps_item) (l : list A) s :
  s ∈ lines (l ≫= g) <-> exists x, x ∈ l /\ s ∈ lines (g x).
Proof.
  induction l as [|x l IH].
  - change ([] ≫= g) with (@nil ps_item). cbn. rewrite elem_of_nil.
    split; [done|]. intros (x & Hx & _). by apply elem_of_nil in Hx.
  - rewrite bind_cons, lines_app, elem_of_app, IH. split.
    + intros [H|(y & Hy & H)]; [exists x; split; [left|done] | exists y; split; [by right|done]].
    + intros (y & [->|Hy]%elem_of_cons & H); [by left | right; eauto].
Qed.

Lemma collect_lines {A} (f : A -> option (list ps_item)) (l : list A)
    (P : A -> segment -> Prop) :
  (forall x, x ∈ l -> exists out, f x = Some out /\ forall s, s ∈ lines out <-> P x s) ->
  exists out, collect f l = Some out /\
    forall s, s ∈ lines out <-> exists x, x ∈ l /\ P x s.
Proof.
  induction l as [|x l IH]; intros Hf.
  - exists []. split; [done|]. intros s. cbn. rewrite elem_of_nil.
    split; [done|]. intros (x & Hx & _). by apply elem_of_nil in Hx.
  - destruct (Hf x ltac:(left)) as (o1 & Ho1 & H1).
    destruct IH as (o2 & Ho2 & H2); [intros; apply Hf; by right|].
    exists (o1 ++ o2). cbn [collect]. rewrite Ho1, Ho2. split; [done|].
    intros s. rewrite lines_app, elem_of_app, H1, H2. split.
    + intros [H|(y & Hy & H)]; [exists x; split; [left|done] | exists y; split; [by right|done]].
    + intros (y & [->|Hy]%elem_of_cons & H); [by left | right; eauto].
Qed.

(** The stepping loops stop, and run for every other column. *)
Lemma every_other_elem fuel c0 nC :
  0 <= c0 -> nC <= 4294967294 -> (Z.to_nat (nC - c0) + 1 <= fuel)%nat ->
  exists cs, every_other fuel c0 nC = Some cs /\
    forall c, c ∈ cs <-> c0 <= c < nC /\ (c - c0) mod 2 = 0.
Proof.
  revert c0. induction fuel as [|fuel IH]; intros c0 Hc0 HnC Hfuel; [lia|].
  cbn [every_other]. destruct (Z.ltb_spec c0 nC) as [Hlt|Hge].
  - rewrite to_u32_small by lia.
    destruct (IH (c0 + 2)) as (cs & -> & Hcs); [lia..|].
    exists (c0 :: cs). split; [done|]. intros c. rewrite elem_of_cons, Hcs.
    split; [intros [->|[? ?]]; split; lia | intros [? ?]].
    destruct (decide (c = c0)); [by left | right; split; lia].
  - exists []. split; [done|]. intros c. rewrite elem_of_nil. lia.
Qed.

(** No segment twice, when the runs of the body draw different segments. *)
Lemma collect_NoDup {A} (f : A -> option (list ps_item)) (l : list A)
    (P : A -> segment -> Prop) out :
  NoDup l -> collect f l = Some out ->
  (forall x o, x ∈ l -> f x = Some o ->
     NoDup (lines o) /\ forall s, s ∈ lines o -> P x s) ->
  (forall x y s, x ∈ l -> y ∈ l -> P x s -> P y s -> x = y) ->
  NoDup (lines out) /\ forall s, s ∈ lines out -> exists x, x ∈ l /\ P x s.
Proof.
  intros Hnd. revert out. induction Hnd as [|x l Hx Hnd IH]; intros out; cbn [collect].
  - intros [= <-] _ _. split; [constructor|]. intros s Hs. by apply elem_of_nil in Hs.
  - destruct (f x) as [o1|] eqn:Ho1; [|done]. cbn [mbind option_bind].
    destruct (collect f l) as [o2|] eqn:Ho2; [|done]. cbn [mbind option_bind].
    intros [= <-] Hf Hinj.
    destruct (Hf x o1 ltac:(left) Ho1) as [Hnd1 HP1].
    destruct (IH o2 eq_refl) as [Hnd2 HP2].
    { intros y o Hy. apply Hf. by right. }
    { intros y z s Hy Hz. apply Hinj; by right. }
    rewrite lines_app. split.
    + apply NoDup_app. split; [done|]. split; [|done].
      intros s Hs1 Hs2. apply HP2 in Hs2 as (y & Hy & HPy).
      assert (x = y) as -> by (apply (Hinj x y s); [left|by right|by apply HP1|done]).
      done.
    + intros s [Hs|Hs]%elem_of_app.
      * exists x. split; [left | by apply HP1].
      * apply HP2 in Hs as (y & Hy & HPy). exists y. split; [by right|done].
Qed.

Lemma forward_cases (P : Z -> Prop) :
  (exists d, d ∈ forward_directions /\ P d) <->
  P WALL_DOWN \/ P WALL_UP_RIGHT \/ P WALL_DOWN_RIGHT.
Proof.
  unfold forward_directions. split.
  - intros (d & Hd & H). repeat (apply elem_of_cons in Hd as [->|Hd]); auto.
    by apply elem_of_nil in Hd.
  - intros [H|[H|H]]; eexists; (split; [|exact H]); in_list.
Qed.

Section drawing.
Context (nR nC : Z) (maze : list Z).
Hypothesis HnR : 1 <= nR <= MAX_ROWS.
Hypothesis HnC : 1 <= nC <= MAX_COLS.
Hypothesis Hwf : arr_wf maze.

Lemma in_grid_small a : in_grid nR nC a -> 0 <= a.1 <= 49 /\ 0 <= a.2 <= 49.
Proof. intros [? ?]. unfold MAX_ROWS, MAX_COLS in *. lia. Qed.

Lemma bit_set_land a v d :
  arr_get maze a.1 a.2 = Some v -> bit_set maze a d = negb (Z.land v d =? 0).
Proof. intros Hv. unfold bit_set. by rewrite Hv. Qed.

(** The first loop at one cell. *)
Lemma draw_cell_walls_lines a :
  in_grid nR nC a ->
  exists out, draw_cell_walls maze a.1 a.2 = Some out /\
    forall s, s ∈ lines out <->
      exists d, d ∈ forward_directions /\ bit_set maze a d = true /\
                wall_side (centre a) d = Some s.
Proof.
  intros Ha. destruct (grid_get nR nC HnR HnC maze a Hwf Ha) as [v Hv].
  pose proof (in_grid_small a Ha) as [Hr Hc].
  unfold draw_cell_walls. rewrite Hv. cbn [mbind option_bind].
  eexists. split; [reflexivity|]. intros s.
  rewrite (forward_cases (fun d => bit_set maze a d = true /\ wall_side (centre a) d = Some s)).
  rewrite !(bit_set_land a v) by done.
  rewrite (computeX_small a.2), (computeY_small a.1 a.2) by lia.
  unfold wall_side. rewrite centre_small by lia. cbn [fst snd]. eval_eqb.
  unfold DRAW_E, DRAW_V. change (6 / 2) with 3.
  rewrite !to_u32_small by lia.
  destruct (Z.land v WALL_UP_RIGHT =? 0), (Z.land v WALL_DOWN_RIGHT =? 0),
    (Z.land v WALL_DOWN =? 0); cbn [app negb]; rewrite ?lines_line;
    change (lines []) with (@nil segment).
  all: rewrite ?elem_of_cons, elem_of_nil.
  all: split;
    [intros H; repeat destruct H as [H|H]; try done; subst s; auto 6
    |intros H; repeat destruct H as [H|H]; destruct H as [Hb Hs]; try discriminate Hb;
     injection Hs as <-; auto 6].
Qed.

Lemma same_segment_refl s : same_segment s s.
Proof. by left. Qed.

Lemma same_segment_flip (p q : Z * Z) : same_segment (p, q) (q, p).
Proof. by right. Qed.

(** The four loops of the exterior walls draw sides without a neighbour
    behind them, in the directions that the first loop leaves out. *)
Lemma draw_exterior_sound fuel evens odds s :
  every_other fuel 2 nC = Some evens -> every_other fuel 1 nC = Some odds ->
  (Z.to_nat nC + 1 <= fuel)%nat ->
  s ∈ lines (draw_left nR ++ draw_top nC ++ draw_top_left evens ++
             draw_bottom_left nR odds) ->
  exists a d t, in_grid nR nC a /\
    (d = WALL_UP \/ d = WALL_UP_LEFT \/ d = WALL_DOWN_LEFT) /\
    hex_neighbor nR nC a d = None /\
    wall_side (centre a) d = Some t /\ same_segment s t.
Proof.
  intros He Ho Hfuel. unfold MAX_ROWS, MAX_COLS in *.
  destruct (every_other_elem fuel 2 nC) as (cs & Hcs & Hev); [lia..|].
  destruct (every_other_elem fuel 1 nC) as (cs' & Hcs' & Hod); [lia..|].
  rewrite He in Hcs. injection Hcs as <-. rewrite Ho in Hcs'. injection Hcs' as <-.
  rewrite !lines_app, !elem_of_app.
  unfold draw_left, draw_top, draw_top_left, draw_bottom_left.
  rewrite !elem_of_lines_bind.
  intros [(r & Hr%elem_of_seqZ & Hs)|[(c & Hc%elem_of_seqZ & Hs)|
          [(c & [Hc Hpar]%Hev & Hs)|(c & [Hc Hpar]%Hod & Hs)]]];
    revert Hs; rewrite ?(to_u32_small (nR - 1)) by lia;
    rewrite !computeX_small, !computeY_small by lia;
    unfold DRAW_E, DRAW_V; change (6 / 2) with 3; rewrite !to_u32_small by lia;
    rewrite !lines_line; change (lines []) with (@nil segment);
    rewrite ?elem_of_cons, elem_of_nil.
  - intros [->|[->|[]]].
    + exists (r, 0), WALL_UP_LEFT. eexists. split; [split; cbn; lia|]. split; [auto|].
      split; [unfold hex_neighbor, hex_offset; cbn [fst snd]; eval_eqb;
              change (0 + -1) with (-1); by rewrite andb_false_r|].
      unfold wall_side. rewrite centre_small by (cbn; lia). cbn [fst snd]. eval_eqb.
      split; [reflexivity|]. left. unfold DRAW_E, DRAW_V. seg_eq.
    + exists (r, 0), WALL_DOWN_LEFT. eexists. split; [split; cbn; lia|]. split; [auto|].
      split; [unfold hex_neighbor, hex_offset; cbn [fst snd]; eval_eqb;
              change (0 + -1) with (-1); by rewrite andb_false_r|].
      unfold wall_side. rewrite centre_small by (cbn; lia). cbn [fst snd]. eval_eqb.
      split; [reflexivity|]. left. unfold DRAW_E, DRAW_V. seg_eq.
  - intros [->|[]].
    exists (0, c), WALL_UP. eexists. split; [split; cbn; lia|]. split; [auto|].
    split; [unfold hex_neighbor, hex_offset; cbn [fst snd]; eval_eqb; done|].
    unfold wall_side. rewrite centre_small by (cbn; lia). cbn [fst snd]. eval_eqb.
    split; [reflexivity|]. left. unfold DRAW_E, DRAW_V. seg_eq.
  - intros [->|[]].
    exists (0, c), WALL_UP_LEFT. eexists. split; [split; cbn; lia|]. split; [auto|].
    split.
    { unfold hex_neighbor, hex_offset; cbn [fst snd]; eval_eqb.
      destruct (Z.leb_spec 0 (0 + (c mod 2 - 1))); [lia|done]. }
    unfold wall_side. rewrite centre_small by (cbn; lia). cbn [fst snd]. eval_eqb.
    split; [reflexivity|]. left. unfold DRAW_E, DRAW_V. seg_eq.
  - intros [->|[]].
    exists (nR - 1, c), WALL_DOWN_LEFT. eexists. split; [split; cbn; lia|]. split; [auto|].
    split.
    { unfold hex_neighbor, hex_offset; cbn [fst snd]; eval_eqb.
      destruct (Z.leb_spec 0 (nR - 1 + c mod 2)); [|lia].
      destruct (Z.ltb_spec (nR - 1 + c mod 2) nR); [lia|done]. }
    unfold wall_side. rewrite centre_small by (cbn; lia). cbn [fst snd]. eval_eqb.
    split; [reflexivity|]. right. unfold DRAW_E, DRAW_V. seg_eq.
Qed.

(** Every such side is drawn by one of them. *)
Lemma draw_exterior_complete fuel evens odds a d :
  every_other fuel 2 nC = Some evens -> every_other fuel 1 nC = Some odds ->
  (Z.to_nat nC + 1 <= fuel)%nat ->
  in_grid nR nC a -> d = WALL_UP \/ d = WALL_UP_LEFT \/ d = WALL_DOWN_LEFT ->
  hex_neighbor nR nC a d = None ->
  exists s t, wall_side (centre a) d = Some t /\ same_segment s t /\
    s ∈ lines (draw_left nR ++ draw_top nC ++ draw_top_left evens ++
               draw_bottom_left nR odds).
Proof.
  intros He Ho Hfuel Ha Hd Hn. unfold MAX_ROWS, MAX_COLS in *.
  destruct (every_other_elem fuel 2 nC) as (cs & Hcs & Hev); [lia..|].
  destruct (every_other_elem fuel 1 nC) as (cs' & Hcs' & Hod); [lia..|].
  rewrite He in Hcs. injection Hcs as <-. rewrite Ho in Hcs'. injection Hcs' as <-.
  destruct a as [r c]. destruct Ha as [Hr Hc]. cbn [fst snd] in Hr, Hc.
  assert (Hpos : (d = WALL_UP /\ r = 0) \/
                 (d = WALL_UP_LEFT /\ c = 0) \/
                 (d = WALL_UP_LEFT /\ r = 0 /\ 2 <= c /\ c mod 2 = 0) \/
                 (d = WALL_DOWN_LEFT /\ c = 0) \/
                 (d = WALL_DOWN_LEFT /\ r = nR - 1 /\ c mod 2 = 1)).
  { revert Hn. unfold hex_neighbor, hex_offset. cbn [fst snd].
    destruct Hd as [->|[->| ->]]; eval_eqb;
      repeat match goal with
      | |- context [?x <=? ?y] => destruct (Z.leb_spec x y)
      | |- context [?x <? ?y] => destruct (Z.ltb_spec x y)
      end; cbn [andb]; intros; try discriminate; lia. }
  rewrite !lines_app. setoid_rewrite elem_of_app. setoid_rewrite elem_of_app.
  setoid_rewrite elem_of_app.
  unfold draw_left, draw_top, draw_top_left, draw_bottom_left.
  setoid_rewrite elem_of_lines_bind.
  unfold wall_side. rewrite centre_small by (cbn; lia). cbn [fst snd].
  destruct Hpos as [[-> ->]|[[-> ->]|[(-> & -> & Hc2 & Hpar)|[[-> ->]|(-> & -> & Hpar)]]]];
    eval_eqb; eexists _, _; (split; [reflexivity|]).
  - split; [apply same_segment_refl|]. right. left. exists c.
    split; [apply elem_of_seqZ; lia|].
    rewrite computeX_small, computeY_small by lia.
    unfold DRAW_E, DRAW_V. change (6 / 2) with 3. rewrite !to_u32_small by lia.
    rewrite lines_line. left.
  - split; [apply same_segment_refl|]. left. exists r.
    split; [apply elem_of_seqZ; lia|].
    rewrite computeX_small, computeY_small by lia.
    unfold DRAW_E, DRAW_V. change (6 / 2) with 3. rewrite !to_u32_small by lia.
    rewrite lines_line. left.
  - split; [apply same_segment_refl|]. right. right. left. exists c.
    split; [apply Hev; lia|].
    rewrite computeX_small, computeY_small by lia.
    unfold DRAW_E, DRAW_V. change (6 / 2) with 3. rewrite !to_u32_small by lia.
    rewrite lines_line. left.
  - split; [apply same_segment_refl|]. left. exists r.
    split; [apply elem_of_seqZ; lia|].
    rewrite computeX_small, computeY_small by lia.
    unfold DRAW_E, DRAW_V. change (6 / 2) with 3. rewrite !to_u32_small by lia.
    rewrite !lines_line. right. left.
  - split; [apply same_segment_flip|]. right. right. right. exists c.
    split; [apply Hod; lia|].
    rewrite (to_u32_small (nR - 1)) by lia.
    rewrite computeX_small, computeY_small by lia.
    unfold DRAW_E, DRAW_V. change (6 / 2) with 3. rewrite !to_u32_small by lia.
    rewrite lines_line. left.
Qed.

(** Two sides that coincide on the page belong to the same cell and
    direction, or to two neighbours across their common wall. *)
Lemma wall_side_inj a d s a' d' s' :
  in_grid nR nC a -> in_grid nR nC a' -> d ∈ directions -> d' ∈ directions ->
  wall_side (centre a) d = Some s -> wall_side (centre a') d' = Some s' ->
  same_segment s s' ->
  (a = a' /\ d = d') \/
  (hex_neighbor nR nC a d = Some a' /\ d' = getOppositeWall d).
Proof.
  intros Ha Ha' Hd Hd'. pose proof Ha as [Hr Hc]. pose proof Ha' as [Hr' Hc'].
  unfold MAX_ROWS, MAX_COLS in *.
  destruct a as [r c], a' as [r' c']. cbn [fst snd] in Hr, Hc, Hr', Hc'.
  unfold wall_side. rewrite !centre_small by (cbn; lia). cbn [fst snd].
  unfold DRAW_E, DRAW_V. change (6 / 2) with 3.
  dir_cases Hd; dir_cases Hd'; eval_eqb; intros [= <-] [= <-] [E|E];
    cbn [fst snd] in E; injection E as E1 E2 E3 E4;
    first
      [ exfalso; lia
      | left; split; [f_equal; lia | reflexivity]
      | right; split; [|reflexivity]; apply hex_neighbor_Some;
        eexists _, _; split; [reflexivity|]; split; [cbn [fst snd]; f_equal; lia|done] ].
Qed.
(** The page without the solution: what it draws. *)
Lemma drawMaze_walls fuel b :
  (Z.to_nat nC + 1 <= fuel)%nat ->
  exists walls evens odds,
    every_other fuel 2 nC = Some evens /\ every_other fuel 1 nC = Some odds /\
    drawMaze fuel maze nR nC false b =
      Some ([ps_text ("0.25 setlinewidth" +:+ nl)] ++ walls ++
            draw_left nR ++ draw_top nC ++ draw_top_left evens ++
            draw_bottom_left nR odds ++ []) /\
    forall s, s ∈ lines walls <->
      exists a, in_grid nR nC a /\
        exists d, d ∈ forward_directions /\ bit_set maze a d = true /\
                  wall_side (centre a) d = Some s.
Proof.
  intros Hfuel. unfold MAX_ROWS, MAX_COLS in *.
  destruct (collect_lines (fun a => draw_cell_walls maze a.1 a.2) (cells nR nC)
              (fun a s => exists d, d ∈ forward_directions /\ bit_set maze a d = true /\
                                    wall_side (centre a) d = Some s))
    as (walls & Hwalls & Hlines).
  { intros a Ha%elem_of_cells. by apply draw_cell_walls_lines. }
  destruct (every_other_elem fuel 2 nC) as (evens & He & _); [lia..|].
  destruct (every_other_elem fuel 1 nC) as (odds & Ho & _); [lia..|].
  exists walls, evens, odds. split; [done|]. split; [done|]. split.
  - unfold drawMaze. rewrite Hwalls, He, Ho. reflexivity.
  - intros s. rewrite Hlines. by setoid_rewrite elem_of_cells.
Qed.
(** The solution layer, direction by direction and cell by cell. *)
Lemma draw_solution_dir_lines a d :
  in_grid nR nC a -> d ∈ directions ->
  exists out, draw_solution_dir maze nR nC a.1 a.2 d = Some out /\
    forall s, s ∈ lines out <->
      exists b, hex_neighbor nR nC a d = Some b /\ bit_clear maze a d = true /\
        bit_set maze b VISITED = true /\ cell_idx nC a < cell_idx nC b /\
        s = (centre a, centre b).
Proof.
  intros Ha Hd. destruct (grid_get nR nC HnR HnC maze a Hwf Ha) as [v Hv].
  unfold draw_solution_dir, bit_clear. rewrite Hv. cbn [mbind option_bind].
  change (getNeighbor a.1 a.2 d nR nC) with (neighbor nR nC a d).
  rewrite (nb nR nC HnR HnC) by done.
  destruct (Z.land v d =? 0).
  2:{ exists []. split; [done|]. intros s. change (lines []) with (@nil segment).
      rewrite elem_of_nil. split; [done|]. by intros (b & _ & ? & _). }
  destruct (hex_neighbor nR nC a d) as [[r2 c2]|] eqn:Hn.
  2:{ exists []. split; [done|]. intros s. change (lines []) with (@nil segment).
      rewrite elem_of_nil. split; [done|]. by intros (b & ? & _). }
  pose proof (hex_neighbor_in_grid _ _ _ _ _ Hn) as Hb.
  destruct (grid_get nR nC HnR HnC maze _ Hwf Hb) as [vn Hvn]. cbn [fst snd] in Hvn.
  rewrite Hvn. cbn [mbind option_bind].
  pose proof (cell_idx_range nR nC HnR HnC a Ha) as Hia.
  pose proof (cell_idx_range nR nC HnR HnC _ Hb) as Hib.
  pose proof (grid_size nR nC HnR HnC) as Hsz.
  unfold cell_idx in Hia, Hib. cbn [fst snd] in Hib.
  rewrite !to_u32_small by lia. rewrite Z.gtb_ltb.
  assert (Hflag : bit_set maze (r2, c2) VISITED = negb (Z.land vn VISITED =? 0)).
  { unfold bit_set. cbn [fst snd]. by rewrite Hvn. }
  destruct (negb (Z.land vn VISITED =? 0)).
  2:{ exists []. split; [done|]. intros s. change (lines []) with (@nil segment).
      rewrite elem_of_nil. split; [done|]. intros (b & [= <-] & _ & Hf & _). congruence. }
  destruct (Z.ltb_spec (a.1 * nC + a.2) (r2 * nC + c2)) as [Hlt|Hge].
  - eexists. split; [reflexivity|]. intros s. rewrite lines_line.
    change (lines []) with (@nil segment). rewrite elem_of_cons, elem_of_nil. split.
    + intros [->|[]]. exists (r2, c2). by destruct a.
    + intros (b & [= <-] & _ & _ & _ & ->). left. by destruct a.
  - exists []. split; [done|]. intros s. change (lines []) with (@nil segment).
    rewrite elem_of_nil. split; [done|].
    intros (b & [= <-] & _ & _ & Hlt & _). unfold cell_idx in Hlt. cbn [fst snd] in Hlt. lia.
Qed.

Lemma draw_solution_cell_lines a :
  in_grid nR nC a ->
  exists out, draw_solution_cell maze nR nC a.1 a.2 = Some out /\
    forall s, s ∈ lines out <->
      bit_set maze a VISITED = true /\
      exists b, open_step maze nR nC a b /\ bit_set maze b VISITED = true /\
        cell_idx nC a < cell_idx nC b /\ s = (centre a, centre b).
Proof.
  intros Ha. destruct (grid_get nR nC HnR HnC maze a Hwf Ha) as [v Hv].
  unfold draw_solution_cell. rewrite Hv. cbn [mbind option_bind].
  assert (Hflag : bit_set maze a VISITED = negb (Z.land v VISITED =? 0)).
  { unfold bit_set. by rewrite Hv. }
  destruct (negb (Z.land v VISITED =? 0)).
  2:{ exists []. split; [done|]. intros s. change (lines []) with (@nil segment).
      rewrite elem_of_nil. split; [done|]. intros [? _]. congruence. }
  destruct (collect_lines (draw_solution_dir maze nR nC a.1 a.2) directions
              (fun d s => exists b, hex_neighbor nR nC a d = Some b /\
                 bit_clear maze a d = true /\ bit_set maze b VISITED = true /\
                 cell_idx nC a < cell_idx nC b /\ s = (centre a, centre b)))
    as (out & Hout & Hlines).
  { intros d Hd. by apply draw_solution_dir_lines. }
  exists out. split; [done|]. intros s. rewrite Hlines. split.
  - intros (d & Hd & b & Hn & Hc & Hf & Hlt & ->). split; [done|]. exists b.
    split; [|done]. apply (open_step_hex nR nC HnR HnC). split; [done|]. by exists d.
  - intros (_ & b & (_ & d & Hn & Hc)%(open_step_hex nR nC HnR HnC) & Hf & Hlt & ->).
    exists d. split; [by eapply hex_neighbor_directions|]. by exists b.
Qed.

Lemma draw_solution_dir_short a d o :
  in_grid nR nC a ->
  draw_solution_dir maze nR nC a.1 a.2 d = Some o ->
  NoDup (lines o) /\
  forall s, s ∈ lines o ->
    exists b, hex_neighbor nR nC a d = Some b /\ s = (centre a, centre b).
Proof.
  intros Ha Ho'. destruct (decide (d ∈ directions)) as [Hd|Hd].
  - destruct (draw_solution_dir_lines a d Ha Hd) as (o' & Ho'' & Hlines).
    assert (o' = o) as -> by congruence. split.
    + revert Ho'. clear. unfold draw_solution_dir.
      destruct (arr_get maze a.1 a.2) as [v|]; [|done]. cbn [mbind option_bind].
      destruct (_ =? _); [|intros [= <-]; constructor].
      destruct (getNeighbor _ _ _ _ _) as [[r2 c2]|]; [|intros [= <-]; constructor].
      destruct (arr_get maze r2 c2) as [vn|]; [|done]. cbn [mbind option_bind].
      destruct (negb _); [|intros [= <-]; constructor].
      destruct (_ >? _); intros [= <-]; [|constructor].
      rewrite lines_line. apply NoDup_singleton.
    + intros s (b' & Hn & _ & _ & _ & ->)%Hlines. by exists b'.
  - revert Ho'. unfold draw_solution_dir.
    destruct (arr_get maze a.1 a.2) as [v|]; [|done]. cbn [mbind option_bind].
    change (getNeighbor a.1 a.2 d nR nC) with (neighbor nR nC a d).
    rewrite (nb nR nC HnR HnC) by done.
    destruct (hex_neighbor nR nC a d) as [b'|] eqn:Hn.
    { by apply hex_neighbor_directions in Hn. }
    destruct (_ =? _); intros [= <-]; (split; [constructor|]);
      intros s Hs; by apply elem_of_nil in Hs.
Qed.

Lemma draw_solution_cell_NoDup a o :
  in_grid nR nC a ->
  draw_solution_cell maze nR nC a.1 a.2 = Some o ->
  NoDup (lines o) /\ forall s, s ∈ lines o -> in_grid nR nC a /\ s.1 = centre a.
Proof.
  intros Ha. unfold draw_solution_cell.
  destruct (arr_get maze a.1 a.2) as [v|]; [|done]. cbn [mbind option_bind].
  destruct (negb _).
  2:{ intros [= <-]. split; [constructor|]. intros s Hs. by apply elem_of_nil in Hs. }
  intros Hc.
  destruct (collect_NoDup (draw_solution_dir maze nR nC a.1 a.2) directions
              (fun d s => exists b', hex_neighbor nR nC a d = Some b' /\
              s = (centre a, centre b')) _ ltac:(in_list_nodup) Hc) as [Hnd Hs].
  - intros d o' _ Ho'. by apply draw_solution_dir_short.
  - intros d d' s _ _ (b1 & Hn1 & ->) (b2 & Hn2 & E).
    pose proof (in_grid_small _ (hex_neighbor_in_grid _ _ _ _ _ Hn1)).
    pose proof (in_grid_small _ (hex_neighbor_in_grid _ _ _ _ _ Hn2)).
    assert (E' : centre b1 = centre b2) by congruence.
    apply centre_inj in E'; [|lia..]. subst b2.
    by apply (hex_neighbor_inj nR nC a d d' b1).
  - split; [done|]. intros s (d & _ & b' & _ & ->)%Hs. done.
Qed.

(** The two pages: the second is the first followed by the solution
    layer. *)
Lemma drawMaze_pages fuel b :
  (Z.to_nat nC + 1 <= fuel)%nat ->
  exists page1 sol,
    drawMaze fuel maze nR nC false b = Some page1 /\
    drawMaze fuel maze nR nC true b =
      Some (page1 ++
            [ps_text ("0 0 1 setrgbcolor gsave currentlinewidth 5 mul setlinewidth "
                      +:+ " 1 setlinecap" +:+ nl)] ++ sol ++
            [ps_text ("grestore" +:+ nl)]) /\
    (forall s, s ∈ lines sol <->
       exists a b, in_grid nR nC a /\ bit_set maze a VISITED = true /\
         open_step maze nR nC a b /\ bit_set maze b VISITED = true /\
         cell_idx nC a < cell_idx nC b /\ s = (centre a, centre b)) /\
    (forall s, s ∈ lines page1 ->
       exists a d t, in_grid nR nC a /\ d ∈ directions /\
         wall_side (centre a) d = Some t /\ same_segment s t) /\
    NoDup (lines sol).
Proof.
  intros Hfuel.
  destruct (drawMaze_walls fuel b Hfuel) as (walls & evens & odds & He & Ho & Hrun & Hwalls).
  destruct (collect_lines (fun a => draw_solution_cell maze nR nC a.1 a.2) (cells nR nC)
              (fun a s => bit_set maze a VISITED = true /\
                 exists b, open_step maze nR nC a b /\ bit_set maze b VISITED = true /\
                   cell_idx nC a < cell_idx nC b /\ s = (centre a, centre b)))
    as (sol & Hsol & Hlines).
  { intros a Ha%elem_of_cells. by apply draw_solution_cell_lines. }
  eexists _, sol. split; [exact Hrun|]. split; [|split; [|split]].
  - revert Hrun. unfold drawMaze.
    destruct (collect (fun a => draw_cell_walls maze a.1 a.2) (cells nR nC)) as [w|];
      [|done].
    cbn [mbind option_bind]. rewrite He, Ho, Hsol. cbn [mbind option_bind].
    intros [= <-]. rewrite !app_nil_r. f_equal. cbn [app]. f_equal.
    by rewrite <- !app_assoc.
  - intros s. rewrite Hlines. split.
    + intros (a & Ha%elem_of_cells & Hf & b' & Hstep & Hf' & Hlt & ->).
      by exists a, b'.
    + intros (a & b' & Ha & Hf & Hstep & Hf' & Hlt & ->).
      exists a. split; [by apply elem_of_cells|]. split; [done|]. by exists b'.
  - intros s. rewrite !app_nil_r. cbn [app]. rewrite lines_text, lines_app, elem_of_app.
    intros [Hin|Hin].
    + apply Hwalls in Hin as (a & Ha & d & Hd & _ & Hs).
      exists a, d, s. split; [done|]. split; [by apply forward_directions_sub|].
      split; [done | apply same_segment_refl].
    + destruct (draw_exterior_sound fuel evens odds s He Ho Hfuel Hin)
        as (a & d & t & Ha & Hd & _ & Ht & Hst).
      exists a, d, t. split; [done|]. split; [destruct Hd as [->|[->| ->]]; dir_in|done].
  - apply (collect_NoDup _ _ (fun a s => in_grid nR nC a /\ s.1 = centre a) _
             (NoDup_cells nR nC) Hsol).
    + intros a o Ha%elem_of_cells Ho'. by apply draw_solution_cell_NoDup.
    + intros a a' s _ _ [Ha E] [Ha' E']. pose proof (in_grid_small a Ha).
      pose proof (in_grid_small a' Ha'). apply centre_inj; [lia..|congruence].
Qed.
End drawing.

Lemma same_segment_sym s t : same_segment s t -> same_segment t s.
Proof.
  destruct s as [p q], t as [p' q']. intros [E|E]; cbn in E; injection E as -> ->;
    [by left | by right].
Qed.

Lemma same_segment_trans s t u : same_segment s t -> same_segment t u -> same_segment s u.
Proof.
  destruct s as [p q], t as [p' q'], u as [p'' q''].
  intros [E|E] [E'|E']; cbn in E, E'; injection E as -> ->; injection E' as -> ->;
    first [by left | by right].
Qed.

Lemma forward_directions_backward d :
  d ∈ directions ->
  d ∈ forward_directions \/ (d = WALL_UP \/ d = WALL_UP_LEFT \/ d = WALL_DOWN_LEFT).
Proof.
  intros Hd. dir_cases Hd; first [left; in_list | right; auto].
Qed.

(** X19.  The first page shows the walls of the grid.  For a grid with
    symmetric walls and a closed rim, as generation leaves it, the side of a
    cell's hexagon in a direction is among the segments drawn, in one sense
    or the other, exactly when the cell has the wall bit of that direction
    set: no wall is left out and no open passage is drawn shut. *)
Theorem drawMaze_shows_walls fuel maze nR nC b :
  1 <= nR <= MAX_ROWS -> 1 <= nC <= MAX_COLS -> arr_wf maze ->
  wall_symmetric maze nR nC -> boundary_closed maze nR nC ->
  (Z.to_nat nC + 1 <= fuel)%nat ->
  exists out, drawMaze fuel maze nR nC false b = Some out /\
    forall a d t, in_grid nR nC a -> d ∈ directions ->
      wall_side (centre a) d = Some t ->
      (bit_set maze a d = true <-> exists s, s ∈ lines out /\ same_segment s t).
Proof.
  intros HnR HnC Hwf Hsym Hrim Hfuel.
  destruct (drawMaze_walls nR nC maze HnR HnC Hwf fuel b Hfuel)
    as (walls & evens & odds & He & Ho & Hrun & Hwalls).
  eexists. split; [exact Hrun|]. intros a d t Ha Hd Ht.
  rewrite !app_nil_r. cbn [app]. rewrite lines_text, lines_app.
  setoid_rewrite elem_of_app. split.
  - intros Hbit. destruct (forward_directions_backward d Hd) as [Hf|Hb].
    + exists t. split; [|apply same_segment_refl]. left. apply Hwalls.
      exists a. split; [done|]. by exists d.
    + destruct (hex_neighbor nR nC a d) as [a'|] eqn:Hn.
      * pose proof (hex_neighbor_in_grid _ _ _ _ _ Hn) as Ha'.
        assert (Hn' : neighbor nR nC a d = Some a') by (by rewrite (nb nR nC HnR HnC)).
        destruct (neighbor_side nR nC a d a' HnR HnC Ha Hn') as (s & t' & Hs & Ht' & Hst).
        assert (s = t) as -> by congruence.
        exists t'. split.
        -- left. apply Hwalls. exists a'. split; [done|]. exists (getOppositeWall d).
           split; [|split; [by apply (Hsym a d a')|done]].
           destruct Hb as [->|[->| ->]]; in_list.
        -- destruct Hst as [->| ->]; [apply same_segment_refl|].
           destruct t' as [p q]. apply same_segment_flip.
      * destruct (draw_exterior_complete nR nC HnR HnC fuel evens odds a d He Ho Hfuel Ha Hb Hn)
          as (s & t' & Ht' & Hst & Hin).
        assert (t' = t) as -> by congruence. exists s. split; [by right|done].
  - intros (s & [Hin|Hin] & Hst).
    + apply Hwalls in Hin as (a' & Ha' & d' & Hd' & Hbit & Hs).
      destruct (wall_side_inj nR nC HnR HnC a' d' s a d t Ha' Ha
                  (forward_directions_sub _ Hd') Hd Hs Ht Hst) as [[<- <-]|[Hn ->]]; [done|].
      apply (Hsym a' d' a); [done|by apply forward_directions_sub|
                             by rewrite (nb nR nC HnR HnC)|done].
    + destruct (draw_exterior_sound nR nC HnR HnC fuel evens odds s He Ho Hfuel Hin)
        as (a' & d' & t' & Ha' & Hd' & Hn & Ht' & Hst').
      assert (Hdir : d' ∈ directions) by (destruct Hd' as [->|[->| ->]]; dir_in).
      assert (Hsame : same_segment t' t).
      { apply (same_segment_trans _ s); [by apply same_segment_sym | done]. }
      destruct (wall_side_inj nR nC HnR HnC a' d' t' a d t Ha' Ha Hdir Hd Ht' Ht Hsame)
        as [[<- <-]|[Hn' _]]; [|congruence].
      apply Hrim; [done..|]. by rewrite (nb nR nC HnR HnC).
Qed.

Lemma wall_side_on_page nR nC a d t :
  1 <= nR <= MAX_ROWS -> 1 <= nC <= MAX_COLS -> in_grid nR nC a ->
  wall_side (centre a) d = Some t ->
  (54 <= t.1.1 <= 507 /\ 203 <= t.1.2 <= 708) /\
  (54 <= t.2.1 <= 507 /\ 203 <= t.2.2 <= 708).
Proof.
  intros HnR HnC [Hr Hc]. unfold MAX_ROWS, MAX_COLS in *.
  unfold wall_side. rewrite centre_small by lia. cbn [fst snd].
  unfold DRAW_E, DRAW_V. change (6 / 2) with 3.
  repeat match goal with
  | |- context [?x =? ?y] => destruct (x =? y); [intros [= <-]; cbn [fst snd]; lia|]
  end.
  discriminate.
Qed.

(** X20.  The drawing stays on the page.  For every supported size and any
    contents of the grid, drawing ends, and every line of either page, its
    coordinates computed in [uint32_t], has its two ends within 54..507
    across and 203..708 up. *)
Theorem drawMaze_on_page fuel maze nR nC drawSolution drawDeadEnds :
  1 <= nR <= MAX_ROWS -> 1 <= nC <= MAX_COLS -> arr_wf maze ->
  (Z.to_nat nC + 1 <= fuel)%nat ->
  exists out, drawMaze fuel maze nR nC drawSolution drawDeadEnds = Some out /\
    forall x1 y1 x2 y2, ps_line x1 y1 x2 y2 ∈ out ->
      (54 <= x1 <= 507 /\ 203 <= y1 <= 708) /\ (54 <= x2 <= 507 /\ 203 <= y2 <= 708).
Proof.
  intros HnR HnC Hwf Hfuel.
  destruct (drawMaze_pages nR nC maze HnR HnC Hwf fuel drawDeadEnds Hfuel)
    as (page1 & sol & Hp1 & Hp2 & Hsol & Hwalls & _).
  assert (Hlines : forall out x1 y1 x2 y2,
            ps_line x1 y1 x2 y2 ∈ out -> ((x1, y1), (x2, y2)) ∈ lines out).
  { intros out x1 y1 x2 y2 Hin. unfold lines. apply list_elem_of_omap.
    by exists (ps_line x1 y1 x2 y2). }
  assert (H1 : forall s, s ∈ lines page1 ->
            (54 <= s.1.1 <= 507 /\ 203 <= s.1.2 <= 708) /\
            (54 <= s.2.1 <= 507 /\ 203 <= s.2.2 <= 708)).
  { intros s (a & d & t & Ha & _ & Ht & Hst)%Hwalls.
    pose proof (wall_side_on_page nR nC a d t HnR HnC Ha Ht) as Hb.
    destruct Hst as [->| ->]; cbn [fst snd]; tauto. }
  assert (H2 : forall s, s ∈ lines sol ->
            (54 <= s.1.1 <= 507 /\ 203 <= s.1.2 <= 708) /\
            (54 <= s.2.1 <= 507 /\ 203 <= s.2.2 <= 708)).
  { intros s (a & b & Ha & _ & Hstep & _ & _ & ->)%Hsol.
    pose proof (open_step_in_grid nR nC HnR HnC _ _ _ Hstep) as Hb.
    destruct Ha as [? ?], Hb as [? ?]. unfold MAX_ROWS, MAX_COLS in *.
    rewrite !centre_small by lia. cbn [fst snd]. lia. }
  destruct drawSolution.
  - eexists. split; [exact Hp2|]. intros x1 y1 x2 y2 Hin.
    apply elem_of_app in Hin as [Hin|Hin]; [exact (H1 _ (Hlines _ _ _ _ _ Hin))|].
    apply elem_of_app in Hin as [Hin|Hin]; [by apply list_elem_of_singleton in Hin|].
    apply elem_of_app in Hin as [Hin|Hin]; [exact (H2 _ (Hlines _ _ _ _ _ Hin))|].
    by apply list_elem_of_singleton in Hin.
  - eexists. split; [exact Hp1|]. intros x1 y1 x2 y2 Hin.
    exact (H1 _ (Hlines _ _ _ _ _ Hin)).
Qed.

Lemma drawMaze_on_page_witness :
  exists out, drawMaze 4 example_maze 3 3 true false = Some out /\
    forall x1 y1 x2 y2, ps_line x1 y1 x2 y2 ∈ out ->
      (54 <= x1 <= 507 /\ 203 <= y1 <= 708) /\ (54 <= x2 <= 507 /\ 203 <= y2 <= 708).
Proof.
  apply (drawMaze_on_page 4 example_maze 3 3 true false);
    [unfold MAX_ROWS; lia | unfold MAX_COLS; lia | reflexivity | cbn; lia].
Defined.

(** Consecutive cells of a walk are related, and a walk that ends in the
    grid stays in it. *)
Lemma is_walk_lookup (R : relation cell) p (i : nat) a b :
  is_walk R p -> p !! i = Some a -> p !! S i = Some b -> R a b.
Proof.
  revert i. induction p as [|x [|y p] IH]; intros i Hw; [done|by destruct i|].
  destruct Hw as [Hxy Hw]. destruct i as [|i].
  - by intros [= <-] [= <-].
  - intros Ha Hb. by apply (IH i).
Qed.

Lemma walk_in_grid maze nR nC p g a :
  is_walk (open_step maze nR nC) p -> last p = Some g -> in_grid nR nC g ->
  a ∈ p -> in_grid nR nC a.
Proof.
  intros Hw Hl Hg. induction p as [|x [|y p] IH]; [by intros ?%elem_of_nil| |].
  - intros ->%list_elem_of_singleton. by injection Hl as ->.
  - destruct Hw as [Hxy Hw]. rewrite last_cons_cons in Hl.
    intros [->|Ha]%elem_of_cons; [by destruct Hxy | by apply IH].
Qed.

Section solution_layer.
Context (nR nC : Z) (fuel : nat) (maze : list Z).
Hypothesis HnR : 1 <= nR <= MAX_ROWS.
Hypothesis HnC : 1 <= nC <= MAX_COLS.
Hypothesis Hwf : arr_wf maze.
Hypothesis Hfuel : (Z.to_nat (nR * nC) + 1 <= fuel)%nat.
Hypothesis Hsym : wall_symmetric maze nR nC.

(** With symmetric walls the labels of two cells joined by a passage
    differ by one at most. *)
Lemma labels_lipschitz a b va vb :
  open_step maze nR nC a b ->
  labelled_distance fuel maze nR nC a = Some va -> 0 <= va ->
  labelled_distance fuel maze nR nC b = Some vb -> 0 <= vb ->
  -1 <= va - vb <= 1.
Proof.
  intros Hab Ha Hva Hb Hvb.
  pose proof (open_step_sym nR nC HnR HnC maze Hwf Hsym) as Hosym.
  destruct (solve_distances nR nC fuel maze HnR HnC Hwf Hfuel) as (st & Hst & _ & _ & Hdist).
  unfold labelled_distance in Ha, Hb. rewrite Hst in Ha, Hb.
  change (dist (bfs_count st) a = Some va) in Ha.
  change (dist (bfs_count st) b = Some vb) in Hb.
  assert (Hga : in_grid nR nC a) by (by destruct Hab).
  pose proof (open_step_in_grid nR nC HnR HnC _ _ _ Hab) as Hgb.
  destruct (Hdist a Hga) as (xa & Hxa & [[-> _]|(_ & Hka & Hmina)]);
    [assert (va = -1) by congruence; lia|].
  destruct (Hdist b Hgb) as (xb & Hxb & [[-> _]|(_ & Hkb & Hminb)]);
    [assert (vb = -1) by congruence; lia|].
  assert (xa = va) as -> by congruence. assert (xb = vb) as -> by congruence.
  pose proof (Hminb _ (nsteps_r _ _ _ _ Hka Hab)).
  pose proof (Hmina _ (nsteps_r _ _ _ _ Hkb (Hosym _ _ Hab))). lia.
Qed.
End solution_layer.

(** X21.  The second page shows the solution.  On a grid with symmetric
    walls whose start has a label, the solution layer drawn from the solved
    grid has no stroke twice, and its strokes are exactly the lines that
    join the centres of two consecutive cells of the path the solver
    flagged, each drawn from the cell of smaller index. *)
Theorem solution_layer_draws_path fuel maze nR nC d drawDeadEnds :
  1 <= nR <= MAX_ROWS -> 1 <= nC <= MAX_COLS -> arr_wf maze ->
  (Z.to_nat (nR * nC) + 1 <= fuel)%nat ->
  wall_symmetric maze nR nC ->
  labelled_distance fuel maze nR nC start_cell = Some d -> d <> -1 ->
  exists solved p page1 sol,
    solveMazeBFS fuel maze nR nC = Some (solved, Solved) /\
    head p = Some start_cell /\ last p = Some (goal_cell nR nC) /\
    length p = S (Z.to_nat d) /\
    (forall a, in_grid nR nC a -> (bit_set solved a VISITED = true <-> a ∈ p)) /\
    drawMaze fuel solved nR nC false drawDeadEnds = Some page1 /\
    drawMaze fuel solved nR nC true drawDeadEnds =
      Some (page1 ++
            [ps_text ("0 0 1 setrgbcolor gsave currentlinewidth 5 mul setlinewidth "
                      +:+ " 1 setlinecap" +:+ nl)] ++ sol ++
            [ps_text ("grestore" +:+ nl)]) /\
    NoDup (lines sol) /\
    forall s, s ∈ lines sol <->
      exists (i : nat) a a', p !! i = Some a /\ p !! S i = Some a' /\
        s = if cell_idx nC a <? cell_idx nC a'
            then (centre a, centre a') else (centre a', centre a).
Proof.
  intros HnR HnC Hwf Hfuel Hsym Hd Hreached.
  destruct (solve_path fuel maze nR nC d HnR HnC Hwf Hfuel Hsym Hd Hreached)
    as (solved & p & Hrun & Hh & Hl & Hlen & Hnd & Hflag & Hwalk & Hidx & _).
  destruct (solve_keeps fuel maze nR nC HnR HnC Hwf Hfuel) as (g & res & Hrun' & Hsame).
  rewrite Hrun in Hrun'. injection Hrun' as <- <-.
  pose proof (same_walls_wf _ _ Hsame Hwf) as Hwf'.
  pose proof (fun a b => open_step_same_walls nR nC HnR HnC maze solved a b Hwf Hsame) as Hequiv.
  pose proof (open_step_sym nR nC HnR HnC maze Hwf Hsym) as Hosym.
  pose proof (grid_size nR nC HnR HnC) as Hsz.
  destruct (drawMaze_pages nR nC solved HnR HnC Hwf' fuel drawDeadEnds)
    as (page1 & sol & Hp1 & Hp2 & Hsol & _ & Hnodup).
  { assert (nC <= nR * nC) by nia. lia. }
  assert (Hgrid : forall a, a ∈ p -> in_grid nR nC a).
  { intros a. apply (walk_in_grid maze nR nC p (goal_cell nR nC)); [done..|].
    by apply goal_in_grid. }
  assert (Hd0 : 0 <= d).
  { destruct (solve_distances nR nC fuel maze HnR HnC Hwf Hfuel) as (st & Hst & _ & _ & Hdist).
    unfold labelled_distance in Hd. rewrite Hst in Hd.
    change (dist (bfs_count st) start_cell = Some d) in Hd.
    destruct (Hdist start_cell (start_in_grid nR nC HnR HnC)) as (x & Hx & [[-> _]|[Hx0 _]]);
      [congruence|]. assert (x = d) as -> by congruence. done. }
  assert (Hpos : forall (i : nat) a, p !! i = Some a -> 0 <= d - Z.of_nat i).
  { intros i a Hi. apply lookup_lt_Some in Hi. lia. }
  exists solved, p, page1, sol. repeat (split; [done|]).
  intros s. rewrite Hsol. split.
  - intros (a & b & Ha & Hfa & Hstep%Hequiv & Hfb & Hlt & ->).
    pose proof (open_step_in_grid nR nC HnR HnC _ _ _ Hstep) as Hb.
    apply (Hflag a Ha) in Hfa. apply (Hflag b Hb) in Hfb.
    apply list_elem_of_lookup in Hfa as [i Hi]. apply list_elem_of_lookup in Hfb as [j Hj].
    pose proof (labels_lipschitz nR nC fuel maze HnR HnC Hwf Hfuel Hsym a b _ _ Hstep
                  (Hidx i a Hi) (Hpos i a Hi) (Hidx j b Hj) (Hpos j b Hj)) as Hlip.
    assert (Hne : i <> j).
    { intros ->. assert (a = b) as -> by congruence.
      by apply (open_step_irrefl nR nC maze HnR HnC) in Hstep. }
    assert (j = S i \/ i = S j) as [-> | ->] by lia.
    + exists i, a, b. split; [done|]. split; [done|].
      by destruct (Z.ltb_spec (cell_idx nC a) (cell_idx nC b)); [|lia].
    + exists j, b, a. split; [done|]. split; [done|].
      by destruct (Z.ltb_spec (cell_idx nC b) (cell_idx nC a)); [lia|].
  - intros (i & a & a' & Hi & Hi' & ->).
    pose proof (is_walk_lookup _ p i a a' Hwalk Hi Hi') as Hstep.
    assert (Ha : in_grid nR nC a) by (apply Hgrid; by eapply list_elem_of_lookup_2).
    assert (Ha' : in_grid nR nC a') by (apply Hgrid; by eapply list_elem_of_lookup_2).
    assert (Hfa : bit_set solved a VISITED = true).
    { apply (Hflag a Ha). by eapply list_elem_of_lookup_2. }
    assert (Hfa' : bit_set solved a' VISITED = true).
    { apply (Hflag a' Ha'). by eapply list_elem_of_lookup_2. }
    assert (Hne : cell_idx nC a <> cell_idx nC a').
    { intros E. apply (cell_idx_inj nR nC HnC) in E; [|done..]. subst a'.
      pose proof (NoDup_lookup _ _ _ _ Hnd Hi Hi'). lia. }
    destruct (Z.ltb_spec (cell_idx nC a) (cell_idx nC a')).
    + exists a, a'. split; [done|]. split; [done|]. split; [by apply Hequiv|].
      split; [done|]. split; [done|done].
    + exists a', a. split; [done|]. split; [done|]. split; [by apply Hequiv, Hosym|].
      split; [done|]. split; [lia|done].
Qed.

Lemma solution_layer_draws_path_witness :
  exists solved p page1 sol,
    solveMazeBFS 10 example_maze 3 3 = Some (solved, Solved) /\
    head p = Some start_cell /\ last p = Some (goal_cell 3 3) /\
    length p = S (Z.to_nat 6) /\
    (forall a, in_grid 3 3 a -> (bit_set solved a VISITED = true <-> a ∈ p)) /\
    drawMaze 10 solved 3 3 false false = Some page1 /\
    drawMaze 10 solved 3 3 true false =
      Some (page1 ++
            [ps_text ("0 0 1 setrgbcolor gsave currentlinewidth 5 mul setlinewidth "
                      +:+ " 1 setlinecap" +:+ nl)] ++ sol ++
            [ps_text ("grestore" +:+ nl)]) /\
    NoDup (lines sol) /\
    forall s, s ∈ lines sol <->
      exists (i : nat) a a', p !! i = Some a /\ p !! S i = Some a' /\
        s = if cell_idx 3 a <? cell_idx 3 a'
            then (centre a, centre a') else (centre a', centre a).
Proof.
  apply (solution_layer_draws_path 10 example_maze 3 3 6 false);
    [unfold MAX_ROWS; lia | unfold MAX_COLS; lia | reflexivity | cbn; lia
    | apply wall_symmetricb_correct; vm_compute; reflexivity
    | vm_compute; reflexivity | lia].
Defined.

Lemma boundary_closedb_correct maze nR nC :
  boundary_closedb maze nR nC = true -> boundary_closed maze nR nC.
Proof.
  unfold boundary_closedb. rewrite forallb_forall. intros H a d Ha Hd Hn.
  specialize (H a). rewrite <- list_elem_of_In, elem_of_cells in H. specialize (H Ha).
  rewrite forallb_forall in H. specialize (H d). rewrite <- list_elem_of_In in H.
  specialize (H Hd). by rewrite Hn in H.
Qed.

Lemma drawMaze_shows_walls_witness :
  exists out, drawMaze 4 example_maze 3 3 false false = Some out /\
    forall a d t, in_grid 3 3 a -> d ∈ directions ->
      wall_side (centre a) d = Some t ->
      (bit_set example_maze a d = true <-> exists s, s ∈ lines out /\ same_segment s t).
Proof.
  apply (drawMaze_shows_walls 4 example_maze 3 3 false);
    [unfold MAX_ROWS; lia | unfold MAX_COLS; lia | reflexivity
    | apply wall_symmetricb_correct; vm_compute; reflexivity
    | apply boundary_closedb_correct; vm_compute; reflexivity
    | cbn; lia].
Defined.

(** ** The program as a whole *)

(** The dimensions test on two [int]s. *)
Lemma main_dimensions_cases rows cols :
  -2147483648 <= rows < 2147483648 -> -2147483648 <= cols < 2147483648 ->
  main_dimensions rows cols =
    if decide (1 <= rows <= 50 /\ 1 <= cols <= 50) then Some (rows, cols) else None.
Proof.
  intros Hr Hc. unfold main_dimensions, MAX_ROWS, MAX_COLS, to_u32.
  rewrite !Z.gtb_ltb.
  destruct (Z.leb_spec rows 0), (Z.leb_spec cols 0),
    (Z.ltb_spec 50 (rows mod 4294967296)), (Z.ltb_spec 50 (cols mod 4294967296));
    cbn [orb]; case_decide; try done; try lia.
  f_equal. f_equal; lia.
Qed.

(** X22.  [main] accepts exactly the dimensions from 1 to 50 and passes
    them on unchanged; for every other pair of [int]s, the negative ones
    included, whose conversion to [uint32_t] the test on 0 precedes, it
    exits with code 1 before anything is generated. *)
Theorem main_accepts_1_to_50 rows cols :
  -2147483648 <= rows < 2147483648 -> -2147483648 <= cols < 2147483648 ->
  (1 <= rows <= 50 /\ 1 <= cols <= 50 -> main_dimensions rows cols = Some (rows, cols)) /\
  (~ (1 <= rows <= 50 /\ 1 <= cols <= 50) ->
   main_dimensions rows cols = None /\
   forall fuel shuffle can_open,
     main_run fuel shuffle can_open rows cols = Some main_rejected /\
     main_exit_code main_rejected = 1).
Proof.
  intros Hr Hc. pose proof (main_dimensions_cases rows cols Hr Hc) as E.
  case_decide as Hd; split; try done.
  intros _. split; [done|]. intros fuel shuffle can_open. unfold main_run. by rewrite E.
Qed.

Lemma main_accepts_1_to_50_witness :
  (1 <= -3 <= 50 /\ 1 <= 7 <= 50 -> main_dimensions (-3) 7 = Some (-3, 7)) /\
  (~ (1 <= -3 <= 50 /\ 1 <= 7 <= 50) ->
   main_dimensions (-3) 7 = None /\
   forall fuel shuffle can_open,
     main_run fuel shuffle can_open (-3) 7 = Some main_rejected /\
     main_exit_code main_rejected = 1).
Proof. apply (main_accepts_1_to_50 (-3) 7); lia. Defined.

(** X23.  A run of the program on accepted dimensions, with a shuffle that
    permutes the candidates: generation gives a spanning tree without the
    warning, the solver returns normally on it, the array handed to
    [printMaze] has the walls of the generated grid and the path flag on
    exactly the cells of the one simple path from the start to the goal,
    the file is written whenever it can be opened, and the exit code is
    0. *)
Theorem main_run_solves fuel shuffle can_open rows cols :
  1 <= rows <= 50 -> 1 <= cols <= 50 ->
  shuffle (internalWalls rows cols) ≡ₚ internalWalls rows cols ->
  (Z.to_nat (rows * cols) + 1 <= fuel)%nat ->
  exists grid solved p file,
    main_run fuel shuffle can_open rows cols = Some (main_done solved false Solved file) /\
    main_exit_code (main_done solved false Solved file) = 0 /\
    generateMaze fuel shuffle (replicate 2500 0) rows cols = Some (grid, false) /\
    spanning_tree grid rows cols /\
    same_walls grid solved /\
    simple_path (open_step grid rows cols) start_cell (goal_cell rows cols) p /\
    (forall q, simple_path (open_step grid rows cols) start_cell (goal_cell rows cols) q ->
               q = p) /\
    (forall a, in_grid rows cols a -> (bit_set solved a VISITED = true <-> a ∈ p)) /\
    printMaze fuel can_open solved rows cols = Some file /\
    (file = None <-> can_open = false).
Proof.
  intros HnR HnC Hperm Hfuel.
  assert (Hwf : arr_wf (replicate 2500 0)) by reflexivity.
  destruct (generate_state_full rows cols HnR HnC fuel (replicate 2500 0)
              (shuffle (internalWalls rows cols)))
    as (st & Hrun & Hinv & Hk & Htree); [lia|done|by intros w; rewrite Hperm|].
  pose proof (gi_maze _ _ _ Hinv) as Hgwf.
  destruct (connected_start_labelled fuel (gs_maze st) rows cols HnR HnC Hgwf Hfuel
              (st_connected _ _ _ Htree)) as (d & Hd & Hpos).
  destruct (solve_path fuel (gs_maze st) rows cols d HnR HnC Hgwf Hfuel
              (st_symmetric _ _ _ Htree) Hd ltac:(lia))
    as (solved & p & Hsolve & Hh & Hl & _ & Hnd & Hmark & Hw & _ & Huniq).
  destruct (solve_keeps fuel (gs_maze st) rows cols HnR HnC Hgwf Hfuel)
    as (solved' & res & Hsolve' & Hsame).
  assert (solved' = solved) as -> by congruence.
  pose proof (same_walls_wf _ _ Hsame Hgwf) as Hswf.
  assert (Hgen : generateMaze fuel shuffle (replicate 2500 0) rows cols
                 = Some (gs_maze st, false)).
  { rewrite (generateMaze_run rows cols _ fuel shuffle st HnR HnC Hrun), Hk.
    by rewrite Z.ltb_irrefl. }
  assert (Hfuel' : (Z.to_nat cols + 1 <= fuel)%nat).
  { assert (cols <= rows * cols) by nia. lia. }
  destruct (drawMaze_pages rows cols solved HnR HnC Hswf fuel false Hfuel')
    as (page1 & sol & Hp1 & Hp2 & _).
  assert (Hprint : exists file, printMaze fuel can_open solved rows cols = Some file /\
                     (file = None <-> can_open = false)).
  { unfold printMaze. destruct can_open.
    - rewrite Hp1, Hp2. cbn [mbind option_bind]. eexists. split; [done|]. by split.
    - by exists None. }
  destruct Hprint as (file & Hprint & Hfile).
  exists (gs_maze st), solved, p, file.
  split.
  { unfold main_run. rewrite (main_dimensions_cases rows cols) by lia.
    rewrite decide_True by done.
    change (Z.to_nat (MAX_ROWS * MAX_COLS)) with 2500%nat.
    rewrite Hgen. cbn [mbind option_bind]. rewrite Hsolve. cbn [mbind option_bind].
    by rewrite Hprint. }
  split; [done|]. split; [done|]. split; [done|]. split; [done|].
  split; [by repeat split|]. split; [apply Huniq, (st_acyclic _ _ _ Htree)|].
  split; [done|]. split; [done|done].
Qed.

Lemma main_run_solves_witness :
  exists grid solved p file,
    main_run 10 reverse true 3 3 = Some (main_done solved false Solved file) /\
    main_exit_code (main_done solved false Solved file) = 0 /\
    generateMaze 10 reverse (replicate 2500 0) 3 3 = Some (grid, false) /\
    spanning_tree grid 3 3 /\
    same_walls grid solved /\
    simple_path (open_step grid 3 3) start_cell (goal_cell 3 3) p /\
    (forall q, simple_path (open_step grid 3 3) start_cell (goal_cell 3 3) q -> q = p) /\
    (forall a, in_grid 3 3 a -> (bit_set solved a VISITED = true <-> a ∈ p)) /\
    printMaze 10 true solved 3 3 = Some file /\
    (file = None <-> true = false).
Proof.
  apply (main_run_solves 10 reverse true 3 3);
    [lia | lia | apply reverse_Permutation | cbn; lia].
Defined.
